(** * Wafer: a small imperative language compiled to a WebAssembly module

    A shallow embedding of the compiler of [src/chapters]: the byte-sequence
    assembler ([chapter01.ts]), the symbol table builder and the module
    builder ([chapter04.ts], [chapter05.ts]) and the code generator for the
    full grammar ([chapter06.ts]).  The compilers of the earlier stages
    ([chapter02.ts] to [chapter05.ts]) follow in modules of their own and
    are related to the last one.

    JavaScript numbers are integers everywhere in this program and are
    modelled by [Z]; a thrown [Error] is the [Err] branch of [result]; an
    identifier or a function name is a [string], read as the sequence of
    its UTF-8 bytes; a [Map] is an association list in insertion order.
    The semantic actions of the source are keyed by the names of the
    grammar's rules; here the rules are the constructors of the syntax
    trees and each action is a case of a function on these trees, named
    after the operation ([bst_] for [buildSymbolTable], [toWasm_],
    [functionDecls_]). *)

From Stdlib Require Import ZArith List String Ascii Bool Lia.
Import ListNotations.

Scheme All for list.

Local Open Scope string_scope.
Local Open Scope list_scope.
Local Open Scope Z_scope.

(** ** Errors thrown by the compiler *)

Inductive error : Type :=
  | NotImplemented                        (* u32, i32: "Not Implemented" *)
  | UndeclaredIdentifier (name : string)  (* resolveSymbol *)
  | UnhandledBinaryOp (op : string)       (* binaryOp *)
  | TypeError.                            (* a method called on undefined *)

Inductive result (A : Type) : Type :=
  | Ok (a : A)
  | Err (e : error).

Arguments Ok {A} a.
Arguments Err {A} e.

Definition bind {A B : Type} (r : result A) (k : A -> result B) : result B :=
  match r with
  | Ok a => k a
  | Err e => Err e
  end.

Notation "x <- c1 ;; c2" := (bind c1 (fun x => c2))
  (at level 61, c1 at next level, right associativity).

Definition mapM {A B : Type} (f : A -> result B) : list A -> result (list B) :=
  fix go (l : list A) : result (list B) :=
    match l with
    | [] => Ok []
    | a :: l' => b <- f a ;; bs <- go l' ;; Ok (b :: bs)
    end.

(** ** Nested byte fragments: [type bytes = (number | bytes)[]] *)

Inductive item : Type :=
  | Num (v : Z)
  | Arr (l : list item).

Definition bytes : Type := list item.

(** [arr.flat(Infinity)] *)
Fixpoint flatten_item (i : item) : list Z :=
  match i with
  | Num v => [v]
  | Arr l => flat_map flatten_item l
  end.

Definition flatten (arr : bytes) : list Z := flat_map flatten_item arr.

(** [Uint8Array.from]: every number is stored modulo 256. *)
Definition Uint8Array_from (l : list Z) : list Z := map (fun v => v mod 256) l.

(** [arr.length] *)
Definition len {A : Type} (l : list A) : Z := Z.of_nat (List.length l).

(** ** Opcodes ([instr.js]) *)

Module instr.
Definition i32_const := 0x41.
Definition i32_eqz := 0x45.
Definition i32_eq := 0x46.
Definition i32_ne := 0x47.
Definition i32_lt_s := 0x48.
Definition i32_ls_u := 0x49.
Definition i32_gt_s := 0x4a.
Definition i32_gt_u := 0x4b.
Definition i32_le_s := 0x4c.
Definition i32_le_u := 0x4d.
Definition i32_ge_s := 0x4e.
Definition i32_ge_u := 0x4f.
Definition i32_add := 0x6a.
Definition i32_sub := 0x6b.
Definition i32_and := 0x71.
Definition i32_or := 0x72.
Definition i64_const := 0x42.
Definition f32_const := 0x43.
Definition f64_const := 0x44.
Definition local_get := 0x20.
Definition local_set := 0x21.
Definition local_tee := 0x22.
Definition block := 0x02.
Definition loop := 0x03.
Definition call := 0x10.
Definition drop := 0x1a.
Definition if_ := 0x04.
Definition else_ := 0x05.
Definition end_ := 0x0b.
Definition br := 0x0c.
Definition br_if := 0x0d.
End instr.

Module valtype.
Definition i32 := 0x7f.
Definition i64 := 0x7e.
Definition f32 := 0x7d.
Definition f64 := 0x7c.
End valtype.

Module blocktype.
Definition empty := 0x40.
Definition i32 := valtype.i32.
End blocktype.

(** ** The byte-sequence assembler ([chapter01.ts]) *)

(** [stringToBytes]: the bytes [TextEncoder] writes.  A string of the model
    is the sequence of its UTF-8 bytes, which covers the strings that are
    well formed; for a lone surrogate the encoder writes the bytes of
    U+FFFD, so that two strings that are not well formed can have the same
    bytes. *)
Definition stringToBytes (s : string) : bytes :=
  map (fun c => Num (Z.of_nat (nat_of_ascii c))) (list_ascii_of_string s).

Definition int32ToBytes (v : Z) : bytes :=
  [ Num (Z.land v 0xff);
    Num (Z.land (Z.shiftr v 8) 0xff);
    Num (Z.land (Z.shiftr v 16) 0xff);
    Num (Z.land (Z.shiftr v 24) 0xff) ].

Definition u32 (v : Z) : result bytes :=
  if v <=? 127 then Ok [Num v] else Err NotImplemented.

Definition i32 (v : Z) : result bytes :=
  if v <=? 63 then Ok [Num v] else Err NotImplemented.

(** [[u32(elements.length), ...elements]] *)
Definition vec (elements : bytes) : result bytes :=
  n <- u32 (len elements) ;;
  Ok (Arr n :: elements).

Definition magic : bytes := stringToBytes (String "000"%char "asm").

Definition version : bytes := int32ToBytes 1.

Definition section (id : Z) (contents : bytes) : result bytes :=
  let sizeInBytes := len (flatten contents) in
  n <- u32 sizeInBytes ;;
  Ok [Num id; Arr n; Arr contents].

Definition SECTION_ID_TYPE := 1.
Definition TYPE_FUNCTION := 0x60.

Definition functype (paramTypes resultTypes : bytes) : result bytes :=
  ps <- vec paramTypes ;;
  rs <- vec resultTypes ;;
  Ok [Num TYPE_FUNCTION; Arr ps; Arr rs].

Definition typesec (functypes : bytes) : result bytes :=
  v <- vec functypes ;;
  section SECTION_ID_TYPE v.

Definition SECTION_ID_FUNCTION := 3.

Definition typeidx := u32.

Definition funcsec (typeidxs : bytes) : result bytes :=
  v <- vec typeidxs ;;
  section SECTION_ID_FUNCTION v.

Definition SECTION_ID_CODE := 10.

Definition code (func : bytes) : result bytes :=
  let sizeInBytes := len (flatten func) in
  n <- u32 sizeInBytes ;;
  Ok [Arr n; Arr func].

Definition func (locals body : bytes) : result bytes :=
  v <- vec locals ;;
  Ok [Arr v; Arr body].

Definition codesec (codes : bytes) : result bytes :=
  v <- vec codes ;;
  section SECTION_ID_CODE v.

Definition SECTION_ID_EXPORT := 7.

Definition name (s : string) : result bytes := vec (stringToBytes s).

Definition export_ (nm : string) (exportdesc : bytes) : result bytes :=
  n <- name nm ;;
  Ok [Arr n; Arr exportdesc].

Definition exportsec (exports : bytes) : result bytes :=
  v <- vec exports ;;
  section SECTION_ID_EXPORT v.

Definition funcidx := u32.

Definition exportdesc_func (idx : Z) : result bytes :=
  i <- funcidx idx ;;
  Ok [Num 0x00; Arr i].

Definition module (sections : bytes) : bytes :=
  [Arr magic; Arr version; Arr sections].

(** [chapter04.ts] *)
Definition locals (n : Z) (type : Z) : result bytes :=
  c <- u32 n ;;
  Ok [Arr c; Num type].

Definition localidx := u32.

(** ** JavaScript's [Map]: an insertion-ordered map

    [set] on a key already present replaces the value and keeps the key's
    position; on a new key it appends.  Iteration ([keys], [values]) follows
    insertion order. *)

Module JSMap.
Section JSMap.
Context {V : Type}.

Definition t : Type := list (string * V).

Definition empty : t := [].

Fixpoint set (m : t) (k : string) (v : V) : t :=
  match m with
  | [] => [(k, v)]
  | (k', v') :: m' =>
      if String.eqb k' k then (k', v) :: m' else (k', v') :: set m' k v
  end.

Fixpoint get (m : t) (k : string) : option V :=
  match m with
  | [] => None
  | (k', v') :: m' => if String.eqb k' k then Some v' else get m' k
  end.

Definition has (m : t) (k : string) : bool :=
  match get m k with Some _ => true | None => false end.

Definition size (m : t) : Z := len m.

Definition keys (m : t) : list string := map fst m.

Definition values (m : t) : list V := map snd m.

End JSMap.
Arguments t V : clear implicits.
End JSMap.

(** [Array.prototype.indexOf]: position of the first occurrence, or -1. *)
Fixpoint indexOf_from (l : list string) (x : string) (i : Z) : Z :=
  match l with
  | [] => -1
  | y :: l' => if String.eqb y x then i else indexOf_from l' x (i + 1)
  end.

Definition indexOf (l : list string) (x : string) : Z := indexOf_from l x 0.

(** ** Symbols and scopes ([chapter04.ts], [chapter05.ts])

    [type Scope = Map<string, Symbol | Scope>] is used at exactly two
    levels: the module scope maps a function name to that function's scope,
    and a function scope maps an identifier to its [Symbol]. *)

Inductive kind : Type := param | local.

Definition kind_eqb (a b : kind) : bool :=
  match a, b with
  | param, param | local, local => true
  | _, _ => false
  end.

Record Symbol : Type := mkSymbol {
  sym_name : string;
  idx : Z;
  what : kind
}.

Definition FunScope : Type := JSMap.t Symbol.
Definition Scope : Type := JSMap.t FunScope.

(** ** Syntax trees of the grammar of [chapter06.ts]

    The parser is an external collaborator; the compiler receives its
    tree.  A number literal carries [parseInt(sourceString, 10)], which is
    never negative since the rule is [digit+]; an absent [Params?] or
    [Args?] is the empty list.

<<
    Statement = LetStatement | IfStatement | WhileStatement | ExprStatement
    LetStatement = let identifier "=" Expr ";"
    IfStatement = if Expr BlockStatements
                  (else (BlockStatements | IfStatement))?
    WhileStatement = while Expr BlockStatements
    BlockExpr = "{" Statement* Expr "}"
    BlockStatements = "{" Statement* "}"
    ExprStatement = Expr ";"
    Expr = AssignmentExpr  -- assignment
         | PrimaryExpr (binaryOp PrimaryExpr)*  -- binary
    AssignmentExpr = identifier ":=" Expr
    PrimaryExpr = number  -- num
                | CallExpr
                | identifier  -- var
                | IfExpr
    CallExpr = identifier "(" Args? ")"
    Args = Expr ("," Expr)*
    IfExpr = if Expr BlockExpr else (BlockExpr | IfExpr)
    binaryOp = "+" | "-" | compareOp | logicalOp
>>
*)

Inductive binaryOp : Type :=
  | op_add | op_sub
  | op_eq | op_ne | op_le | op_lt | op_ge | op_gt
  | op_and | op_or.

Definition sourceString (o : binaryOp) : string :=
  match o with
  | op_add => "+" | op_sub => "-"
  | op_eq => "==" | op_ne => "!=" | op_le => "<=" | op_lt => "<"
  | op_ge => ">=" | op_gt => ">"
  | op_and => "and" | op_or => "or"
  end.

Scheme All for prod.

Inductive Expr : Type :=
  | AssignmentExpr (ident : string) (expr : Expr)
  | Expr_binary (num : PrimaryExpr) (rest : list (binaryOp * PrimaryExpr))
with PrimaryExpr : Type :=
  | PrimaryExpr_num (value : N)
  | CallExpr (ident : string) (args : list Expr)
  | PrimaryExpr_var (ident : string)
  | PrimaryExpr_if (e : IfExpr)
with IfExpr : Type :=
  | IfExpr_else (cond : Expr) (thenBlock : BlockExpr) (elseBlock : BlockExpr)
  | IfExpr_elif (cond : Expr) (thenBlock : BlockExpr) (elseIf : IfExpr)
with BlockExpr : Type :=
  | BlockExpr_ (stmts : list Statement) (expr : Expr)
with Statement : Type :=
  | LetStatement (ident : string) (expr : Expr)
  | Statement_if (s : IfStatement)
  | WhileStatement (cond : Expr) (body : list Statement)
  | ExprStatement (expr : Expr)
with IfStatement : Type :=
  | IfStatement_then (cond : Expr) (thenBlock : list Statement)
  | IfStatement_else (cond : Expr) (thenBlock elseBlock : list Statement)
  | IfStatement_elif (cond : Expr) (thenBlock : list Statement)
                     (elseIf : IfStatement).

Scheme Expr_mind := Induction for Expr Sort Prop
  with PrimaryExpr_mind := Induction for PrimaryExpr Sort Prop
  with IfExpr_mind := Induction for IfExpr Sort Prop
  with BlockExpr_mind := Induction for BlockExpr Sort Prop
  with Statement_mind := Induction for Statement Sort Prop
  with IfStatement_mind := Induction for IfStatement Sort Prop.

Combined Scheme syntax_mutind from Expr_mind, PrimaryExpr_mind, IfExpr_mind,
  BlockExpr_mind, Statement_mind, IfStatement_mind.

(** [FunctionDecl = func identifier "(" Params? ")" BlockExpr] *)
Record FunctionDeclNode : Type := mkFunctionDeclNode {
  fd_ident : string;
  fd_params : list string;
  fd_body : BlockExpr
}.

(** [Module = FunctionDecl*] *)
Definition ModuleNode : Type := list FunctionDeclNode.

(** ** The symbol table builder ([buildSymbolTable], [chapter05.ts])

    [scopes.at(-1)] is the scope of the function being walked; it is
    threaded through the walk.  [_default] walks all children from left to
    right; the [LetStatement] action registers the name and does not walk
    its children. *)

(** One iteration of the loop of [Params] ([w] is [param]) and the
    [LetStatement] action ([w] is [local]): the new symbol gets the current
    size of the scope as its index. *)
Definition declare (w : kind) (sc : FunScope) (nm : string) : FunScope :=
  let idx := JSMap.size sc in
  let info := mkSymbol nm idx w in
  JSMap.set sc nm info.

Definition bst_Params (ids : list string) (sc : FunScope) : FunScope :=
  fold_left (declare param) ids sc.

Fixpoint bst_Expr (e : Expr) (sc : FunScope) {struct e} : FunScope :=
  match e with
  | AssignmentExpr _ expr => bst_Expr expr sc
  | Expr_binary num rest =>
      fold_left (fun sc' r => bst_PrimaryExpr (snd r) sc') rest
                (bst_PrimaryExpr num sc)
  end
with bst_PrimaryExpr (e : PrimaryExpr) (sc : FunScope) {struct e} : FunScope :=
  match e with
  | PrimaryExpr_num _ => sc
  | CallExpr _ args => fold_left (fun sc' a => bst_Expr a sc') args sc
  | PrimaryExpr_var _ => sc
  | PrimaryExpr_if e' => bst_IfExpr e' sc
  end
with bst_IfExpr (e : IfExpr) (sc : FunScope) {struct e} : FunScope :=
  match e with
  | IfExpr_else cond thenBlock elseBlock =>
      bst_BlockExpr elseBlock (bst_BlockExpr thenBlock (bst_Expr cond sc))
  | IfExpr_elif cond thenBlock elseIf =>
      bst_IfExpr elseIf (bst_BlockExpr thenBlock (bst_Expr cond sc))
  end
with bst_BlockExpr (b : BlockExpr) (sc : FunScope) {struct b} : FunScope :=
  match b with
  | BlockExpr_ stmts expr =>
      bst_Expr expr (fold_left (fun sc' s => bst_Statement s sc') stmts sc)
  end
with bst_Statement (s : Statement) (sc : FunScope) {struct s} : FunScope :=
  match s with
  | LetStatement id _expr => declare local sc id
  | Statement_if s' => bst_IfStatement s' sc
  | WhileStatement cond body =>
      fold_left (fun sc' s' => bst_Statement s' sc') body (bst_Expr cond sc)
  | ExprStatement expr => bst_Expr expr sc
  end
with bst_IfStatement (s : IfStatement) (sc : FunScope) {struct s} : FunScope :=
  match s with
  | IfStatement_then cond thenBlock =>
      fold_left (fun sc' s' => bst_Statement s' sc') thenBlock
                (bst_Expr cond sc)
  | IfStatement_else cond thenBlock elseBlock =>
      fold_left (fun sc' s' => bst_Statement s' sc') elseBlock
        (fold_left (fun sc' s' => bst_Statement s' sc') thenBlock
                   (bst_Expr cond sc))
  | IfStatement_elif cond thenBlock elseIf =>
      bst_IfStatement elseIf
        (fold_left (fun sc' s' => bst_Statement s' sc') thenBlock
                   (bst_Expr cond sc))
  end.

Definition bst_BlockStatements (stmts : list Statement) (sc : FunScope)
  : FunScope :=
  fold_left (fun sc' s => bst_Statement s sc') stmts sc.

(** The scope a function declaration leaves: a fresh [Map], the parameters,
    then the body. *)
Definition functionScope (d : FunctionDeclNode) : FunScope :=
  bst_BlockExpr (fd_body d) (bst_Params (fd_params d) JSMap.empty).

(** The [FunctionDecl] action.  The source stores the fresh, still empty
    [Map] under the function's name, pushes it, and fills that same object
    while walking the parameters and the body.  Function declarations do
    not nest, so nothing else touches the module scope in between: when the
    scope is popped, the entry stored at the start holds the filled map. *)
Definition bst_FunctionDecl (top : Scope) (d : FunctionDeclNode) : Scope :=
  let name := fd_ident d in
  let top' := JSMap.set top name JSMap.empty in
  let locals := functionScope d in
  JSMap.set top' name locals.

Definition buildSymbolTable (m : ModuleNode) : Scope :=
  fold_left bst_FunctionDecl m JSMap.empty.

(** ** Identifier resolution ([resolveSymbol], [chapter04.ts]) *)

Definition resolveSymbol (identName : string) (locals : FunScope)
  : result Symbol :=
  if JSMap.has locals identName then
    match JSMap.get locals identName with
    | Some info => Ok info
    | None => Err (UndeclaredIdentifier identName)
    end
  else Err (UndeclaredIdentifier identName).

(** ** The code generator ([defineToWasm], [chapter06.ts]) *)

Definition instructionByOp : list (string * Z) :=
  [ ("+", instr.i32_add);
    ("-", instr.i32_sub);
    ("==", instr.i32_eq);
    ("!=", instr.i32_ne);
    ("<", instr.i32_lt_s);
    ("<=", instr.i32_le_s);
    (">", instr.i32_gt_s);
    (">=", instr.i32_ge_s);
    ("and", instr.i32_and);
    ("or", instr.i32_or) ].

Definition toWasm_binaryOp (char : binaryOp) : result Z :=
  let op := sourceString char in
  match JSMap.get instructionByOp op with
  | None => Err (UnhandledBinaryOp op)
  | Some opcode => Ok opcode
  end.

(** The loop of [Expr_binary]:
    [result.push(operand.toWasm(), op.toWasm())] for each pair. *)
Definition Expr_binary_loop (operandToWasm : PrimaryExpr -> result bytes)
  : list (binaryOp * PrimaryExpr) -> bytes -> result bytes :=
  fix loop (rest : list (binaryOp * PrimaryExpr)) (acc : bytes)
    : result bytes :=
    match rest with
    | [] => Ok acc
    | r :: rest' =>
        a <- operandToWasm (snd r) ;;
        o <- toWasm_binaryOp (fst r) ;;
        loop rest' (acc ++ [Arr a; Num o])
    end.

(** [optArgs.children.map((c) => c.toWasm())]: [Args?] has no child when
    the call has no argument, and otherwise the one [Args] node, whose
    action is [[exp, ...iterExp.children].map((c) => c.toWasm())]. *)
Definition toWasm_optArgs (exprToWasm : Expr -> result bytes)
           (args : list Expr) : result bytes :=
  match args with
  | [] => Ok []
  | _ => cs <- mapM exprToWasm args ;; Ok [Arr (map Arr cs)]
  end.

Section defineToWasm.
(** [scopes[0]], the module scope. *)
Variable symbols : Scope.

(** [cur] is [scopes.at(-1)], the scope of the enclosing function. *)
Fixpoint toWasm_Expr (cur : FunScope) (e : Expr) {struct e}
  : result bytes :=
  match e with
  | AssignmentExpr ident expr =>
      info <- resolveSymbol ident cur ;;
      c <- toWasm_Expr cur expr ;;
      i <- localidx (idx info) ;;
      Ok [Arr c; Num instr.local_tee; Arr i]
  | Expr_binary num rest =>
      c <- toWasm_PrimaryExpr cur num ;;
      Expr_binary_loop (toWasm_PrimaryExpr cur) rest [Arr c]
  end
with toWasm_PrimaryExpr (cur : FunScope) (e : PrimaryExpr) {struct e}
  : result bytes :=
  match e with
  | PrimaryExpr_num value =>
      c <- i32 (Z.of_N value) ;;
      Ok (Num instr.i32_const :: c)
  | CallExpr ident args =>
      let funcNames := JSMap.keys symbols in
      let idx := indexOf funcNames ident in
      a <- toWasm_optArgs (toWasm_Expr cur) args ;;
      i <- funcidx idx ;;
      Ok [Arr a; Arr [Num instr.call; Arr i]]
  | PrimaryExpr_var ident =>
      info <- resolveSymbol ident cur ;;
      i <- localidx (idx info) ;;
      Ok [Num instr.local_get; Arr i]
  | PrimaryExpr_if e' => toWasm_IfExpr cur e'
  end
with toWasm_IfExpr (cur : FunScope) (e : IfExpr) {struct e}
  : result bytes :=
  match e with
  | IfExpr_else cond thenBlock elseBlock =>
      c <- toWasm_Expr cur cond ;;
      t <- toWasm_BlockExpr cur thenBlock ;;
      f <- toWasm_BlockExpr cur elseBlock ;;
      Ok [Arr c; Arr [Num instr.if_; Num blocktype.i32]; Arr t;
          Num instr.else_; Arr f; Num instr.end_]
  | IfExpr_elif cond thenBlock elseIf =>
      c <- toWasm_Expr cur cond ;;
      t <- toWasm_BlockExpr cur thenBlock ;;
      f <- toWasm_IfExpr cur elseIf ;;
      Ok [Arr c; Arr [Num instr.if_; Num blocktype.i32]; Arr t;
          Num instr.else_; Arr f; Num instr.end_]
  end
with toWasm_BlockExpr (cur : FunScope) (b : BlockExpr) {struct b}
  : result bytes :=
  match b with
  | BlockExpr_ stmts expr =>
      ss <- mapM (toWasm_Statement cur) stmts ;;
      c <- toWasm_Expr cur expr ;;
      Ok (map Arr ss ++ [Arr c])
  end
with toWasm_Statement (cur : FunScope) (s : Statement) {struct s}
  : result bytes :=
  match s with
  | LetStatement ident expr =>
      info <- resolveSymbol ident cur ;;
      c <- toWasm_Expr cur expr ;;
      i <- localidx (idx info) ;;
      Ok [Arr c; Num instr.local_set; Arr i]
  | Statement_if s' => toWasm_IfStatement cur s'
  | WhileStatement cond body =>
      c <- toWasm_Expr cur cond ;;
      ss <- mapM (toWasm_Statement cur) body ;;
      Ok [Arr [Num instr.loop; Num blocktype.empty];
          Arr c;
          Arr [Num instr.if_; Num blocktype.empty];
          Arr (map Arr ss);
          Arr [Num instr.br; Num 1];
          Num instr.end_;
          Num instr.end_]
  | ExprStatement expr =>
      c <- toWasm_Expr cur expr ;;
      Ok [Arr c; Num instr.drop]
  end
with toWasm_IfStatement (cur : FunScope) (s : IfStatement) {struct s}
  : result bytes :=
  match s with
  | IfStatement_then cond thenBlock =>
      let elseFrag := [] in
      c <- toWasm_Expr cur cond ;;
      t <- mapM (toWasm_Statement cur) thenBlock ;;
      Ok [Arr c; Arr [Num instr.if_; Num blocktype.empty];
          Arr (map Arr t); Arr elseFrag; Num instr.end_]
  | IfStatement_else cond thenBlock elseBlock =>
      f <- mapM (toWasm_Statement cur) elseBlock ;;
      let elseFrag := [Num instr.else_; Arr (map Arr f)] in
      c <- toWasm_Expr cur cond ;;
      t <- mapM (toWasm_Statement cur) thenBlock ;;
      Ok [Arr c; Arr [Num instr.if_; Num blocktype.empty];
          Arr (map Arr t); Arr elseFrag; Num instr.end_]
  | IfStatement_elif cond thenBlock elseIf =>
      f <- toWasm_IfStatement cur elseIf ;;
      let elseFrag := [Num instr.else_; Arr f] in
      c <- toWasm_Expr cur cond ;;
      t <- mapM (toWasm_Statement cur) thenBlock ;;
      Ok [Arr c; Arr [Num instr.if_; Num blocktype.empty];
          Arr (map Arr t); Arr elseFrag; Num instr.end_]
  end.

(** The [BlockStatements] action. *)
Definition toWasm_BlockStatements (cur : FunScope) (stmts : list Statement)
  : result bytes :=
  ss <- mapM (toWasm_Statement cur) stmts ;;
  Ok (map Arr ss).

(** The [FunctionDecl] action: the scope the table holds under the
    function's name is pushed for the body.  Every declared function has an
    entry in a table built from the same module ([buildSymbolTable_get]
    below), which is what the source's non-null assertion relies on.  On an
    absent entry the source pushes [undefined] and fails, with a
    [TypeError], only where the body resolves an identifier, while the
    model fails at once: the model is exact on the tables that hold the
    entry, the only ones [compile] builds. *)
Definition toWasm_FunctionDecl (d : FunctionDeclNode) : result bytes :=
  match JSMap.get symbols (fd_ident d) with
  | None => Err TypeError
  | Some cur =>
      b <- toWasm_BlockExpr cur (fd_body d) ;;
      Ok [Arr b; Num instr.end_]
  end.
End defineToWasm.

(** ** Function records and the module builder ([chapter05.ts]) *)

Record FunctionDecl : Type := mkFunctionDecl {
  fn_name : string;
  paramTypes : list Z;
  resultType : Z;
  fn_locals : bytes;
  body : bytes
}.

(** [functionDecls.map((f, i) => g(f, i))] *)
Fixpoint mapi_from {A B : Type} (g : A -> Z -> result B) (l : list A) (i : Z)
  : result (list B) :=
  match l with
  | [] => Ok []
  | a :: l' => b <- g a i ;; bs <- mapi_from g l' (i + 1) ;; Ok (b :: bs)
  end.

Definition mapi {A B : Type} (g : A -> Z -> result B) (l : list A)
  : result (list B) := mapi_from g l 0.

Definition buildModule (functionDecls : list FunctionDecl)
  : result (list Z) :=
  types <- mapM (fun f => functype (map Num (paramTypes f))
                                   [Num (resultType f)]) functionDecls ;;
  funcs <- mapi (fun f i => typeidx i) functionDecls ;;
  codes <- mapM (fun f => fn <- func (fn_locals f) (body f) ;; code fn)
                functionDecls ;;
  exports <- mapi (fun f i => d <- exportdesc_func i ;; export_ (fn_name f) d)
                  functionDecls ;;
  t <- typesec (map Arr types) ;;
  f <- funcsec (map Arr funcs) ;;
  e <- exportsec (map Arr exports) ;;
  c <- codesec (map Arr codes) ;;
  let mod_ := module [Arr t; Arr f; Arr e; Arr c] in
  Ok (Uint8Array_from (flatten mod_)).

(** ** [defineFunctionDecls] and [compile] ([chapter05.ts], [chapter06.ts]) *)

(** [localVars.filter((info) => info.what === "local").length] *)
Definition countLocals (localVars : list Symbol) : Z :=
  len (filter (fun info => kind_eqb (what info) local) localVars).

Definition functionDecls_FunctionDecl (symbols : Scope) (d : FunctionDeclNode)
  : result FunctionDecl :=
  let name := fd_ident d in
  match JSMap.get symbols name with
  | None => Err TypeError
  | Some sc =>
      let localVars := JSMap.values sc in
      let params := filter (fun info => kind_eqb (what info) param) localVars in
      let paramTypes := map (fun _ => valtype.i32) params in
      let varsCount := countLocals localVars in
      l <- locals varsCount valtype.i32 ;;
      b <- toWasm_FunctionDecl symbols d ;;
      Ok (mkFunctionDecl name paramTypes valtype.i32 [Arr l] b)
  end.

Definition functionDecls (symbols : Scope) (m : ModuleNode)
  : result (list FunctionDecl) :=
  mapM (functionDecls_FunctionDecl symbols) m.

(** [compile], after its parse step: what it does with the tree of a source
    that matches the grammar.  The parse step is added in [compileSource]
    below. *)
Definition compile (m : ModuleNode) : result (list Z) :=
  let symbols := buildSymbolTable m in
  decls <- functionDecls symbols m ;;
  buildModule decls.

(** * Vocabulary of the properties *)

(** The keys of the module scope: the function names, each at the position
    of its first declaration among the distinct names. *)
Fixpoint distinctNames (seen : list string) (names : list string)
  : list string :=
  match names with
  | [] => seen
  | n :: names' =>
      distinctNames (if existsb (String.eqb n) seen then seen else seen ++ [n])
                    names'
  end.

(** The opcode of each operator token. *)
Definition opcode (o : binaryOp) : Z :=
  match o with
  | op_add => instr.i32_add
  | op_sub => instr.i32_sub
  | op_eq => instr.i32_eq
  | op_ne => instr.i32_ne
  | op_le => instr.i32_le_s
  | op_lt => instr.i32_lt_s
  | op_ge => instr.i32_ge_s
  | op_gt => instr.i32_gt_s
  | op_and => instr.i32_and
  | op_or => instr.i32_or
  end.

(** The plain identifier references of a tree, in source order: variable
    reads, assignment targets and let targets.  The name of a callee is not
    one of them. *)
Fixpoint refs_Expr (e : Expr) : list string :=
  match e with
  | AssignmentExpr ident expr => ident :: refs_Expr expr
  | Expr_binary num rest =>
      refs_PrimaryExpr num ++ flat_map (fun r => refs_PrimaryExpr (snd r)) rest
  end
with refs_PrimaryExpr (e : PrimaryExpr) : list string :=
  match e with
  | PrimaryExpr_num _ => []
  | CallExpr _ args => flat_map refs_Expr args
  | PrimaryExpr_var ident => [ident]
  | PrimaryExpr_if e' => refs_IfExpr e'
  end
with refs_IfExpr (e : IfExpr) : list string :=
  match e with
  | IfExpr_else cond thenBlock elseBlock =>
      refs_Expr cond ++ refs_BlockExpr thenBlock ++ refs_BlockExpr elseBlock
  | IfExpr_elif cond thenBlock elseIf =>
      refs_Expr cond ++ refs_BlockExpr thenBlock ++ refs_IfExpr elseIf
  end
with refs_BlockExpr (b : BlockExpr) : list string :=
  match b with
  | BlockExpr_ stmts expr => flat_map refs_Statement stmts ++ refs_Expr expr
  end
with refs_Statement (s : Statement) : list string :=
  match s with
  | LetStatement ident expr => ident :: refs_Expr expr
  | Statement_if s' => refs_IfStatement s'
  | WhileStatement cond body => refs_Expr cond ++ flat_map refs_Statement body
  | ExprStatement expr => refs_Expr expr
  end
with refs_IfStatement (s : IfStatement) : list string :=
  match s with
  | IfStatement_then cond thenBlock =>
      refs_Expr cond ++ flat_map refs_Statement thenBlock
  | IfStatement_else cond thenBlock elseBlock =>
      refs_Expr cond ++ flat_map refs_Statement thenBlock
      ++ flat_map refs_Statement elseBlock
  | IfStatement_elif cond thenBlock elseIf =>
      refs_Expr cond ++ flat_map refs_Statement thenBlock
      ++ refs_IfStatement elseIf
  end.


(** The names of the let statements of a tree, in source order. *)
Fixpoint lets_Expr (e : Expr) : list string :=
  match e with
  | AssignmentExpr _ expr => lets_Expr expr
  | Expr_binary num rest =>
      lets_PrimaryExpr num ++ flat_map (fun r => lets_PrimaryExpr (snd r)) rest
  end
with lets_PrimaryExpr (e : PrimaryExpr) : list string :=
  match e with
  | PrimaryExpr_num _ => []
  | CallExpr _ args => flat_map lets_Expr args
  | PrimaryExpr_var _ => []
  | PrimaryExpr_if e' => lets_IfExpr e'
  end
with lets_IfExpr (e : IfExpr) : list string :=
  match e with
  | IfExpr_else cond thenBlock elseBlock =>
      lets_Expr cond ++ lets_BlockExpr thenBlock ++ lets_BlockExpr elseBlock
  | IfExpr_elif cond thenBlock elseIf =>
      lets_Expr cond ++ lets_BlockExpr thenBlock ++ lets_IfExpr elseIf
  end
with lets_BlockExpr (b : BlockExpr) : list string :=
  match b with
  | BlockExpr_ stmts expr => flat_map lets_Statement stmts ++ lets_Expr expr
  end
with lets_Statement (s : Statement) : list string :=
  match s with
  | LetStatement ident expr => ident :: lets_Expr expr
  | Statement_if s' => lets_IfStatement s'
  | WhileStatement cond body => lets_Expr cond ++ flat_map lets_Statement body
  | ExprStatement expr => lets_Expr expr
  end
with lets_IfStatement (s : IfStatement) : list string :=
  match s with
  | IfStatement_then cond thenBlock =>
      lets_Expr cond ++ flat_map lets_Statement thenBlock
  | IfStatement_else cond thenBlock elseBlock =>
      lets_Expr cond ++ flat_map lets_Statement thenBlock
      ++ flat_map lets_Statement elseBlock
  | IfStatement_elif cond thenBlock elseIf =>
      lets_Expr cond ++ flat_map lets_Statement thenBlock
      ++ lets_IfStatement elseIf
  end.

(** The let statements the walk of [buildSymbolTable] reaches: all of them
    but those inside the initialiser of a let statement, which the
    [LetStatement] action does not walk. *)
Fixpoint walked_Expr (e : Expr) : list string :=
  match e with
  | AssignmentExpr _ expr => walked_Expr expr
  | Expr_binary num rest =>
      walked_PrimaryExpr num
      ++ flat_map (fun r => walked_PrimaryExpr (snd r)) rest
  end
with walked_PrimaryExpr (e : PrimaryExpr) : list string :=
  match e with
  | PrimaryExpr_num _ => []
  | CallExpr _ args => flat_map walked_Expr args
  | PrimaryExpr_var _ => []
  | PrimaryExpr_if e' => walked_IfExpr e'
  end
with walked_IfExpr (e : IfExpr) : list string :=
  match e with
  | IfExpr_else cond thenBlock elseBlock =>
      walked_Expr cond ++ walked_BlockExpr thenBlock
      ++ walked_BlockExpr elseBlock
  | IfExpr_elif cond thenBlock elseIf =>
      walked_Expr cond ++ walked_BlockExpr thenBlock ++ walked_IfExpr elseIf
  end
with walked_BlockExpr (b : BlockExpr) : list string :=
  match b with
  | BlockExpr_ stmts expr =>
      flat_map walked_Statement stmts ++ walked_Expr expr
  end
with walked_Statement (s : Statement) : list string :=
  match s with
  | LetStatement ident _ => [ident]
  | Statement_if s' => walked_IfStatement s'
  | WhileStatement cond body =>
      walked_Expr cond ++ flat_map walked_Statement body
  | ExprStatement expr => walked_Expr expr
  end
with walked_IfStatement (s : IfStatement) : list string :=
  match s with
  | IfStatement_then cond thenBlock =>
      walked_Expr cond ++ flat_map walked_Statement thenBlock
  | IfStatement_else cond thenBlock elseBlock =>
      walked_Expr cond ++ flat_map walked_Statement thenBlock
      ++ flat_map walked_Statement elseBlock
  | IfStatement_elif cond thenBlock elseIf =>
      walked_Expr cond ++ flat_map walked_Statement thenBlock
      ++ walked_IfStatement elseIf
  end.

(** Entries with consecutive indices from [base]. *)
Fixpoint numbered (w : kind) (base : Z) (names : list string) : FunScope :=
  match names with
  | [] => []
  | n :: names' => (n, mkSymbol n base w) :: numbered w (base + 1) names'
  end.

(** The scopes the builder can reach: declarations, of either kind, made
    one after the other from the empty map. *)
Definition declareAll (ds : list (kind * string)) : FunScope :=
  fold_left (fun sc d => declare (fst d) sc (snd d)) ds JSMap.empty.

(** The indices of a scope are 0, ..., k - 1 for some k. *)
Definition contiguous (sc : FunScope) : Prop :=
  exists k, forall j, In j (map idx (JSMap.values sc)) <-> 0 <= j < k.

(** An index below the size of the scope is assigned to no symbol, while a
    higher index is. *)
Definition has_hole (sc : FunScope) : Prop :=
  exists h, 0 <= h < JSMap.size sc
            /\ ~ In h (map idx (JSMap.values sc))
            /\ exists s, In s (JSMap.values sc) /\ h < idx s.

(** The highest index of a scope, -1 when it is empty. *)
Definition maxIdx (sc : FunScope) : Z :=
  fold_right Z.max (-1) (map idx (JSMap.values sc)).

(** The number a single byte denotes as a complete LEB128 number: a byte is
    complete when its high bit is clear; as an unsigned number it denotes
    its own value, as a signed number its low 7 bits sign-extended. *)
Definition uleb_byte (b : Z) : option Z :=
  if (0 <=? b) && (b <? 128) then Some b else None.

Definition sleb_byte (b : Z) : option Z :=
  if (0 <=? b) && (b <? 128) then Some (if b <? 64 then b else b - 128)
  else None.


(** [\0asm] and version 1, little-endian. *)
Definition header : list Z := [0x00; 0x61; 0x73; 0x6d; 0x01; 0x00; 0x00; 0x00].

(** A section as it is laid out: id, byte length of the contents,
    contents. *)
Definition framed (id : Z) (contents : list Z) : list Z :=
  id :: len contents :: contents.

(** The export entries of the functions numbered from [i]: the name as a
    vector of bytes, the tag 0 of a function export, and the index. *)
Fixpoint exportEntries (i : Z) (decls : list FunctionDecl) : list Z :=
  match decls with
  | [] => []
  | f :: decls' =>
      let nm := flatten (stringToBytes (fn_name f)) in
      (len nm :: nm) ++ [0x00; i] ++ exportEntries (i + 1) decls'
  end.

(** The only error the module builder raises is that of the encoders. *)
Definition raises_only_NotImplemented {A : Type} (r : result A) : Prop :=
  forall e, r = Err e -> e = NotImplemented.

(** ** Programs used as examples *)

(** [func doIt() { add(1, 2) }] and [func add(x, y) { x + y }], the module
    of the test of [compile] in [chapter05.ts]. *)
Definition test_doIt : FunctionDeclNode :=
  mkFunctionDeclNode "doIt" []
    (BlockExpr_ []
       (Expr_binary
          (CallExpr "add" [Expr_binary (PrimaryExpr_num 1) [];
                           Expr_binary (PrimaryExpr_num 2) []]) [])).

Definition test_add : FunctionDeclNode :=
  mkFunctionDeclNode "add" ["x"; "y"]
    (BlockExpr_ []
       (Expr_binary (PrimaryExpr_var "x") [(op_add, PrimaryExpr_var "y")])).

Definition test_doIt_add : ModuleNode := [test_doIt; test_add].

(** [func countTo(n) { let x = 0; while x < n { x := x + 1; } x }], from
    the tests of [chapter06.ts]. *)
Definition test_while : Statement :=
  WhileStatement
    (Expr_binary (PrimaryExpr_var "x") [(op_lt, PrimaryExpr_var "n")])
    [ExprStatement
       (AssignmentExpr "x"
          (Expr_binary (PrimaryExpr_var "x") [(op_add, PrimaryExpr_num 1)]))].

Definition test_countTo : FunctionDeclNode :=
  mkFunctionDeclNode "countTo" ["n"]
    (BlockExpr_
       [LetStatement "x" (Expr_binary (PrimaryExpr_num 0) []); test_while]
       (Expr_binary (PrimaryExpr_var "x") [])).

Definition fn_const (nm : string) (v : N) : FunctionDeclNode :=
  mkFunctionDeclNode nm [] (BlockExpr_ [] (Expr_binary (PrimaryExpr_num v) [])).

Definition fn_call (nm callee : string) : FunctionDeclNode :=
  mkFunctionDeclNode nm []
    (BlockExpr_ [] (Expr_binary (CallExpr callee []) [])).

Definition fn_var (nm x : string) : FunctionDeclNode :=
  mkFunctionDeclNode nm [] (BlockExpr_ [] (Expr_binary (PrimaryExpr_var x) [])).

(** [func f() { let x = if 1 { let y = 2; y } else { 3 }; x }] *)
Definition let_in_initialiser : FunctionDeclNode :=
  mkFunctionDeclNode "f" []
    (BlockExpr_
       [LetStatement "x"
          (Expr_binary
             (PrimaryExpr_if
                (IfExpr_else
                   (Expr_binary (PrimaryExpr_num 1) [])
                   (BlockExpr_
                      [LetStatement "y" (Expr_binary (PrimaryExpr_num 2) [])]
                      (Expr_binary (PrimaryExpr_var "y") []))
                   (BlockExpr_ [] (Expr_binary (PrimaryExpr_num 3) []))))
             [])]
       (Expr_binary (PrimaryExpr_var "x") [])).

(** The two records of the test of [buildModule] in [chapter05.ts]. *)
Definition test_functionDecls : list FunctionDecl :=
  [ mkFunctionDecl "main" [] valtype.i32 [Arr [Arr [Num 1]; Num valtype.i32]]
      [Num instr.i32_const; Arr [Num 42]; Num instr.call; Arr [Num 1];
       Num instr.end_];
    mkFunctionDecl "backup" [valtype.i32] valtype.i32 []
      [Num instr.i32_const; Arr [Num 43]; Num instr.end_] ].

(** One function whose encoded body takes 129 bytes: [code] raises, and so
    does [buildModule]. *)
Definition long_functionDecls : list FunctionDecl :=
  [ mkFunctionDecl "f" [] valtype.i32 []
      (map Num (repeat 0x01 125 ++ [instr.i32_const; 0; instr.end_])) ].

(** [toWasmFlat] of [chapter05.ts]: the table and the code of one function
    declaration, flattened. *)
Definition toWasmFlat (d : FunctionDeclNode) : result (list Z) :=
  let symbols := buildSymbolTable [d] in
  b <- toWasm_FunctionDecl symbols d ;;
  Ok (flatten b).

(** * The parse step of [compile]

    [compile(source)] first matches the source against the grammar and
    throws the parser's message when the match fails.  The parser that Ohm
    generates from a grammar is an external collaborator: it is the
    parameter [wafer_match] of the functions that start from the source
    text.  The grammars differ from chapter to chapter; that of
    [chapter06.ts] reserves the words [if], [else], [func], [let], [and],
    [or] and [while], which the earlier ones accept as identifiers. *)

Inductive MatchResult (T : Type) : Type :=
  | succeeded (tree : T)
  | failed (message : string).

Arguments succeeded {T} tree.
Arguments failed {T} message.

(** What [compile] throws: [new Error(matchResult.message)], or an error of
    the later steps. *)
Inductive thrown : Type :=
  | SyntaxError (message : string)
  | CompileError (e : error).

Inductive outcome : Type :=
  | Returned (out : list Z)
  | Threw (t : thrown).

Definition afterMatch (r : result (list Z)) : outcome :=
  match r with
  | Ok out => Returned out
  | Err e => Threw (CompileError e)
  end.

(** [compile] of [chapter06.ts], from the source text; [compile] above is
    what it does with the tree of a source that matches. *)
Definition compileSource (wafer_match : string -> MatchResult ModuleNode)
           (source : string) : outcome :=
  match wafer_match source with
  | failed message => Threw (SyntaxError message)
  | succeeded tree => afterMatch (compile tree)
  end.

(** The words the grammar of [chapter06.ts] reserves:
    [keyword = if | else | func | let | and | or | while]. *)
Definition keyword : list string :=
  ["if"; "else"; "func"; "let"; "and"; "or"; "while"].

Definition isKeyword (x : string) : bool := existsb (String.eqb x) keyword.

(** [identifier = ~keyword identStart identPart*]: no tree that the parser
    of [chapter06.ts] returns has a reserved word as the name of a
    variable.  A property of the parser, assumed where it is used. *)
Definition reservesKeywords
           (wafer_match : string -> MatchResult ModuleNode) : Prop :=
  forall source m,
    wafer_match source = succeeded m ->
    forall d x, In d m -> In x (refs_BlockExpr (fd_body d)) ->
                isKeyword x = false.

(** * The earlier stages of the compiler

    [chapter02.ts], [chapter03.ts], [chapter04.ts] and [chapter05.ts]
    compile the smaller languages the last one grew from, with the same
    assembler. *)

Module Chapter02.

(** [Main = number]: the tree is the value of the number. *)
Definition toWasm_number (value : N) : result bytes :=
  c <- i32 (Z.of_N value) ;;
  Ok [Num instr.i32_const; Arr c].

Definition toWasm_Main (num : N) : result bytes :=
  c <- toWasm_number num ;;
  Ok [Arr c; Num instr.end_].

Definition compile (source : N) : result (list Z) :=
  ft <- functype [] [Num valtype.i32] ;;
  t <- typesec [Arr ft] ;;
  ti <- typeidx 0 ;;
  f <- funcsec [Arr ti] ;;
  d <- exportdesc_func 0 ;;
  ex <- export_ "main" d ;;
  e <- exportsec [Arr ex] ;;
  body <- toWasm_Main source ;;
  fn <- func [] body ;;
  cd <- code fn ;;
  c <- codesec [Arr cd] ;;
  let mod_ := module [Arr t; Arr f; Arr e; Arr c] in
  Ok (Uint8Array_from (flatten mod_)).

End Chapter02.

Module Chapter03.

(** [op = "+" | "-"] *)
Inductive op : Type := plus | minus.

Definition sourceString (o : op) : string :=
  match o with plus => "+" | minus => "-" end.

(** [Expr = number (op number)*] *)
Record Expr : Type := mkExpr {
  num : N;
  rest : list (op * N)
}.

Definition toWasm_number (value : N) : result bytes :=
  c <- i32 (Z.of_N value) ;;
  Ok [Num instr.i32_const; Arr c].

(** [[char.sourceString === "+" ? instr.i32.add : instr.i32.sub]] *)
Definition toWasm_op (char : op) : bytes :=
  [Num (if String.eqb (sourceString char) "+"
        then instr.i32_add else instr.i32_sub)].

Fixpoint Expr_loop (rest : list (op * N)) (acc : bytes) : result bytes :=
  match rest with
  | [] => Ok acc
  | r :: rest' =>
      a <- toWasm_number (snd r) ;;
      let o := toWasm_op (fst r) in
      Expr_loop rest' (acc ++ [Arr a; Arr o])
  end.

Definition toWasm_Expr (e : Expr) : result bytes :=
  c <- toWasm_number (num e) ;;
  Expr_loop (rest e) [Arr c].

Definition toWasm_Main (expr : Expr) : result bytes :=
  c <- toWasm_Expr expr ;;
  Ok [Arr c; Num instr.end_].

Definition toWasmFlat (input : Expr) : result (list Z) :=
  b <- toWasm_Main input ;;
  Ok (flatten b).

End Chapter03.

Module Chapter04.

(** The grammar of [chapter04.ts]:
<<
    Main = Statement* Expr
    Statement = LetStatement | ExprStatement
    LetStatement = "let" identifier "=" Expr ";"
    ExprStatement = Expr ";"
    Expr = AssignmentExpr -- assignment
         | PrimaryExpr (op PrimaryExpr)* -- arithmetic
    AssignmentExpr = identifier ":=" Expr
    PrimaryExpr = number -- num
                | identifier -- var
>>
*)
Inductive PrimaryExpr : Type :=
  | PrimaryExpr_num (value : N)
  | PrimaryExpr_var (ident : string).

Inductive Expr : Type :=
  | AssignmentExpr (ident : string) (expr : Expr)
  | Expr_arithmetic (num : PrimaryExpr)
                    (rest : list (Chapter03.op * PrimaryExpr)).

Inductive Statement : Type :=
  | LetStatement (ident : string) (expr : Expr)
  | ExprStatement (expr : Expr).

Record Main : Type := mkMain {
  statements : list Statement;
  expr : Expr
}.

(** [buildSymbolTable]: the [LetStatement] action on the map stored under
    ["main"]; no other node of this grammar has a let statement below it,
    so the default walk of an expression statement changes nothing. *)
Definition bst_Statement (s : Statement) (main : FunScope) : FunScope :=
  match s with
  | LetStatement id _ => declare local main id
  | ExprStatement _ => main
  end.

Definition mainScope (m : Main) : FunScope :=
  fold_left (fun sc s => bst_Statement s sc) (statements m) JSMap.empty.

(** The map stored under ["main"] at the start is the object the walk
    fills. *)
Definition buildSymbolTable (m : Main) : Scope :=
  let symbols := JSMap.set JSMap.empty "main" JSMap.empty in
  JSMap.set symbols "main" (mainScope m).

(** [defineToWasm] *)
Definition toWasm_number (value : N) : result bytes :=
  c <- i32 (Z.of_N value) ;;
  Ok (Num instr.i32_const :: c).

Definition toWasm_op (char : Chapter03.op) : bytes :=
  [Num (if String.eqb (Chapter03.sourceString char) "+"
        then instr.i32_add else instr.i32_sub)].

Definition toWasm_PrimaryExpr (localVars : FunScope) (e : PrimaryExpr)
  : result bytes :=
  match e with
  | PrimaryExpr_num value => toWasm_number value
  | PrimaryExpr_var ident =>
      info <- resolveSymbol ident localVars ;;
      i <- localidx (idx info) ;;
      Ok [Num instr.local_get; Arr i]
  end.

Fixpoint Expr_arithmetic_loop (localVars : FunScope)
         (rest : list (Chapter03.op * PrimaryExpr)) (acc : bytes)
  : result bytes :=
  match rest with
  | [] => Ok acc
  | r :: rest' =>
      a <- toWasm_PrimaryExpr localVars (snd r) ;;
      let o := toWasm_op (fst r) in
      Expr_arithmetic_loop localVars rest' (acc ++ [Arr a; Arr o])
  end.

Fixpoint toWasm_Expr (localVars : FunScope) (e : Expr) : result bytes :=
  match e with
  | AssignmentExpr ident expr =>
      info <- resolveSymbol ident localVars ;;
      c <- toWasm_Expr localVars expr ;;
      i <- localidx (idx info) ;;
      Ok [Arr c; Num instr.local_tee; Arr i]
  | Expr_arithmetic num rest =>
      c <- toWasm_PrimaryExpr localVars num ;;
      Expr_arithmetic_loop localVars rest [Arr c]
  end.

Definition toWasm_Statement (localVars : FunScope) (s : Statement)
  : result bytes :=
  match s with
  | LetStatement ident expr =>
      info <- resolveSymbol ident localVars ;;
      c <- toWasm_Expr localVars expr ;;
      i <- localidx (idx info) ;;
      Ok [Arr c; Num instr.local_set; Arr i]
  | ExprStatement expr =>
      c <- toWasm_Expr localVars expr ;;
      Ok [Arr c; Num instr.drop]
  end.

Definition toWasm_Main (localVars : FunScope) (m : Main) : result bytes :=
  ss <- mapM (toWasm_Statement localVars) (statements m) ;;
  c <- toWasm_Expr localVars (expr m) ;;
  Ok [Arr (map Arr ss); Arr c; Num instr.end_].

Definition toWasmFlat (input : Main) : result (list Z) :=
  let symbols := buildSymbolTable input in
  match JSMap.get symbols "main" with
  | None => Err TypeError
  | Some localVars =>
      b <- toWasm_Main localVars input ;;
      Ok (flatten b)
  end.

(** [compile], after its parse step: [source] is the tree of a source that
    matches the grammar. *)
Definition compile (source : Main) : result (list Z) :=
  let symbols := buildSymbolTable source in
  match JSMap.get symbols "main" with
  | None => Err TypeError
  | Some localVars =>
      l <- locals (JSMap.size localVars) valtype.i32 ;;
      body <- toWasm_Main localVars source ;;
      mainFn <- func [Arr l] body ;;
      ft <- functype [] [Num valtype.i32] ;;
      t <- typesec [Arr ft] ;;
      ti <- typeidx 0 ;;
      f <- funcsec [Arr ti] ;;
      d <- exportdesc_func 0 ;;
      ex <- export_ "main" d ;;
      e <- exportsec [Arr ex] ;;
      cd <- code mainFn ;;
      c <- codesec [Arr cd] ;;
      let mod_ := module [Arr t; Arr f; Arr e; Arr c] in
      Ok (Uint8Array_from (flatten mod_))
  end.

(** [compile], from the source text. *)
Definition compileSource (wafer_match : string -> MatchResult Main)
           (source : string) : outcome :=
  match wafer_match source with
  | failed message => Threw (SyntaxError message)
  | succeeded tree => afterMatch (compile tree)
  end.

End Chapter04.

Module Chapter05.

(** The grammar of [chapter05.ts]:
<<
    Module = FunctionDecl*
    Statement = LetStatement | ExprStatement
    LetStatement = "let" identifier "=" Expr ";"
    FunctionDecl = "func" identifier "(" Params? ")" BlockExpr
    Params = identifier ("," identifier)*
    BlockExpr = "{" Statement* Expr "}"
    ExprStatement = Expr ";"
    Expr = AssignmentExpr  -- assignment
         | PrimaryExpr (op PrimaryExpr)*  -- arithmetic
    AssignmentExpr = identifier ":=" Expr
    PrimaryExpr = number  -- num
                | CallExpr
                | identifier  -- var
    CallExpr = identifier "(" Args? ")"
    Args = Expr ("," Expr)*
>>
*)
Inductive Expr : Type :=
  | AssignmentExpr (ident : string) (expr : Expr)
  | Expr_arithmetic (num : PrimaryExpr)
                    (rest : list (Chapter03.op * PrimaryExpr))
with PrimaryExpr : Type :=
  | PrimaryExpr_num (value : N)
  | CallExpr (ident : string) (args : list Expr)
  | PrimaryExpr_var (ident : string).

Scheme Expr5_mind := Induction for Expr Sort Prop
  with PrimaryExpr5_mind := Induction for PrimaryExpr Sort Prop.

Combined Scheme syntax5_mutind from Expr5_mind, PrimaryExpr5_mind.

Inductive Statement : Type :=
  | LetStatement (ident : string) (expr : Expr)
  | ExprStatement (expr : Expr).

Record BlockExpr : Type := mkBlockExpr {
  statements : list Statement;
  expr : Expr
}.

Record FunctionDeclNode : Type := mkFunctionDeclNode {
  fd_ident : string;
  fd_params : list string;
  fd_body : BlockExpr
}.

Definition ModuleNode : Type := list FunctionDeclNode.

(** [buildSymbolTable] on the trees of this grammar: the statements of a
    function are those of its block, and no expression has a statement
    below it, so the default walk of an expression changes nothing. *)
Definition bst_Statement (s : Statement) (sc : FunScope) : FunScope :=
  match s with
  | LetStatement id _ => declare local sc id
  | ExprStatement _ => sc
  end.

Definition bst_BlockExpr (b : BlockExpr) (sc : FunScope) : FunScope :=
  fold_left (fun sc' s => bst_Statement s sc') (statements b) sc.

Definition functionScope (d : FunctionDeclNode) : FunScope :=
  bst_BlockExpr (fd_body d) (bst_Params (fd_params d) JSMap.empty).

Definition bst_FunctionDecl (top : Scope) (d : FunctionDeclNode) : Scope :=
  let name := fd_ident d in
  let top' := JSMap.set top name JSMap.empty in
  let locals := functionScope d in
  JSMap.set top' name locals.

Definition buildSymbolTable (m : ModuleNode) : Scope :=
  fold_left bst_FunctionDecl m JSMap.empty.

(** [defineToWasm] of [chapter05.ts] *)
Definition toWasm_op (char : Chapter03.op) : bytes :=
  [Num (if String.eqb (Chapter03.sourceString char) "+"
        then instr.i32_add else instr.i32_sub)].

Definition Expr_arithmetic_loop (operandToWasm : PrimaryExpr -> result bytes)
  : list (Chapter03.op * PrimaryExpr) -> bytes -> result bytes :=
  fix loop (rest : list (Chapter03.op * PrimaryExpr)) (acc : bytes)
    : result bytes :=
    match rest with
    | [] => Ok acc
    | r :: rest' =>
        a <- operandToWasm (snd r) ;;
        let o := toWasm_op (fst r) in
        loop rest' (acc ++ [Arr a; Arr o])
    end.

Definition toWasm_optArgs (exprToWasm : Expr -> result bytes)
           (args : list Expr) : result bytes :=
  match args with
  | [] => Ok []
  | _ => cs <- mapM exprToWasm args ;; Ok [Arr (map Arr cs)]
  end.

Section defineToWasm.
Variable symbols : Scope.

Fixpoint toWasm_Expr (cur : FunScope) (e : Expr) {struct e}
  : result bytes :=
  match e with
  | AssignmentExpr ident expr =>
      info <- resolveSymbol ident cur ;;
      c <- toWasm_Expr cur expr ;;
      i <- localidx (idx info) ;;
      Ok [Arr c; Num instr.local_tee; Arr i]
  | Expr_arithmetic num rest =>
      c <- toWasm_PrimaryExpr cur num ;;
      Expr_arithmetic_loop (toWasm_PrimaryExpr cur) rest [Arr c]
  end
with toWasm_PrimaryExpr (cur : FunScope) (e : PrimaryExpr) {struct e}
  : result bytes :=
  match e with
  | PrimaryExpr_num value =>
      c <- i32 (Z.of_N value) ;;
      Ok (Num instr.i32_const :: c)
  | CallExpr ident args =>
      let funcNames := JSMap.keys symbols in
      let idx := indexOf funcNames ident in
      a <- toWasm_optArgs (toWasm_Expr cur) args ;;
      i <- funcidx idx ;;
      Ok [Arr a; Arr [Num instr.call; Arr i]]
  | PrimaryExpr_var ident =>
      info <- resolveSymbol ident cur ;;
      i <- localidx (idx info) ;;
      Ok [Num instr.local_get; Arr i]
  end.

Definition toWasm_Statement (cur : FunScope) (s : Statement)
  : result bytes :=
  match s with
  | LetStatement ident expr =>
      info <- resolveSymbol ident cur ;;
      c <- toWasm_Expr cur expr ;;
      i <- localidx (idx info) ;;
      Ok [Arr c; Num instr.local_set; Arr i]
  | ExprStatement expr =>
      c <- toWasm_Expr cur expr ;;
      Ok [Arr c; Num instr.drop]
  end.

Definition toWasm_BlockExpr (cur : FunScope) (b : BlockExpr)
  : result bytes :=
  ss <- mapM (toWasm_Statement cur) (statements b) ;;
  c <- toWasm_Expr cur (expr b) ;;
  Ok (map Arr ss ++ [Arr c]).

(** As in [chapter06.ts]: the scope the table holds under the function's
    name is pushed; on an absent entry the source pushes [undefined] and
    fails only where the body resolves an identifier, while the model fails
    at once.  The tables that [compile] builds hold the entry. *)
Definition toWasm_FunctionDecl (d : FunctionDeclNode) : result bytes :=
  match JSMap.get symbols (fd_ident d) with
  | None => Err TypeError
  | Some cur =>
      b <- toWasm_BlockExpr cur (fd_body d) ;;
      Ok [Arr b; Num instr.end_]
  end.
End defineToWasm.

Definition toWasmFlat (d : FunctionDeclNode) : result (list Z) :=
  let symbols := buildSymbolTable [d] in
  b <- toWasm_FunctionDecl symbols d ;;
  Ok (flatten b).

(** [defineFunctionDecls] and [compile] *)
Definition functionDecls_FunctionDecl (symbols : Scope) (d : FunctionDeclNode)
  : result FunctionDecl :=
  let name := fd_ident d in
  match JSMap.get symbols name with
  | None => Err TypeError
  | Some sc =>
      let localVars := JSMap.values sc in
      let params := filter (fun info => kind_eqb (what info) param) localVars in
      let paramTypes := map (fun _ => valtype.i32) params in
      let varsCount := countLocals localVars in
      l <- locals varsCount valtype.i32 ;;
      b <- toWasm_FunctionDecl symbols d ;;
      Ok (mkFunctionDecl name paramTypes valtype.i32 [Arr l] b)
  end.

Definition functionDecls (symbols : Scope) (m : ModuleNode)
  : result (list FunctionDecl) :=
  mapM (functionDecls_FunctionDecl symbols) m.

(** [compile], after its parse step. *)
Definition compile (m : ModuleNode) : result (list Z) :=
  let symbols := buildSymbolTable m in
  decls <- functionDecls symbols m ;;
  buildModule decls.

(** [compile], from the source text. *)
Definition compileSource (wafer_match : string -> MatchResult ModuleNode)
           (source : string) : outcome :=
  match wafer_match source with
  | failed message => Threw (SyntaxError message)
  | succeeded tree => afterMatch (compile tree)
  end.

End Chapter05.

(** * Vocabulary of the further properties *)

(** The result of a computation that returned, seen through [f]. *)
Definition result_map {A B : Type} (f : A -> B) (r : result A) : result B :=
  match r with
  | Ok a => Ok (f a)
  | Err e => Err e
  end.

(** The number a sequence of bytes denotes, least significant byte first. *)
Definition le_value (bs : list Z) : Z :=
  fold_right (fun b acc => b + 256 * acc) 0 bs.

(** The entries of the sections [buildModule] writes: a function type is
    the tag 0x60, the parameter types as a vector and the one result type
    as a vector; a function's code is the vector of its local groups
    followed by its body, behind the byte length of both. *)
Definition typeEntry (f : FunctionDecl) : list Z :=
  [0x60; len (paramTypes f)] ++ paramTypes f ++ [1; resultType f].

Definition funcBytes (f : FunctionDecl) : list Z :=
  len (fn_locals f) :: flatten (fn_locals f) ++ flatten (body f).

Definition codeEntry (f : FunctionDecl) : list Z :=
  len (funcBytes f) :: funcBytes f.

(** The numbers of a module before they are stored as bytes. *)
Definition moduleBytes (decls : list FunctionDecl) : list Z :=
  let n := len decls in
  header
  ++ framed 1 (n :: flat_map typeEntry decls)
  ++ framed 3 (n :: map Z.of_nat (seq 0 (List.length decls)))
  ++ framed 7 (n :: exportEntries 0 decls)
  ++ framed 10 (n :: flat_map codeEntry decls).

(** Every count and every byte length of the module is at most 127. *)
Definition fitsFunction (f : FunctionDecl) : bool :=
  (len (paramTypes f) <=? 127)
  && (len (fn_locals f) <=? 127)
  && (len (funcBytes f) <=? 127)
  && (len (flatten (stringToBytes (fn_name f))) <=? 127).

Definition fits (decls : list FunctionDecl) : bool :=
  forallb fitsFunction decls
  && (1 + len (flat_map typeEntry decls) <=? 127)
  && (1 + len decls <=? 127)
  && (1 + len (exportEntries 0 decls) <=? 127)
  && (1 + len (flat_map codeEntry decls) <=? 127).

(** What [buildModule] reads of a function record. *)
Definition flatRecord (f : FunctionDecl)
  : string * list Z * Z * Z * list Z * list Z :=
  (fn_name f, paramTypes f, resultType f, len (fn_locals f),
   flatten (fn_locals f), flatten (body f)).

(** Two function records with the same name and types, the same number
    of elements in the outermost array of the locals, and the same numbers
    in the same order in the locals and in the body: they differ at most
    in how the locals are nested below their outermost array, and in how
    the body is nested. *)
Definition sameFlat (f g : FunctionDecl) : Prop :=
  fn_name f = fn_name g
  /\ paramTypes f = paramTypes g
  /\ resultType f = resultType g
  /\ len (fn_locals f) = len (fn_locals g)
  /\ flatten (fn_locals f) = flatten (fn_locals g)
  /\ flatten (body f) = flatten (body g).

(** The number literals of a tree, in source order. *)
Fixpoint nums_Expr (e : Expr) : list N :=
  match e with
  | AssignmentExpr _ expr => nums_Expr expr
  | Expr_binary num rest =>
      nums_PrimaryExpr num ++ flat_map (fun r => nums_PrimaryExpr (snd r)) rest
  end
with nums_PrimaryExpr (e : PrimaryExpr) : list N :=
  match e with
  | PrimaryExpr_num value => [value]
  | CallExpr _ args => flat_map nums_Expr args
  | PrimaryExpr_var _ => []
  | PrimaryExpr_if e' => nums_IfExpr e'
  end
with nums_IfExpr (e : IfExpr) : list N :=
  match e with
  | IfExpr_else cond thenBlock elseBlock =>
      nums_Expr cond ++ nums_BlockExpr thenBlock ++ nums_BlockExpr elseBlock
  | IfExpr_elif cond thenBlock elseIf =>
      nums_Expr cond ++ nums_BlockExpr thenBlock ++ nums_IfExpr elseIf
  end
with nums_BlockExpr (b : BlockExpr) : list N :=
  match b with
  | BlockExpr_ stmts expr => flat_map nums_Statement stmts ++ nums_Expr expr
  end
with nums_Statement (s : Statement) : list N :=
  match s with
  | LetStatement _ expr => nums_Expr expr
  | Statement_if s' => nums_IfStatement s'
  | WhileStatement cond body => nums_Expr cond ++ flat_map nums_Statement body
  | ExprStatement expr => nums_Expr expr
  end
with nums_IfStatement (s : IfStatement) : list N :=
  match s with
  | IfStatement_then cond thenBlock =>
      nums_Expr cond ++ flat_map nums_Statement thenBlock
  | IfStatement_else cond thenBlock elseBlock =>
      nums_Expr cond ++ flat_map nums_Statement thenBlock
      ++ flat_map nums_Statement elseBlock
  | IfStatement_elif cond thenBlock elseIf =>
      nums_Expr cond ++ flat_map nums_Statement thenBlock
      ++ nums_IfStatement elseIf
  end.

(** The errors code generation can end with, for a tree whose plain
    identifier references are [refs]: the error of the encoders, or the
    undeclared-identifier error for a reference that the scope lacks. *)
Definition explained (cur : FunScope) (refs : list string) (e : error)
  : Prop :=
  e = NotImplemented
  \/ exists x, In x refs /\ JSMap.has cur x = false
               /\ e = UndeclaredIdentifier x.

(** [func f(x) { let x = 1; x }]: a let statement declares the name of a
    parameter again. *)
Definition shadowed_param : FunctionDeclNode :=
  mkFunctionDeclNode "f" ["x"]
    (BlockExpr_ [LetStatement "x" (Expr_binary (PrimaryExpr_num 1) [])]
                (Expr_binary (PrimaryExpr_var "x") [])).

(** [func f2(a, b) { let x = 12; b }], from the tests of [toWasmFlat] in
    [chapter05.ts]. *)
Definition test5_f2 : Chapter05.FunctionDeclNode :=
  Chapter05.mkFunctionDeclNode "f2" ["a"; "b"]
    (Chapter05.mkBlockExpr
       [Chapter05.LetStatement "x"
          (Chapter05.Expr_arithmetic (Chapter05.PrimaryExpr_num 12) [])]
       (Chapter05.Expr_arithmetic (Chapter05.PrimaryExpr_var "b") [])).

(** A parser of which one match is known: [source] gives [tree]. *)
Definition parsesOnly {T : Type} (source : string) (tree : T) (s : string)
  : MatchResult T :=
  if String.eqb s source then succeeded tree else failed "no match".


(** [func f() { 100; y }] *)
Definition literal_before_undeclared : FunctionDeclNode :=
  mkFunctionDeclNode "f" []
    (BlockExpr_ [ExprStatement (Expr_binary (PrimaryExpr_num 100) [])]
                (Expr_binary (PrimaryExpr_var "y") [])).

(** [let x = 10; x] and [let if = 1; if], programs of [chapter04.ts]. *)
Definition let_x_10 : Chapter04.Main :=
  Chapter04.mkMain
    [Chapter04.LetStatement "x"
       (Chapter04.Expr_arithmetic (Chapter04.PrimaryExpr_num 10) [])]
    (Chapter04.Expr_arithmetic (Chapter04.PrimaryExpr_var "x") []).

Definition let_if_1 : Chapter04.Main :=
  Chapter04.mkMain
    [Chapter04.LetStatement "if"
       (Chapter04.Expr_arithmetic (Chapter04.PrimaryExpr_num 1) [])]
    (Chapter04.Expr_arithmetic (Chapter04.PrimaryExpr_var "if") []).

(** [func f(a) { let while = 1; a }], a program of [chapter05.ts]. *)
Definition let_while_1 : Chapter05.FunctionDeclNode :=
  Chapter05.mkFunctionDeclNode "f" ["a"]
    (Chapter05.mkBlockExpr
       [Chapter05.LetStatement "while"
          (Chapter05.Expr_arithmetic (Chapter05.PrimaryExpr_num 1) [])]
       (Chapter05.Expr_arithmetic (Chapter05.PrimaryExpr_var "a") [])).

(** Two records of a function with one local variable and the body
    [i32.const 0; end]: the locals as [functionDecls] writes them, one
    group in an array of its own, and the same numbers without the
    array. *)
Definition locals_grouped : FunctionDecl :=
  mkFunctionDecl "f" [] valtype.i32 [Arr [Num 1; Num valtype.i32]]
    [Num instr.i32_const; Num 0; Num instr.end_].

Definition locals_ungrouped : FunctionDecl :=
  mkFunctionDecl "f" [] valtype.i32 [Num 1; Num valtype.i32]
    [Num instr.i32_const; Num 0; Num instr.end_].

(** Eighteen functions [func a() { 0 }], ..., [func r() { 0 }], and a
    nineteenth. *)
Definition eighteen_functions : ModuleNode :=
  map (fun nm => fn_const nm 0)
      ["a"; "b"; "c"; "d"; "e"; "f"; "g"; "h"; "i"; "j"; "k"; "l"; "m"; "n";
       "o"; "p"; "q"; "r"].

Definition nineteen_functions : ModuleNode :=
  eighteen_functions ++ [fn_const "s" 0].

(** Programs of the earlier grammars read as programs of the later ones:
    an expression of [chapter03.ts] as a program of [chapter04.ts], a
    program of [chapter04.ts] as the function [func main() { ... }] of
    [chapter06.ts], and a module of [chapter05.ts] as a module of
    [chapter06.ts]. *)
Definition embed_op (o : Chapter03.op) : binaryOp :=
  match o with
  | Chapter03.plus => op_add
  | Chapter03.minus => op_sub
  end.

Definition embed_chapter03 (e : Chapter03.Expr) : Chapter04.Main :=
  Chapter04.mkMain []
    (Chapter04.Expr_arithmetic
       (Chapter04.PrimaryExpr_num (Chapter03.num e))
       (map (fun r => (fst r, Chapter04.PrimaryExpr_num (snd r)))
            (Chapter03.rest e))).

Definition embed_PrimaryExpr (e : Chapter04.PrimaryExpr) : PrimaryExpr :=
  match e with
  | Chapter04.PrimaryExpr_num value => PrimaryExpr_num value
  | Chapter04.PrimaryExpr_var ident => PrimaryExpr_var ident
  end.

Fixpoint embed_Expr (e : Chapter04.Expr) : Expr :=
  match e with
  | Chapter04.AssignmentExpr ident expr =>
      AssignmentExpr ident (embed_Expr expr)
  | Chapter04.Expr_arithmetic num rest =>
      Expr_binary (embed_PrimaryExpr num)
        (map (fun r => (embed_op (fst r), embed_PrimaryExpr (snd r))) rest)
  end.

Definition embed_Statement (s : Chapter04.Statement) : Statement :=
  match s with
  | Chapter04.LetStatement ident expr => LetStatement ident (embed_Expr expr)
  | Chapter04.ExprStatement expr => ExprStatement (embed_Expr expr)
  end.

Definition embed_Main (p : Chapter04.Main) : FunctionDeclNode :=
  mkFunctionDeclNode "main" []
    (BlockExpr_ (map embed_Statement (Chapter04.statements p))
                (embed_Expr (Chapter04.expr p))).

Fixpoint embed5_Expr (e : Chapter05.Expr) : Expr :=
  match e with
  | Chapter05.AssignmentExpr ident expr =>
      AssignmentExpr ident (embed5_Expr expr)
  | Chapter05.Expr_arithmetic num rest =>
      Expr_binary (embed5_PrimaryExpr num)
        (map (fun r => (embed_op (fst r), embed5_PrimaryExpr (snd r))) rest)
  end
with embed5_PrimaryExpr (e : Chapter05.PrimaryExpr) : PrimaryExpr :=
  match e with
  | Chapter05.PrimaryExpr_num value => PrimaryExpr_num value
  | Chapter05.CallExpr ident args => CallExpr ident (map embed5_Expr args)
  | Chapter05.PrimaryExpr_var ident => PrimaryExpr_var ident
  end.

Definition embed5_Statement (s : Chapter05.Statement) : Statement :=
  match s with
  | Chapter05.LetStatement ident expr => LetStatement ident (embed5_Expr expr)
  | Chapter05.ExprStatement expr => ExprStatement (embed5_Expr expr)
  end.

Definition embed5_FunctionDecl (d : Chapter05.FunctionDeclNode)
  : FunctionDeclNode :=
  mkFunctionDeclNode (Chapter05.fd_ident d) (Chapter05.fd_params d)
    (BlockExpr_
       (map embed5_Statement (Chapter05.statements (Chapter05.fd_body d)))
       (embed5_Expr (Chapter05.expr (Chapter05.fd_body d)))).

(** The names of the let statements of a program of [chapter04.ts]. *)
Definition letNames (p : Chapter04.Main) : list string :=
  flat_map (fun s => match s with
                     | Chapter04.LetStatement ident _ => [ident]
                     | Chapter04.ExprStatement _ => []
                     end)
           (Chapter04.statements p).

(** The opcode of an operator of [chapter03.ts]. *)
Definition opcode3 (o : Chapter03.op) : Z :=
  match o with
  | Chapter03.plus => instr.i32_add
  | Chapter03.minus => instr.i32_sub
  end.

(** The names of the let statements of a function of [chapter05.ts]. *)
Definition letNames5 (d : Chapter05.FunctionDeclNode) : list string :=
  flat_map (fun s => match s with
                     | Chapter05.LetStatement ident _ => [ident]
                     | Chapter05.ExprStatement _ => []
                     end)
           (Chapter05.statements (Chapter05.fd_body d)).

(** The links of a conditional: the condition and the block of the [if]
    and of each [else if], in source order; and the block of the last
    [else]. *)
Fixpoint links_IfStatement (s : IfStatement)
  : list (Expr * list Statement) :=
  match s with
  | IfStatement_then cond thenBlock => [(cond, thenBlock)]
  | IfStatement_else cond thenBlock _ => [(cond, thenBlock)]
  | IfStatement_elif cond thenBlock elseIf =>
      (cond, thenBlock) :: links_IfStatement elseIf
  end.

Fixpoint final_IfStatement (s : IfStatement) : option (list Statement) :=
  match s with
  | IfStatement_then _ _ => None
  | IfStatement_else _ _ elseBlock => Some elseBlock
  | IfStatement_elif _ _ elseIf => final_IfStatement elseIf
  end.

Fixpoint links_IfExpr (e : IfExpr) : list (Expr * BlockExpr) :=
  match e with
  | IfExpr_else cond thenBlock _ => [(cond, thenBlock)]
  | IfExpr_elif cond thenBlock elseIf =>
      (cond, thenBlock) :: links_IfExpr elseIf
  end.

Fixpoint final_IfExpr (e : IfExpr) : BlockExpr :=
  match e with
  | IfExpr_else _ _ elseBlock => elseBlock
  | IfExpr_elif _ _ elseIf => final_IfExpr elseIf
  end.

(** The instructions of a conditional with the block type [bt], from the
    instructions [(c, t)] of the condition and of the block of each link
    and those of the last [else] block, if there is one: each link after
    the first stands, with all that follows it, between the [else] and the
    [end] of the link before. *)
Fixpoint nested (bt : Z) (links : list (list Z * list Z))
         (final : option (list Z)) : list Z :=
  match links with
  | [] => match final with Some f => f | None => [] end
  | (c, t) :: rest =>
      c ++ [instr.if_; bt] ++ t
      ++ match rest, final with
         | [], None => []
         | _, _ => instr.else_ :: nested bt rest final
         end
      ++ [instr.end_]
  end.

(** [k] holds the instructions of the condition and of the block of the
    link [l]. *)
Definition codeOf_link_IfStatement (symbols : Scope) (cur : FunScope)
           (l : Expr * list Statement) (k : list Z * list Z) : Prop :=
  result_map flatten (toWasm_Expr symbols cur (fst l)) = Ok (fst k)
  /\ result_map flatten (toWasm_BlockStatements symbols cur (snd l))
     = Ok (snd k).

Definition codeOf_link_IfExpr (symbols : Scope) (cur : FunScope)
           (l : Expr * BlockExpr) (k : list Z * list Z) : Prop :=
  result_map flatten (toWasm_Expr symbols cur (fst l)) = Ok (fst k)
  /\ result_map flatten (toWasm_BlockExpr symbols cur (snd l)) = Ok (snd k).

Definition codeOf_final_IfStatement (symbols : Scope) (cur : FunScope)
           (b : option (list Statement)) (k : option (list Z)) : Prop :=
  match b, k with
  | None, None => True
  | Some stmts, Some f =>
      result_map flatten (toWasm_BlockStatements symbols cur stmts) = Ok f
  | _, _ => False
  end.

(** Renaming the parameters and variables of a program with [rho]; the
    names of functions stay. *)
Section Renaming.
Variable rho : string -> string.

Fixpoint rename_Expr (e : Expr) : Expr :=
  match e with
  | AssignmentExpr ident expr => AssignmentExpr (rho ident) (rename_Expr expr)
  | Expr_binary num rest =>
      Expr_binary (rename_PrimaryExpr num)
        (map (fun r => (fst r, rename_PrimaryExpr (snd r))) rest)
  end
with rename_PrimaryExpr (e : PrimaryExpr) : PrimaryExpr :=
  match e with
  | PrimaryExpr_num value => PrimaryExpr_num value
  | CallExpr ident args => CallExpr ident (map rename_Expr args)
  | PrimaryExpr_var ident => PrimaryExpr_var (rho ident)
  | PrimaryExpr_if e' => PrimaryExpr_if (rename_IfExpr e')
  end
with rename_IfExpr (e : IfExpr) : IfExpr :=
  match e with
  | IfExpr_else cond thenBlock elseBlock =>
      IfExpr_else (rename_Expr cond) (rename_BlockExpr thenBlock)
                  (rename_BlockExpr elseBlock)
  | IfExpr_elif cond thenBlock elseIf =>
      IfExpr_elif (rename_Expr cond) (rename_BlockExpr thenBlock)
                  (rename_IfExpr elseIf)
  end
with rename_BlockExpr (b : BlockExpr) : BlockExpr :=
  match b with
  | BlockExpr_ stmts expr =>
      BlockExpr_ (map rename_Statement stmts) (rename_Expr expr)
  end
with rename_Statement (s : Statement) : Statement :=
  match s with
  | LetStatement ident expr => LetStatement (rho ident) (rename_Expr expr)
  | Statement_if s' => Statement_if (rename_IfStatement s')
  | WhileStatement cond body =>
      WhileStatement (rename_Expr cond) (map rename_Statement body)
  | ExprStatement expr => ExprStatement (rename_Expr expr)
  end
with rename_IfStatement (s : IfStatement) : IfStatement :=
  match s with
  | IfStatement_then cond thenBlock =>
      IfStatement_then (rename_Expr cond) (map rename_Statement thenBlock)
  | IfStatement_else cond thenBlock elseBlock =>
      IfStatement_else (rename_Expr cond) (map rename_Statement thenBlock)
                       (map rename_Statement elseBlock)
  | IfStatement_elif cond thenBlock elseIf =>
      IfStatement_elif (rename_Expr cond) (map rename_Statement thenBlock)
                       (rename_IfStatement elseIf)
  end.

Definition rename_FunctionDecl (d : FunctionDeclNode) : FunctionDeclNode :=
  mkFunctionDeclNode (fd_ident d) (map rho (fd_params d))
                     (rename_BlockExpr (fd_body d)).

Definition rename_Symbol (s : Symbol) : Symbol :=
  mkSymbol (rho (sym_name s)) (idx s) (what s).

Definition rename_scope (sc : FunScope) : FunScope :=
  map (fun ks => (rho (fst ks), rename_Symbol (snd ks))) sc.

Definition rename_table (t : Scope) : Scope :=
  map (fun ks => (fst ks, rename_scope (snd ks))) t.

(** The error of the renamed program: the same error, about the renamed
    identifier. *)
Definition rename_error (e : error) : error :=
  match e with
  | UndeclaredIdentifier x => UndeclaredIdentifier (rho x)
  | _ => e
  end.

Definition rename_result {A : Type} (r : result A) : result A :=
  match r with
  | Ok a => Ok a
  | Err e => Err (rename_error e)
  end.
End Renaming.

(** * Properties *)

(** ** Tactics *)

(** Inversion of a chain of [bind]s that returned. *)
Ltac bind_inv H :=
  repeat match type of H with
    | bind ?r _ = Ok _ =>
        let x := fresh "x" in
        let Hx := fresh "Hx" in
        destruct r as [x|] eqn:Hx; [cbn [bind] in H | discriminate H]
    end.

(** ** The tests of the source

    The expected values are those of the test of [toWasmFlat] in
    [chapter05.ts]. *)

(** [func main() { 42 }] *)
Example toWasmFlat_const :
  toWasmFlat (fn_const "main" 42) = Ok [0x41; 42; 0x0b].
Proof. reflexivity. Qed.

(** [func main() { let x = 10; x := 9; x }] *)
Example toWasmFlat_assignment :
  toWasmFlat
    (mkFunctionDeclNode "main" []
       (BlockExpr_
          [LetStatement "x" (Expr_binary (PrimaryExpr_num 10) []);
           ExprStatement
             (AssignmentExpr "x" (Expr_binary (PrimaryExpr_num 9) []))]
          (Expr_binary (PrimaryExpr_var "x") [])))
  = Ok [0x41; 10; 0x21; 0; 0x41; 9; 0x22; 0; 0x1a; 0x20; 0; 0x0b].
Proof. reflexivity. Qed.

(** [func f2(a, b) { let x = 12; b }] *)
Example toWasmFlat_params :
  toWasmFlat
    (mkFunctionDeclNode "f2" ["a"; "b"]
       (BlockExpr_
          [LetStatement "x" (Expr_binary (PrimaryExpr_num 12) [])]
          (Expr_binary (PrimaryExpr_var "b") [])))
  = Ok [0x41; 12; 0x21; 2; 0x20; 1; 0x0b].
Proof. reflexivity. Qed.

(** ** The result monad *)

Lemma bind_Ok_inv {A B : Type} (r : result A) (k : A -> result B) (b : B) :
  bind r k = Ok b -> exists a, r = Ok a /\ k a = Ok b.
Proof.
  destruct r as [a|e]; simpl; intros H; [eauto | discriminate].
Qed.

Lemma mapM_Ok_inv {A B : Type} (f : A -> result B) (l : list A) (bs : list B) :
  mapM f l = Ok bs -> Forall2 (fun a b => f a = Ok b) l bs.
Proof.
  revert bs. induction l as [|a l IH]; simpl; intros bs H.
  - inversion H; constructor.
  - apply bind_Ok_inv in H as (b & Hb & H).
    apply bind_Ok_inv in H as (bs' & Hbs & H).
    inversion H; subst. constructor; auto.
Qed.

Lemma mapM_Ok_In {A B : Type} (f : A -> result B) (l : list A) (bs : list B) :
  mapM f l = Ok bs -> forall a, In a l -> exists b, f a = Ok b.
Proof.
  intros H%mapM_Ok_inv. induction H as [|a b l bs' Hab _ IH]; intros x [].
  - subst; eauto.
  - auto.
Qed.

Lemma mapM_Ok_length {A B : Type} (f : A -> result B) (l : list A)
      (bs : list B) :
  mapM f l = Ok bs -> List.length bs = List.length l.
Proof.
  intros H%mapM_Ok_inv. induction H; simpl; congruence.
Qed.

(** ** The integer encoders *)

Lemma u32_spec (v : Z) :
  (v <= 127 -> u32 v = Ok [Num v]) /\ (127 < v -> u32 v = Err NotImplemented).
Proof.
  unfold u32; split; intros H.
  - apply Z.leb_le in H; now rewrite H.
  - apply Z.leb_gt in H; now rewrite H.
Qed.

Lemma u32_Ok_inv (v : Z) (b : bytes) : u32 v = Ok b -> v <= 127 /\ b = [Num v].
Proof.
  unfold u32. destruct (v <=? 127) eqn:E; intros H; inversion H.
  apply Z.leb_le in E. auto.
Qed.

Lemma i32_spec (v : Z) :
  (v <= 63 -> i32 v = Ok [Num v]) /\ (63 < v -> i32 v = Err NotImplemented).
Proof.
  unfold i32; split; intros H.
  - apply Z.leb_le in H; now rewrite H.
  - apply Z.leb_gt in H; now rewrite H.
Qed.

(** ** Flattening *)

Lemma flatten_app (a b : bytes) : flatten (a ++ b) = flatten a ++ flatten b.
Proof. unfold flatten. apply flat_map_app. Qed.

Lemma flatten_cons (i : item) (b : bytes) :
  flatten (i :: b) = flatten_item i ++ flatten b.
Proof. reflexivity. Qed.

Lemma flatten_item_Arr (l : bytes) : flatten_item (Arr l) = flatten l.
Proof. reflexivity. Qed.

Lemma len_app {A : Type} (a b : list A) : len (a ++ b) = len a + len b.
Proof. unfold len. rewrite length_app. lia. Qed.

Lemma len_cons {A : Type} (a : A) (l : list A) : len (a :: l) = 1 + len l.
Proof. unfold len. simpl List.length. lia. Qed.

Lemma len_nonneg {A : Type} (l : list A) : 0 <= len l.
Proof. unfold len. lia. Qed.

Lemma vec_Ok_flatten (elements v : bytes) :
  vec elements = Ok v ->
  flatten v = len elements :: flatten elements /\ len elements <= 127.
Proof.
  unfold vec. intros H. apply bind_Ok_inv in H as (n & Hn & H).
  apply u32_Ok_inv in Hn as [Hle ->]. inversion H; subst. auto.
Qed.

Lemma section_Ok_flatten (id : Z) (contents s : bytes) :
  section id contents = Ok s ->
  flatten s = framed id (flatten contents) /\ len (flatten contents) <= 127.
Proof.
  unfold section. intros H. apply bind_Ok_inv in H as (n & Hn & H).
  apply u32_Ok_inv in Hn as [Hle ->]. inversion H; subst.
  split; [|exact Hle]. unfold framed, flatten; simpl. now rewrite app_nil_r.
Qed.


(** ** C3: length prefixes *)

(** C3.  A section whose flattened contents take at most 127 bytes carries,
    right after its id, the exact byte length of those contents; a vector of
    at most 127 elements carries its element count; and whenever [code]
    returns an entry, its size prefix is the byte length of the encoded
    function body (it returns one exactly when that length is at most
    127). *)
Theorem C3_length_prefixes (id : Z) (contents elements fn : bytes)
        (Hc : len (flatten contents) <= 127) (He : len elements <= 127) :
  (section id contents
     = Ok [Num id; Arr [Num (len (flatten contents))]; Arr contents]
   /\ forall s, section id contents = Ok s ->
        flatten s = id :: len (flatten contents) :: flatten contents)
  /\ (vec elements = Ok (Arr [Num (len elements)] :: elements)
      /\ forall v, vec elements = Ok v ->
           flatten v = len elements :: flatten elements)
  /\ (forall c, code fn = Ok c ->
        c = [Arr [Num (len (flatten fn))]; Arr fn]
        /\ flatten c = len (flatten fn) :: flatten fn)
  /\ (len (flatten fn) <= 127 ->
        code fn = Ok [Arr [Num (len (flatten fn))]; Arr fn]).
Proof.
  assert (Hs : section id contents
               = Ok [Num id; Arr [Num (len (flatten contents))]; Arr contents]).
  { unfold section. now rewrite (proj1 (u32_spec _) Hc). }
  assert (Hv : vec elements = Ok (Arr [Num (len elements)] :: elements)).
  { unfold vec. now rewrite (proj1 (u32_spec _) He). }
  repeat split.
  - exact Hs.
  - intros s E. rewrite Hs in E. inversion E; subst.
    unfold flatten; simpl. now rewrite app_nil_r.
  - exact Hv.
  - intros v E. rewrite Hv in E. inversion E; subst. reflexivity.
  - unfold code in H. apply bind_Ok_inv in H as (n & Hn & H).
    apply u32_Ok_inv in Hn as [_ ->]. now inversion H.
  - unfold code in H. apply bind_Ok_inv in H as (n & Hn & H).
    apply u32_Ok_inv in Hn as [_ ->]. inversion H; subst.
    unfold flatten; simpl. now rewrite app_nil_r.
  - intros Hf. unfold code. now rewrite (proj1 (u32_spec _) Hf).
Qed.

Lemma C3_length_prefixes_witness :
  len (flatten [Num 1; Arr [Num 2; Num 3]]) <= 127
  /\ len [Arr [Num 5; Num 6]; Num 8] <= 127
  /\ section 7 [Num 1; Arr [Num 2; Num 3]]
     = Ok [Num 7; Arr [Num 3]; Arr [Num 1; Arr [Num 2; Num 3]]]
  /\ vec [Arr [Num 5; Num 6]; Num 8]
     = Ok [Arr [Num 2]; Arr [Num 5; Num 6]; Num 8]
  /\ code [Arr [Arr [Num 0]]; Arr [Num 65; Num 42; Num 11]]
     = Ok [Arr [Num 4]; Arr [Arr [Arr [Num 0]]; Arr [Num 65; Num 42; Num 11]]].
Proof.
  assert (Hc : len (flatten [Num 1; Arr [Num 2; Num 3]]) <= 127)
    by (vm_compute; discriminate).
  assert (He : len [Arr [Num 5; Num 6]; Num 8] <= 127)
    by (vm_compute; discriminate).
  destruct (C3_length_prefixes 7 [Num 1; Arr [Num 2; Num 3]]
              [Arr [Num 5; Num 6]; Num 8]
              [Arr [Arr [Num 0]]; Arr [Num 65; Num 42; Num 11]] Hc He)
    as ((Hs & _) & (Hv & _) & _ & Hcode).
  split; [exact Hc|]. split; [exact He|].
  split; [exact Hs|]. split; [exact Hv|].
  apply Hcode. vm_compute; discriminate.
Defined.

(** ** Insertion-ordered maps *)

Section JSMapFacts.
Context {V : Type}.
Implicit Types (m : JSMap.t V) (k : string) (v : V).

Lemma get_has m k : JSMap.has m k = true <-> exists v, JSMap.get m k = Some v.
Proof.
  unfold JSMap.has. destruct (JSMap.get m k); split; eauto.
  - intros; discriminate.
  - intros [? ?]; discriminate.
Qed.

Lemma has_false_get m k : JSMap.has m k = false <-> JSMap.get m k = None.
Proof.
  unfold JSMap.has. destruct (JSMap.get m k); split; congruence.
Qed.

Lemma has_In_keys m k : JSMap.has m k = true <-> In k (JSMap.keys m).
Proof.
  unfold JSMap.has. induction m as [|[k' v'] m IH]; simpl.
  - split; [discriminate | tauto].
  - destruct (String.eqb_spec k' k) as [->|Hne].
    + split; auto.
    + rewrite IH. split; [auto | intros [|]; [contradiction | auto]].
Qed.

Lemma has_false_keys m k : JSMap.has m k = false <-> ~ In k (JSMap.keys m).
Proof.
  rewrite <- has_In_keys. destruct (JSMap.has m k); split; congruence.
Qed.

(** [set] on a key already present keeps the keys; on a new key it
    appends it. *)
Lemma keys_set m k v :
  JSMap.keys (JSMap.set m k v)
  = if JSMap.has m k then JSMap.keys m else JSMap.keys m ++ [k].
Proof.
  unfold JSMap.has. induction m as [|[k' v'] m IH]; simpl.
  - reflexivity.
  - destruct (String.eqb_spec k' k) as [->|Hne]; simpl.
    + reflexivity.
    + rewrite IH. now destruct (JSMap.get m k).
Qed.

Lemma set_new m k v : JSMap.has m k = false -> JSMap.set m k v = m ++ [(k, v)].
Proof.
  unfold JSMap.has. induction m as [|[k' v'] m IH]; simpl; intros H.
  - reflexivity.
  - destruct (String.eqb_spec k' k) as [->|Hne].
    + discriminate.
    + now rewrite IH.
Qed.

Lemma size_set m k v :
  JSMap.size (JSMap.set m k v)
  = if JSMap.has m k then JSMap.size m else JSMap.size m + 1.
Proof.
  unfold JSMap.size, len. rewrite <- !(length_map fst).
  fold (JSMap.keys (JSMap.set m k v)). fold (JSMap.keys m).
  rewrite keys_set. destruct (JSMap.has m k); [reflexivity|].
  rewrite length_app. simpl. lia.
Qed.

Lemma set_set m k v v' : JSMap.set (JSMap.set m k v) k v' = JSMap.set m k v'.
Proof.
  induction m as [|[k0 v0] m IH]; simpl.
  - now rewrite String.eqb_refl.
  - destruct (String.eqb k0 k) eqn:E; simpl; rewrite E; [reflexivity|].
    now rewrite IH.
Qed.

Lemma get_set_same m k v : JSMap.get (JSMap.set m k v) k = Some v.
Proof.
  induction m as [|[k' v'] m IH]; simpl.
  - now rewrite String.eqb_refl.
  - destruct (String.eqb_spec k' k) as [->|Hne]; simpl.
    + now rewrite String.eqb_refl.
    + apply String.eqb_neq in Hne. now rewrite Hne.
Qed.

Lemma get_set_other m k k' v :
  k' <> k -> JSMap.get (JSMap.set m k v) k' = JSMap.get m k'.
Proof.
  intros Hne. induction m as [|[k0 v0] m IH]; simpl.
  - apply String.eqb_neq in Hne. rewrite String.eqb_sym. now rewrite Hne.
  - destruct (String.eqb_spec k0 k) as [->|Hne0]; simpl.
    + apply String.eqb_neq in Hne. rewrite String.eqb_sym. now rewrite Hne.
    + now rewrite IH.
Qed.

Lemma get_In m k v : JSMap.get m k = Some v -> In (k, v) m.
Proof.
  induction m as [|[k' v'] m IH]; simpl; [discriminate|].
  destruct (String.eqb_spec k' k) as [->|Hne]; intros H.
  - inversion H; auto.
  - auto.
Qed.

Lemma get_app_new m k v k' :
  JSMap.has m k = false ->
  JSMap.get (m ++ [(k, v)]) k'
  = if String.eqb k k' then Some v else JSMap.get m k'.
Proof.
  unfold JSMap.has. induction m as [|[k0 v0] m IH]; simpl; intros H.
  - reflexivity.
  - destruct (String.eqb_spec k0 k) as [->|Hne]; [discriminate|].
    destruct (String.eqb_spec k0 k') as [->|Hne'].
    + apply String.eqb_neq in Hne. rewrite String.eqb_sym. now rewrite Hne.
    + auto.
Qed.
End JSMapFacts.

(** ** [indexOf] *)

Lemma indexOf_from_shift (l : list string) (x : string) (i : Z) :
  In x l -> indexOf_from l x i = i + indexOf_from l x 0.
Proof.
  revert i. induction l as [|y l IH]; simpl; intros i H; [tauto|].
  destruct (String.eqb_spec y x) as [->|Hne]; [lia|].
  destruct H as [H|H]; [contradiction|].
  rewrite (IH (i + 1) H), (IH 1 H). lia.
Qed.


(** In a list without repetition, [indexOf] is the position. *)
Lemma indexOf_nth_error (l : list string) (x : string) (i : nat) :
  NoDup l -> nth_error l i = Some x -> indexOf l x = Z.of_nat i.
Proof.
  unfold indexOf. revert i. induction l as [|y l IH]; intros i Hnd Hi.
  - destruct i; discriminate.
  - simpl. destruct i as [|i]; simpl in Hi.
    + inversion Hi; subst. now rewrite String.eqb_refl.
    + inversion Hnd as [|? ? Hy Hnd']; subst.
      assert (Hin : In x l) by (eapply nth_error_In; eauto).
      destruct (String.eqb_spec y x) as [->|Hne]; [contradiction|].
      rewrite indexOf_from_shift by assumption.
      rewrite (IH i Hnd' Hi). lia.
Qed.

(** Without the hypothesis, [indexOf] is still the first position. *)
Lemma indexOf_first (l : list string) (x : string) :
  In x l ->
  exists i, indexOf l x = Z.of_nat i /\ nth_error l i = Some x
            /\ forall j, (j < i)%nat -> nth_error l j <> Some x.
Proof.
  unfold indexOf. induction l as [|y l IH]; simpl; intros H; [tauto|].
  destruct (String.eqb_spec y x) as [->|Hne].
  - exists 0%nat. repeat split; auto. intros j Hj; lia.
  - destruct H as [H|H]; [contradiction|].
    destruct (IH H) as (i & Hi & Hn & Hlt).
    exists (S i). rewrite indexOf_from_shift by assumption. rewrite Hi.
    repeat split; [lia | exact Hn |].
    intros [|j] Hj; simpl; [congruence | apply Hlt; lia].
Qed.

(** ** The module scope *)

Lemma has_existsb {V : Type} (m : JSMap.t V) (k : string) :
  JSMap.has m k = existsb (String.eqb k) (JSMap.keys m).
Proof.
  unfold JSMap.has. induction m as [|[k' v'] m IH]; simpl; [reflexivity|].
  rewrite (String.eqb_sym k k').
  destruct (String.eqb k' k); simpl; [reflexivity | exact IH].
Qed.

(** Storing the empty map and filling it in place leaves the filled map
    at the position of the name. *)
Lemma bst_FunctionDecl_set (top : Scope) (d : FunctionDeclNode) :
  bst_FunctionDecl top d = JSMap.set top (fd_ident d) (functionScope d).
Proof. unfold bst_FunctionDecl. apply set_set. Qed.

Lemma keys_fold_bst_FunctionDecl (m : ModuleNode) (top : Scope) :
  JSMap.keys (fold_left bst_FunctionDecl m top)
  = distinctNames (JSMap.keys top) (map fd_ident m).
Proof.
  revert top. induction m as [|d m IH]; intros top; simpl; [reflexivity|].
  rewrite IH, bst_FunctionDecl_set, keys_set, has_existsb.
  now destruct (existsb _ _).
Qed.

Lemma keys_buildSymbolTable (m : ModuleNode) :
  JSMap.keys (buildSymbolTable m) = distinctNames [] (map fd_ident m).
Proof. apply keys_fold_bst_FunctionDecl. Qed.

Lemma distinctNames_In (names seen : list string) (x : string) :
  In x (distinctNames seen names) <-> In x seen \/ In x names.
Proof.
  revert seen. induction names as [|n names IH]; intros seen; simpl.
  - tauto.
  - rewrite IH. destruct (existsb (String.eqb n) seen) eqn:E.
    + apply existsb_exists in E as (y & Hy & Heq).
      apply String.eqb_eq in Heq; subst y.
      split; [tauto | intros [|[|]]; subst; auto].
    + rewrite in_app_iff; simpl. tauto.
Qed.

Lemma distinctNames_NoDup (names seen : list string) :
  NoDup (seen ++ names) -> distinctNames seen names = seen ++ names.
Proof.
  revert seen. induction names as [|n names IH]; intros seen H; simpl.
  - now rewrite app_nil_r.
  - destruct (existsb (String.eqb n) seen) eqn:E.
    + apply existsb_exists in E as (y & Hy & Heq).
      apply String.eqb_eq in Heq; subst y.
      apply NoDup_remove_2 in H. exfalso; apply H.
      apply in_or_app; auto.
    + rewrite IH; rewrite <- app_assoc; [reflexivity | exact H].
Qed.

Lemma keys_buildSymbolTable_NoDup (m : ModuleNode) :
  NoDup (map fd_ident m) ->
  JSMap.keys (buildSymbolTable m) = map fd_ident m.
Proof.
  intros H. rewrite keys_buildSymbolTable. now apply distinctNames_NoDup.
Qed.

(** Every declared function has a scope in the table. *)
Lemma buildSymbolTable_get (m : ModuleNode) (d : FunctionDeclNode) :
  In d m -> exists sc, JSMap.get (buildSymbolTable m) (fd_ident d) = Some sc.
Proof.
  intros H. apply get_has, has_In_keys.
  rewrite keys_buildSymbolTable, distinctNames_In.
  right. now apply in_map.
Qed.

Lemma get_fold_bst_FunctionDecl_other (m : ModuleNode) (top : Scope)
      (k : string) :
  ~ In k (map fd_ident m) ->
  JSMap.get (fold_left bst_FunctionDecl m top) k = JSMap.get top k.
Proof.
  revert top. induction m as [|d m IH]; intros top H; simpl; [reflexivity|].
  simpl in H. rewrite IH by tauto.
  rewrite bst_FunctionDecl_set. apply get_set_other. intros E. apply H. auto.
Qed.

(** When the function names are pairwise distinct, the entry of a function
    is the scope its own declaration built. *)
Lemma buildSymbolTable_get_NoDup (m : ModuleNode) (d : FunctionDeclNode) :
  NoDup (map fd_ident m) -> In d m ->
  JSMap.get (buildSymbolTable m) (fd_ident d) = Some (functionScope d).
Proof.
  unfold buildSymbolTable. generalize (@JSMap.empty FunScope).
  induction m as [|d0 m IH]; intros top Hnd Hin; [contradiction|].
  simpl in *. inversion Hnd as [|? ? Hd0 Hnd']; subst.
  destruct Hin as [->|Hin].
  - rewrite get_fold_bst_FunctionDecl_other by assumption.
    rewrite bst_FunctionDecl_set. apply get_set_same.
  - now apply IH.
Qed.

(** ** C2: call targets *)

Lemma functionDecls_names (symbols : Scope) (m : ModuleNode)
      (decls : list FunctionDecl) :
  functionDecls symbols m = Ok decls ->
  Forall2 (fun d r => fn_name r = fd_ident d
                      /\ toWasm_FunctionDecl symbols d = Ok (body r)) m decls.
Proof.
  intros H%mapM_Ok_inv.
  induction H as [|d r m' decls' Hd _ IH]; constructor; auto.
  unfold functionDecls_FunctionDecl in Hd.
  destruct (JSMap.get symbols (fd_ident d)); [|discriminate].
  apply bind_Ok_inv in Hd as (l & _ & Hd).
  apply bind_Ok_inv in Hd as (b & Hb & Hd).
  inversion Hd; subst; simpl. auto.
Qed.

Lemma Forall2_nth_error_l {A B : Type} (R : A -> B -> Prop) (l : list A)
      (l' : list B) (i : nat) (a : A) :
  Forall2 R l l' -> nth_error l i = Some a ->
  exists b, nth_error l' i = Some b /\ R a b.
Proof.
  intros H. revert i. induction H as [|x y l l' Hxy _ IH]; intros [|i] Hi;
    simpl in *; try discriminate.
  - inversion Hi; subst; eauto.
  - auto.
Qed.

(** C2 (amended).  In a module whose function names are pairwise distinct,
    a call to the function declared at position [i] passes [i] to [funcidx],
    whatever function contains the call and wherever it stands: the lookup
    runs on the table of the whole module, which [compile] builds before any
    code is generated.  Position [i] is also the position of the callee's
    record in the list handed to [buildModule]. *)
Theorem C2_call_index_is_declaration_position
        (m : ModuleNode) (Hnd : NoDup (map fd_ident m))
        (i : nat) (d : FunctionDeclNode) (Hd : nth_error m i = Some d)
        (cur : FunScope) (args : list Expr) :
  let symbols := buildSymbolTable m in
  indexOf (JSMap.keys symbols) (fd_ident d) = Z.of_nat i
  /\ toWasm_PrimaryExpr symbols cur (CallExpr (fd_ident d) args)
     = (a <- toWasm_optArgs (toWasm_Expr symbols cur) args ;;
        ix <- funcidx (Z.of_nat i) ;;
        Ok [Arr a; Arr [Num instr.call; Arr ix]])
  /\ forall decls, functionDecls symbols m = Ok decls ->
       exists r, nth_error decls i = Some r /\ fn_name r = fd_ident d
                 /\ toWasm_FunctionDecl symbols d = Ok (body r).
Proof.
  intros symbols.
  assert (Hi : indexOf (JSMap.keys symbols) (fd_ident d) = Z.of_nat i).
  { unfold symbols. rewrite keys_buildSymbolTable_NoDup by assumption.
    apply indexOf_nth_error; [assumption|].
    now apply map_nth_error. }
  split; [exact Hi|]. split.
  - simpl. now rewrite Hi.
  - intros decls Hdecls. apply functionDecls_names in Hdecls.
    destruct (Forall2_nth_error_l _ _ _ _ _ Hdecls Hd) as (r & Hr & Hn & Hb).
    eauto.
Qed.

(** The forward call of [func doIt() { add(1, 2) } func add(x, y) { x + y }]
    is emitted with index 1. *)
Lemma C2_call_index_witness :
  NoDup (map fd_ident test_doIt_add)
  /\ nth_error test_doIt_add 1 = Some test_add
  /\ indexOf (JSMap.keys (buildSymbolTable test_doIt_add)) "add" = 1.
Proof.
  assert (Hnd : NoDup (map fd_ident test_doIt_add)).
  { repeat constructor; simpl; intuition discriminate. }
  split; [exact Hnd|]. split; [reflexivity|].
  exact (proj1 (C2_call_index_is_declaration_position
                  test_doIt_add Hnd 1 test_add eq_refl [] [])).
Defined.

(** [func a() { 1 } func a() { 2 } func b() { b() }]: the module scope has
    the keys [a, b], so the recursive call in [b], the function at position
    2, is emitted with index 1. *)
Lemma C2_counterexample_duplicate_names :
  let m := [fn_const "a" 1; fn_const "a" 2; fn_call "b" "b"] in
  nth_error m 2 = Some (fn_call "b" "b")
  /\ indexOf (JSMap.keys (buildSymbolTable m)) "b" = 1
  /\ toWasm_PrimaryExpr (buildSymbolTable m) [] (CallExpr "b" [])
     = Ok [Arr []; Arr [Num 0x10; Arr [Num 1]]]
  /\ ~ (forall i d, nth_error m i = Some d ->
          indexOf (JSMap.keys (buildSymbolTable m)) (fd_ident d) = Z.of_nat i).
Proof.
  intros m. repeat split.
  intros H. specialize (H 2%nat (fn_call "b" "b") eq_refl).
  vm_compute in H. discriminate.
Qed.

(** ** C9: calls to undeclared functions *)






(** The whole compilation of [func f() { g() }] succeeds; the body of [f]
    is [call 255; end]. *)
Lemma compile_undeclared_callee :
  compile [fn_call "f" "g"]
  = Ok [0; 97; 115; 109; 1; 0; 0; 0;
        1; 5; 1; 96; 0; 1; 127;
        3; 2; 1; 0;
        7; 5; 1; 1; 102; 0; 0;
        10; 8; 1; 6; 1; 0; 127; 16; 255; 11].
Proof. reflexivity. Qed.

(** ** C5: while loops *)

(** C5.  A while statement is lowered to one [loop] with the empty block
    type around the condition's code and one [if] with the empty block type;
    the [if] holds the body's code followed by [br 1], the branch to the
    start of the loop, and the two blocks are closed by two [end] markers.
    The lowering adds no other byte. *)
Theorem C5_while_lowering (symbols : Scope) (cur : FunScope) (cond : Expr)
        (body : list Statement) :
  toWasm_Statement symbols cur (WhileStatement cond body)
  = (c <- toWasm_Expr symbols cur cond ;;
     b <- toWasm_BlockStatements symbols cur body ;;
     Ok [Arr [Num instr.loop; Num blocktype.empty];
         Arr c;
         Arr [Num instr.if_; Num blocktype.empty];
         Arr b;
         Arr [Num instr.br; Num 1];
         Num instr.end_;
         Num instr.end_])
  /\ forall code,
       toWasm_Statement symbols cur (WhileStatement cond body) = Ok code ->
       exists c b,
         toWasm_Expr symbols cur cond = Ok c
         /\ toWasm_BlockStatements symbols cur body = Ok b
         /\ flatten code
            = [0x03; 0x40] ++ flatten c
              ++ [0x04; 0x40] ++ flatten b ++ [0x0c; 1; 0x0b; 0x0b].
Proof.
  assert (E : toWasm_Statement symbols cur (WhileStatement cond body)
  = (c <- toWasm_Expr symbols cur cond ;;
     b <- toWasm_BlockStatements symbols cur body ;;
     Ok [Arr [Num instr.loop; Num blocktype.empty];
         Arr c;
         Arr [Num instr.if_; Num blocktype.empty];
         Arr b;
         Arr [Num instr.br; Num 1];
         Num instr.end_;
         Num instr.end_])).
  { simpl. destruct (toWasm_Expr symbols cur cond); simpl; [|reflexivity].
    unfold toWasm_BlockStatements.
    destruct (mapM (toWasm_Statement symbols cur) body); reflexivity. }
  split; [exact E|].
  intros code H. rewrite E in H.
  apply bind_Ok_inv in H as (c & Hc & H).
  apply bind_Ok_inv in H as (b & Hb & H).
  exists c, b. repeat split; try assumption.
  inversion H; subst. unfold flatten; simpl.
  rewrite ?app_nil_r, <- ?app_assoc. reflexivity.
Qed.

(** The loop of [countTo]: [while x < n { x := x + 1; }] with [n] at index 0
    and [x] at index 1. *)
Lemma C5_while_lowering_witness :
  let symbols := buildSymbolTable [test_countTo] in
  let cur := functionScope test_countTo in
  exists code,
    toWasm_Statement symbols cur test_while = Ok code
    /\ flatten code
       = [0x03; 0x40;
            0x20; 1; 0x20; 0; 0x48;
            0x04; 0x40;
              0x20; 1; 0x41; 1; 0x6a; 0x22; 1; 0x1a;
              0x0c; 1;
            0x0b;
          0x0b].
Proof.
  intros symbols cur.
  destruct (toWasm_Statement symbols cur test_while) as [code|e] eqn:E;
    [|vm_compute in E; discriminate E].
  exists code. split; [reflexivity|].
  destruct (proj2 (C5_while_lowering symbols cur _ _) code E)
    as (c & b & Hc & Hb & Hf).
  rewrite Hf. vm_compute in Hc, Hb.
  injection Hc as <-. injection Hb as <-. reflexivity.
Defined.

(** ** C7: binary chains *)

(** Every token of the grammar's [binaryOp] is in the table: the
    unhandled-operator error cannot be raised. *)
Lemma toWasm_binaryOp_total (o : binaryOp) : toWasm_binaryOp o = Ok (opcode o).
Proof. destruct o; reflexivity. Qed.

Lemma Expr_binary_loop_mapM (f : PrimaryExpr -> result bytes)
      (rest : list (binaryOp * PrimaryExpr)) (acc : bytes) :
  Expr_binary_loop f rest acc
  = (cs <- mapM (fun r => f (snd r)) rest ;;
     Ok (acc ++ flat_map (fun rc => [Arr (snd rc); Num (opcode (fst (fst rc)))])
                         (combine rest cs))).
Proof.
  revert acc. induction rest as [|r rest IH]; intros acc; simpl.
  - now rewrite app_nil_r.
  - destruct (f (snd r)) as [a|e]; simpl; [|reflexivity].
    rewrite toWasm_binaryOp_total; simpl. rewrite IH.
    destruct (mapM _ rest) as [cs|e]; simpl; [|reflexivity].
    now rewrite <- app_assoc.
Qed.

Lemma mapM_app {A B : Type} (f : A -> result B) (l1 l2 : list A) :
  mapM f (l1 ++ l2)
  = (bs1 <- mapM f l1 ;; bs2 <- mapM f l2 ;; Ok (bs1 ++ bs2)).
Proof.
  induction l1 as [|a l1 IH]; simpl.
  - destruct (mapM f l2); reflexivity.
  - destruct (f a) as [b|e]; simpl; [|reflexivity].
    rewrite IH. destruct (mapM f l1) as [bs1|e]; simpl; [|reflexivity].
    destruct (mapM f l2); reflexivity.
Qed.

Lemma combine_app {A B : Type} (l1 l2 : list A) (m1 m2 : list B) :
  List.length l1 = List.length m1 ->
  combine (l1 ++ l2) (m1 ++ m2) = combine l1 m1 ++ combine l2 m2.
Proof.
  revert m1. induction l1 as [|a l1 IH]; intros [|b m1] H; simpl in *;
    try discriminate; [reflexivity|].
  f_equal. apply IH. congruence.
Qed.

Lemma toWasm_Expr_binary (symbols : Scope) (cur : FunScope)
      (num : PrimaryExpr) (rest : list (binaryOp * PrimaryExpr)) :
  toWasm_Expr symbols cur (Expr_binary num rest)
  = (c <- toWasm_PrimaryExpr symbols cur num ;;
     cs <- mapM (fun r => toWasm_PrimaryExpr symbols cur (snd r)) rest ;;
     Ok (Arr c :: flat_map (fun rc => [Arr (snd rc);
                                       Num (opcode (fst (fst rc)))])
                           (combine rest cs))).
Proof.
  simpl. destruct (toWasm_PrimaryExpr symbols cur num); simpl; [|reflexivity].
  now rewrite Expr_binary_loop_mapM.
Qed.

Lemma flatten_pairs (l : list (binaryOp * PrimaryExpr * bytes)) :
  flatten (flat_map (fun rc => [Arr (snd rc); Num (opcode (fst (fst rc)))]) l)
  = flat_map (fun rc => flatten (snd rc) ++ [opcode (fst (fst rc))]) l.
Proof.
  induction l as [|rc l IH]; [reflexivity|].
  cbn [flat_map]. rewrite flatten_app, IH. reflexivity.
Qed.

(** C7.  The code of [num op1 e1 op2 e2 ...] is the code of [num], then, pair
    by pair in source order, the code of the operand followed by the one
    opcode of the operator.  It is a left fold: the code of a chain with one
    more pair is the code of the chain, then the code of the new operand,
    then the opcode, so that [a - b - c] is lowered to [a b sub c sub], the
    code of [(a - b) - c].  The operator only selects the opcode: [and] and
    [or] are lowered like the others, after the code of both operands. *)
Theorem C7_binary_chain_left_fold (symbols : Scope) (cur : FunScope)
        (num : PrimaryExpr) (rest : list (binaryOp * PrimaryExpr)) :
  toWasm_Expr symbols cur (Expr_binary num rest)
  = (c <- toWasm_PrimaryExpr symbols cur num ;;
     cs <- mapM (fun r => toWasm_PrimaryExpr symbols cur (snd r)) rest ;;
     Ok (Arr c :: flat_map (fun rc => [Arr (snd rc);
                                       Num (opcode (fst (fst rc)))])
                           (combine rest cs)))
  /\ (forall code,
        toWasm_Expr symbols cur (Expr_binary num rest) = Ok code ->
        exists c cs,
          toWasm_PrimaryExpr symbols cur num = Ok c
          /\ Forall2 (fun r a => toWasm_PrimaryExpr symbols cur (snd r) = Ok a)
                     rest cs
          /\ flatten code
             = flatten c
               ++ flat_map (fun rc => flatten (snd rc)
                                      ++ [opcode (fst (fst rc))])
                           (combine rest cs))
  /\ (forall op operand code,
        toWasm_Expr symbols cur (Expr_binary num (rest ++ [(op, operand)]))
        = Ok code ->
        exists c1 c2,
          toWasm_Expr symbols cur (Expr_binary num rest) = Ok c1
          /\ toWasm_PrimaryExpr symbols cur operand = Ok c2
          /\ flatten code = flatten c1 ++ flatten c2 ++ [opcode op])
  /\ (forall b c ca cb cc,
        rest = [(op_sub, b); (op_sub, c)] ->
        toWasm_PrimaryExpr symbols cur num = Ok ca ->
        toWasm_PrimaryExpr symbols cur b = Ok cb ->
        toWasm_PrimaryExpr symbols cur c = Ok cc ->
        exists code,
          toWasm_Expr symbols cur (Expr_binary num rest) = Ok code
          /\ flatten code
             = flatten ca ++ flatten cb ++ [0x6b] ++ flatten cc ++ [0x6b])
  /\ (forall op b ca cb,
        rest = [(op, b)] ->
        toWasm_PrimaryExpr symbols cur num = Ok ca ->
        toWasm_PrimaryExpr symbols cur b = Ok cb ->
        exists code,
          toWasm_Expr symbols cur (Expr_binary num rest) = Ok code
          /\ flatten code = flatten ca ++ flatten cb ++ [opcode op])
  /\ opcode op_and = instr.i32_and
  /\ opcode op_or = instr.i32_or.
Proof.
  pose proof (toWasm_Expr_binary symbols cur num rest) as E.
  split; [exact E|]. split; [|split; [|split; [|split; [|split]]]];
    [| | | |reflexivity|reflexivity].
  - intros code H. rewrite E in H. bind_inv H.
    exists x, x0. split; [reflexivity|]. split; [now apply mapM_Ok_inv|].
    injection H as <-.
    now rewrite flatten_cons, flatten_item_Arr, flatten_pairs.
  - intros op operand code H.
    rewrite toWasm_Expr_binary, mapM_app in H. rewrite E.
    destruct (toWasm_PrimaryExpr symbols cur num) as [c|]; [|discriminate].
    cbn [bind] in H |- *.
    destruct (mapM _ rest) as [cs|] eqn:Hcs; [|discriminate].
    cbn [bind mapM] in H |- *.
    destruct (toWasm_PrimaryExpr symbols cur (snd (op, operand)))
      as [c2|] eqn:Hc2; [|discriminate].
    cbn [bind] in H. injection H as <-.
    do 2 eexists. split; [reflexivity|]. split; [exact Hc2|].
    rewrite combine_app by (symmetry; eapply mapM_Ok_length; eauto).
    rewrite flat_map_app, !flatten_cons, flatten_app, <- app_assoc.
    do 2 f_equal.
  - intros b c ca cb cc -> Ha Hb Hc. rewrite E. simpl.
    rewrite Ha, Hb, Hc. simpl. eexists; split; [reflexivity|].
    unfold flatten; simpl. rewrite ?app_nil_r, <- ?app_assoc. reflexivity.
  - intros op b ca cb -> Ha Hb. rewrite E. simpl.
    rewrite Ha, Hb. simpl. eexists; split; [reflexivity|].
    unfold flatten; simpl. rewrite ?app_nil_r, <- ?app_assoc. reflexivity.
Qed.

(** [7 - 2 - 1], with the constants as operands. *)
Lemma C7_binary_chain_witness :
  exists code,
    toWasm_Expr [] [] (Expr_binary (PrimaryExpr_num 7)
                         [(op_sub, PrimaryExpr_num 2);
                          (op_sub, PrimaryExpr_num 1)]) = Ok code
    /\ flatten code = [0x41; 7] ++ [0x41; 2] ++ [0x6b] ++ [0x41; 1] ++ [0x6b].
Proof.
  destruct (C7_binary_chain_left_fold [] [] (PrimaryExpr_num 7)
              [(op_sub, PrimaryExpr_num 2); (op_sub, PrimaryExpr_num 1)])
    as (_ & _ & _ & Hsub & _).
  exact (Hsub _ _ _ _ _ eq_refl eq_refl eq_refl eq_refl).
Defined.

(** ** Towards C6: the identifiers that code generation resolves *)

Lemma list_all_Forall {A : Set} (P : A -> Prop) (l : list A) :
  list_all A P l -> Forall P l.
Proof. induction 1; constructor; assumption. Qed.

Lemma list_all_snd_Forall {A B : Set} (P : B -> Prop) (l : list (A * B)) :
  list_all (A * B) (prod_all A (fun _ => unit) B P) l ->
  Forall (fun r => P (snd r)) l.
Proof.
  induction 1 as [|r Hr l _ IH]; constructor; [|assumption].
  destruct Hr; assumption.
Qed.



Lemma resolveSymbol_get (x : string) (sc : FunScope) (info : Symbol) :
  JSMap.get sc x = Some info -> resolveSymbol x sc = Ok info.
Proof.
  intros H. unfold resolveSymbol, JSMap.has. now rewrite H.
Qed.

Section Resolved.
Variable symbols : Scope.
Variable cur : FunScope.


End Resolved.

Lemma compile_Ok_toWasm (m : ModuleNode) (out : list Z) (d : FunctionDeclNode) :
  compile m = Ok out -> In d m ->
  exists cur c,
    JSMap.get (buildSymbolTable m) (fd_ident d) = Some cur
    /\ toWasm_BlockExpr (buildSymbolTable m) cur (fd_body d) = Ok c.
Proof.
  unfold compile. intros H Hd.
  apply bind_Ok_inv in H as (decls & Hdecls & _).
  destruct (mapM_Ok_In _ _ _ Hdecls d Hd) as (r & Hr).
  unfold functionDecls_FunctionDecl in Hr.
  destruct (JSMap.get (buildSymbolTable m) (fd_ident d)) as [cur|] eqn:E;
    [|discriminate].
  apply bind_Ok_inv in Hr as (l & _ & Hr).
  apply bind_Ok_inv in Hr as (b & Hb & _).
  unfold toWasm_FunctionDecl in Hb. rewrite E in Hb.
  apply bind_Ok_inv in Hb as (c & Hc & _). eauto.
Qed.

Lemma compile_undeclared_identifier :
  compile [fn_var "f" "y"] = Err (UndeclaredIdentifier "y").
Proof. reflexivity. Qed.

(** ** C1 and C10: storage indices *)

Lemma fold_left_flat_map {A B C : Type} (f : A -> C -> A) (g : B -> list C)
      (l : list B) (a : A) :
  fold_left f (flat_map g l) a
  = fold_left (fun a' b => fold_left f (g b) a') l a.
Proof.
  revert a. induction l as [|b l IH]; intros a; simpl; [reflexivity|].
  now rewrite fold_left_app, IH.
Qed.

Lemma fold_left_ext_Forall {A B : Type} (f g : A -> B -> A) (l : list B) :
  Forall (fun b => forall a, f a b = g a b) l ->
  forall a, fold_left f l a = fold_left g l a.
Proof.
  induction 1 as [|b l Hb _ IH]; intros a; simpl; [reflexivity|].
  now rewrite Hb, IH.
Qed.

(** The walk only ever declares locals, one per let statement reached. *)
Lemma bst_walked :
  (forall e sc, bst_Expr e sc = fold_left (declare local) (walked_Expr e) sc)
  /\ (forall e sc, bst_PrimaryExpr e sc
                   = fold_left (declare local) (walked_PrimaryExpr e) sc)
  /\ (forall e sc, bst_IfExpr e sc
                   = fold_left (declare local) (walked_IfExpr e) sc)
  /\ (forall b sc, bst_BlockExpr b sc
                   = fold_left (declare local) (walked_BlockExpr b) sc)
  /\ (forall s sc, bst_Statement s sc
                   = fold_left (declare local) (walked_Statement s) sc)
  /\ (forall s sc, bst_IfStatement s sc
                   = fold_left (declare local) (walked_IfStatement s) sc).
Proof.
  assert (Hstmts : forall stmts : list Statement,
             list_all Statement
               (fun s => forall sc, bst_Statement s sc
                  = fold_left (declare local) (walked_Statement s) sc) stmts ->
             forall sc,
               fold_left (fun sc' s => bst_Statement s sc') stmts sc
               = fold_left (declare local)
                           (flat_map walked_Statement stmts) sc).
  { intros stmts H sc. rewrite fold_left_flat_map.
    apply fold_left_ext_Forall.
    apply list_all_Forall in H.
    eapply Forall_impl; [|exact H]. simpl. intros s Hs a. apply Hs. }
  apply syntax_mutind; simpl; intros.
  - auto.
  - rewrite fold_left_app, fold_left_flat_map, <- H.
    apply fold_left_ext_Forall.
    apply list_all_snd_Forall in H0.
    eapply Forall_impl; [|exact H0]. simpl. intros r Hr a. apply Hr.
  - reflexivity.
  - rewrite fold_left_flat_map. apply fold_left_ext_Forall.
    apply list_all_Forall in H.
    eapply Forall_impl; [|exact H]. simpl. intros r Hr a. apply Hr.
  - reflexivity.
  - auto.
  - now rewrite !fold_left_app, <- H, <- H0, <- H1.
  - now rewrite !fold_left_app, <- H, <- H0, <- H1.
  - now rewrite fold_left_app, <- Hstmts, <- H0.
  - reflexivity.
  - auto.
  - now rewrite fold_left_app, <- Hstmts, <- H.
  - auto.
  - now rewrite fold_left_app, <- Hstmts, <- H.
  - now rewrite !fold_left_app, <- !Hstmts, <- H.
  - now rewrite !fold_left_app, <- Hstmts, <- H, <- H1.
Qed.

Lemma functionScope_fold (d : FunctionDeclNode) :
  functionScope d
  = fold_left (declare local) (walked_BlockExpr (fd_body d))
              (fold_left (declare param) (fd_params d) JSMap.empty).
Proof.
  unfold functionScope, bst_Params.
  now rewrite (proj1 (proj2 (proj2 (proj2 bst_walked)))).
Qed.

Lemma keys_numbered (w : kind) (base : Z) (names : list string) :
  JSMap.keys (numbered w base names) = names.
Proof.
  unfold JSMap.keys. revert base.
  induction names as [|n names IH]; intros base; simpl; [reflexivity|].
  now rewrite IH.
Qed.

Lemma keys_app {V : Type} (a b : JSMap.t V) :
  JSMap.keys (a ++ b) = JSMap.keys a ++ JSMap.keys b.
Proof. apply map_app. Qed.

(** Declaring names that are new and pairwise distinct appends them with
    consecutive indices, starting at the size of the scope. *)
Lemma fold_declare_fresh (w : kind) (names : list string) (sc : FunScope) :
  NoDup (JSMap.keys sc ++ names) ->
  fold_left (declare w) names sc = sc ++ numbered w (JSMap.size sc) names.
Proof.
  revert sc. induction names as [|n names IH]; intros sc Hnd; simpl.
  - now rewrite app_nil_r.
  - assert (Hn : JSMap.has sc n = false).
    { apply has_false_keys. intros Hin.
      apply NoDup_remove_2 in Hnd. apply Hnd, in_or_app. auto. }
    unfold declare at 2. rewrite (set_new _ _ _ Hn).
    rewrite IH.
    + rewrite <- app_assoc. simpl. do 3 f_equal.
      unfold JSMap.size. rewrite len_app. reflexivity.
    + rewrite keys_app. simpl. rewrite <- app_assoc. exact Hnd.
Qed.

Lemma functionScope_numbered (d : FunctionDeclNode) :
  NoDup (fd_params d ++ walked_BlockExpr (fd_body d)) ->
  functionScope d
  = numbered param 0 (fd_params d)
    ++ numbered local (len (fd_params d)) (walked_BlockExpr (fd_body d)).
Proof.
  intros Hnd. rewrite functionScope_fold.
  assert (Hp : fold_left (declare param) (fd_params d) JSMap.empty
               = numbered param 0 (fd_params d)).
  { apply (fold_declare_fresh param (fd_params d) JSMap.empty).
    simpl. now apply NoDup_app_remove_r in Hnd. }
  rewrite Hp, fold_declare_fresh by now rewrite keys_numbered.
  do 2 f_equal. unfold JSMap.size, len.
  rewrite <- (length_map fst).
  change (map fst (numbered param 0 (fd_params d)))
    with (JSMap.keys (numbered param 0 (fd_params d))).
  now rewrite keys_numbered.
Qed.

Lemma get_numbered (w : kind) (names : list string) (base : Z) (i : nat)
      (x : string) :
  NoDup names -> nth_error names i = Some x ->
  JSMap.get (numbered w base names) x
  = Some (mkSymbol x (base + Z.of_nat i) w).
Proof.
  revert base i. induction names as [|n names IH]; intros base i Hnd Hi.
  - destruct i; discriminate.
  - inversion Hnd as [|? ? Hn Hnd']; subst. destruct i as [|i]; simpl in *.
    + inversion Hi; subst. rewrite String.eqb_refl. do 2 f_equal. lia.
    + assert (Hin : In x names) by (eapply nth_error_In; eauto).
      destruct (String.eqb_spec n x) as [->|Hne]; [contradiction|].
      rewrite (IH (base + 1) i Hnd' Hi). do 2 f_equal. lia.
Qed.

Lemma get_app {V : Type} (a b : JSMap.t V) (k : string) :
  JSMap.get (a ++ b) k
  = match JSMap.get a k with Some v => Some v | None => JSMap.get b k end.
Proof.
  induction a as [|[k' v'] a IH]; simpl; [reflexivity|].
  now destruct (String.eqb k' k).
Qed.

Lemma idx_numbered (w : kind) (names : list string) (base : nat) :
  map idx (JSMap.values (numbered w (Z.of_nat base) names))
  = map Z.of_nat (seq base (List.length names)).
Proof.
  unfold JSMap.values. revert base.
  induction names as [|n names IH]; intros base; simpl; [reflexivity|].
  f_equal. rewrite <- IH. do 3 f_equal. lia.
Qed.

Lemma NoDup_app_disjoint {A : Type} (l1 l2 : list A) (x : A) :
  NoDup (l1 ++ l2) -> In x l1 -> In x l2 -> False.
Proof.
  induction l1 as [|a l1 IH]; simpl; intros Hnd H1 H2; [tauto|].
  inversion Hnd as [|? ? Ha Hnd']; subst.
  destruct H1 as [->|H1]; [apply Ha, in_or_app; auto | auto].
Qed.

(** The index property in general: in a function whose parameter and let
    names are pairwise distinct and none of whose let statements stands in
    the initialiser of another, the i-th parameter resolves to index i and
    the j-th let to index p + j, and the indices of the scope are
    0, 1, ..., p + l - 1 in this order. *)
Theorem functionScope_sequential (d : FunctionDeclNode) :
  let ps := fd_params d in
  let ls := lets_BlockExpr (fd_body d) in
  NoDup (ps ++ ls) ->
  walked_BlockExpr (fd_body d) = ls ->
  (forall i x, nth_error ps i = Some x ->
     resolveSymbol x (functionScope d) = Ok (mkSymbol x (Z.of_nat i) param))
  /\ (forall j x, nth_error ls j = Some x ->
        resolveSymbol x (functionScope d)
        = Ok (mkSymbol x (len ps + Z.of_nat j) local))
  /\ map idx (JSMap.values (functionScope d))
     = map Z.of_nat (seq 0 (List.length ps + List.length ls)).
Proof.
  intros ps ls Hnd Hw.
  assert (Hsc : functionScope d
                = numbered param 0 ps ++ numbered local (len ps) ls).
  { rewrite functionScope_numbered; rewrite Hw; [reflexivity | exact Hnd]. }
  pose proof (NoDup_app_remove_r _ _ Hnd) as Hps.
  pose proof (NoDup_app_remove_l _ _ Hnd) as Hls.
  repeat split.
  - intros i x Hi. apply resolveSymbol_get. rewrite Hsc, get_app.
    now rewrite (get_numbered param ps 0 i x Hps Hi).
  - intros j x Hj. apply resolveSymbol_get. rewrite Hsc, get_app.
    assert (Hx : JSMap.get (numbered param 0 ps) x = None).
    { apply has_false_get, has_false_keys. rewrite keys_numbered.
      intros Hin. apply nth_error_In in Hj.
      exact (NoDup_app_disjoint _ _ x Hnd Hin Hj). }
    rewrite Hx. apply get_numbered; assumption.
  - rewrite Hsc. unfold JSMap.values. rewrite !map_app.
    change (map idx (JSMap.values (numbered param (Z.of_nat 0) ps))
            ++ map idx (JSMap.values (numbered local (len ps) ls))
            = map Z.of_nat (seq 0 (List.length ps + List.length ls))).
    unfold len. rewrite !idx_numbered, seq_app, map_app. reflexivity.
Qed.

(** C1.  A let statement inside the initialiser of a let statement gets no
    index: in [func f() { let x = if 1 { let y = 2; y } else { 3 }; x }], a
    function with no parameter and the two let statements [x] and [y], the
    table holds [x] at index 0 and nothing else; resolving [y] raises the
    undeclared-identifier error, and the module does not compile. *)
Theorem C1_let_in_initialiser_gets_no_index :
  fd_params let_in_initialiser = []
  /\ lets_BlockExpr (fd_body let_in_initialiser) = ["x"; "y"]
  /\ NoDup (fd_params let_in_initialiser
            ++ lets_BlockExpr (fd_body let_in_initialiser))
  /\ buildSymbolTable [let_in_initialiser]
     = [("f", [("x", mkSymbol "x" 0 local)])]
  /\ resolveSymbol "y" (functionScope let_in_initialiser)
     = Err (UndeclaredIdentifier "y")
  /\ compile [let_in_initialiser] = Err (UndeclaredIdentifier "y").
Proof.
  repeat split.
  repeat constructor; simpl; intuition discriminate.
Qed.

(** ** C10: redeclaration *)

Lemma declareAll_app (ds1 ds2 : list (kind * string)) :
  declareAll (ds1 ++ ds2)
  = fold_left (fun sc d => declare (fst d) sc (snd d)) ds2 (declareAll ds1).
Proof. unfold declareAll. apply fold_left_app. Qed.

Lemma fold_declare_map (w : kind) (names : list string) (sc : FunScope) :
  fold_left (fun sc d => declare (fst d) sc (snd d))
            (map (fun n => (w, n)) names) sc
  = fold_left (declare w) names sc.
Proof.
  revert sc. induction names as [|n names IH]; intros sc; simpl;
    [reflexivity | apply IH].
Qed.

(** The scope of a function is reached by declaring its parameters and
    then the let statements of its body that the walk reaches. *)
Lemma functionScope_declareAll (d : FunctionDeclNode) :
  functionScope d
  = declareAll (map (fun n => (param, n)) (fd_params d)
                ++ map (fun n => (local, n)) (walked_BlockExpr (fd_body d))).
Proof.
  rewrite functionScope_fold, declareAll_app, fold_declare_map.
  unfold declareAll. now rewrite fold_declare_map.
Qed.

Lemma In_values_set {V : Type} (m : JSMap.t V) (k : string) (v v' : V) :
  In v' (JSMap.values (JSMap.set m k v)) -> v' = v \/ In v' (JSMap.values m).
Proof.
  unfold JSMap.values. induction m as [|[k0 v0] m IH]; simpl.
  - intros [<-|[]]; auto.
  - destruct (String.eqb k0 k); simpl; intros [<-|H]; auto.
    destruct (IH H); auto.
Qed.

Lemma get_In_values {V : Type} (m : JSMap.t V) (k : string) (v : V) :
  JSMap.get m k = Some v -> In v (JSMap.values m).
Proof.
  intros H%get_In. unfold JSMap.values.
  change v with (snd (k, v)). now apply in_map.
Qed.

Lemma size_declare_le (w : kind) (sc : FunScope) (n : string) :
  JSMap.size sc <= JSMap.size (declare w sc n).
Proof.
  unfold declare. rewrite size_set. destruct (JSMap.has sc n); lia.
Qed.

(** No index exceeds the size of the scope. *)
Lemma fold_declare_idx_le (ds : list (kind * string)) (sc : FunScope) :
  Forall (fun s => idx s <= JSMap.size sc) (JSMap.values sc) ->
  let sc' := fold_left (fun sc d => declare (fst d) sc (snd d)) ds sc in
  Forall (fun s => idx s <= JSMap.size sc') (JSMap.values sc').
Proof.
  revert sc. induction ds as [|[w n] ds IH]; intros sc Hsc; simpl;
    [exact Hsc|].
  apply IH. rewrite Forall_forall in *. intros s Hs.
  pose proof (size_declare_le w sc n) as Hle.
  unfold declare in Hs. apply In_values_set in Hs as [->|Hs].
  - simpl. exact Hle.
  - specialize (Hsc s Hs). lia.
Qed.

Lemma declareAll_idx_le (ds : list (kind * string)) :
  Forall (fun s => idx s <= JSMap.size (declareAll ds))
         (JSMap.values (declareAll ds)).
Proof. apply fold_declare_idx_le. constructor. Qed.

(** Without redeclaration, every index is below the size of the scope. *)
Lemma fold_declare_idx_lt (ds : list (kind * string)) (sc : FunScope) :
  Forall (fun s => idx s < JSMap.size sc) (JSMap.values sc) ->
  NoDup (JSMap.keys sc ++ map snd ds) ->
  let sc' := fold_left (fun sc d => declare (fst d) sc (snd d)) ds sc in
  Forall (fun s => idx s < JSMap.size sc') (JSMap.values sc').
Proof.
  revert sc. induction ds as [|[w n] ds IH]; intros sc Hsc Hnd; simpl;
    [exact Hsc|].
  simpl in Hnd.
  assert (Hn : JSMap.has sc n = false).
  { apply has_false_keys. intros Hin.
    apply NoDup_remove_2 in Hnd. apply Hnd, in_or_app. auto. }
  apply IH.
  - unfold declare. rewrite (set_new _ _ _ Hn).
    unfold JSMap.values, JSMap.size. rewrite map_app, len_app.
    change (len [(n, mkSymbol n (len sc) w)]) with 1.
    apply Forall_app. split.
    + eapply Forall_impl; [|exact Hsc]. simpl. intros s Hs.
      unfold JSMap.size in Hs. lia.
    + constructor; [|constructor]. simpl. lia.
  - unfold declare. rewrite (set_new _ _ _ Hn), keys_app. simpl.
    rewrite <- app_assoc. exact Hnd.
Qed.

Lemma declareAll_idx_lt (ds : list (kind * string)) :
  NoDup (map snd ds) ->
  Forall (fun s => idx s < JSMap.size (declareAll ds))
         (JSMap.values (declareAll ds)).
Proof. intros H. apply fold_declare_idx_lt; [constructor | exact H]. Qed.

Lemma le_maxIdx (sc : FunScope) (s : Symbol) :
  In s (JSMap.values sc) -> idx s <= maxIdx sc.
Proof.
  unfold maxIdx. induction (JSMap.values sc) as [|s' l IH]; simpl; [tauto|].
  intros [->|H]; [lia | specialize (IH H); lia].
Qed.

Lemma countLocals_le (l : list Symbol) : countLocals l <= len l.
Proof.
  unfold countLocals, len.
  pose proof (filter_length_le (fun info => kind_eqb (what info) local) l).
  lia.
Qed.

Lemma NoDup_map_injective {A B : Type} (f : A -> B) (l : list A) :
  (forall x y, f x = f y -> x = y) -> NoDup l -> NoDup (map f l).
Proof.
  intros Hf. induction 1 as [|x l Hx _ IH]; simpl; constructor; [|exact IH].
  intros Hin. apply in_map_iff in Hin as (y & Hy & Hin).
  apply Hf in Hy. now subst.
Qed.

(** A list of [n] integers that contains [n] misses a number below [n]. *)
Lemma exists_hole (l : list Z) :
  In (len l) l -> exists h, 0 <= h < len l /\ ~ In h l.
Proof.
  intros Hin.
  destruct (Forall_Exists_dec (fun j => In j l)
              (fun j => in_dec Z.eq_dec j l)
              (map Z.of_nat (seq 0 (List.length l)))) as [Hall|Hex].
  - exfalso. rewrite Forall_forall in Hall.
    assert (Hincl : incl (map Z.of_nat (seq 0 (S (List.length l)))) l).
    { intros j Hj. apply in_map_iff in Hj as (i & <- & Hi).
      apply in_seq in Hi.
      destruct (Nat.eq_dec i (List.length l)) as [->|Hne]; [exact Hin|].
      apply Hall, in_map, in_seq. lia. }
    apply NoDup_incl_length in Hincl.
    + rewrite length_map, length_seq in Hincl. lia.
    + apply NoDup_map_injective; [apply Nat2Z.inj | apply seq_NoDup].
  - apply Exists_exists in Hex as (h & Hh & Hnot).
    apply in_map_iff in Hh as (i & <- & Hi). apply in_seq in Hi.
    exists (Z.of_nat i). unfold len. split; [lia | exact Hnot].
Qed.

Lemma len_values (sc : FunScope) :
  len (map idx (JSMap.values sc)) = JSMap.size sc.
Proof. unfold JSMap.size, JSMap.values, len. now rewrite !length_map. Qed.

Lemma In_values_declare (w : kind) (sc : FunScope) (n : string) :
  In (mkSymbol n (JSMap.size sc) w) (JSMap.values (declare w sc n)).
Proof.
  unfold declare. eapply get_In_values. apply get_set_same.
Qed.

(** A redeclaration leaves a hole. *)
Lemma has_hole_redeclare (w : kind) (sc : FunScope) (n : string) :
  JSMap.has sc n = true -> has_hole (declare w sc n).
Proof.
  intros Hhas.
  assert (Hsize : JSMap.size (declare w sc n) = JSMap.size sc).
  { unfold declare. now rewrite size_set, Hhas. }
  pose proof (In_values_declare w sc n) as Hin.
  destruct (exists_hole (map idx (JSMap.values (declare w sc n))))
    as (h & Hh & Hnot).
  - rewrite len_values, Hsize.
    change (JSMap.size sc) with (idx (mkSymbol n (JSMap.size sc) w)).
    now apply in_map.
  - rewrite len_values in Hh. exists h. split; [exact Hh|].
    split; [exact Hnot|]. eexists; split; [exact Hin|]. simpl. lia.
Qed.

(** No later declaration fills the hole. *)
Lemma has_hole_declare (w : kind) (sc : FunScope) (n : string) :
  has_hole sc -> has_hole (declare w sc n).
Proof.
  intros (h & Hh & Hnot & _). exists h.
  pose proof (size_declare_le w sc n) as Hle.
  split; [lia|]. split.
  - intros Hin. apply in_map_iff in Hin as (s & Hs & Hin).
    unfold declare in Hin. apply In_values_set in Hin as [->|Hin].
    + simpl in Hs. lia.
    + apply Hnot. rewrite <- Hs. now apply in_map.
  - eexists; split; [apply In_values_declare|]. simpl. lia.
Qed.

Lemma has_hole_fold (ds : list (kind * string)) (sc : FunScope) :
  has_hole sc ->
  has_hole (fold_left (fun sc d => declare (fst d) sc (snd d)) ds sc).
Proof.
  revert sc. induction ds as [|[w n] ds IH]; intros sc H; simpl;
    [exact H | apply IH, has_hole_declare, H].
Qed.

Lemma has_hole_not_contiguous (sc : FunScope) : has_hole sc -> ~ contiguous sc.
Proof.
  intros (h & Hh & Hnot & s & Hs & Hlt) (k & Hk).
  assert (Hin : In (idx s) (map idx (JSMap.values sc))) by now apply in_map.
  apply Hk in Hin. apply Hnot, Hk. lia.
Qed.

(** C10 (amended).  A let statement on a name already in the scope replaces
    the entry in place and gives the new symbol the size of the scope as
    its index; the size counts the replaced entry.  The new index is never
    below the replaced one, and is above it when no name was redeclared
    before.  From the statement on, whatever is declared next, the indices
    of the scope are not 0, ..., k - 1 for any k; and in the scope as the
    statement leaves it the number of locals is below the highest index
    plus one. *)
Theorem C10_redeclaration (ds : list (kind * string)) (x : string) (e : Expr)
        (old : Symbol) :
  let sc := declareAll ds in
  let sc' := bst_Statement (LetStatement x e) sc in
  JSMap.get sc x = Some old ->
  JSMap.keys sc' = JSMap.keys sc
  /\ JSMap.size sc' = JSMap.size sc
  /\ JSMap.get sc' x = Some (mkSymbol x (JSMap.size sc) local)
  /\ idx old <= JSMap.size sc
  /\ (NoDup (map snd ds) -> idx old < JSMap.size sc)
  /\ (forall ds',
        ~ contiguous
            (fold_left (fun sc d => declare (fst d) sc (snd d)) ds' sc'))
  /\ countLocals (JSMap.values sc') < maxIdx sc' + 1.
Proof.
  intros sc sc' Hold.
  assert (Hhas : JSMap.has sc x = true) by (apply get_has; eauto).
  assert (Hkeys : JSMap.keys sc' = JSMap.keys sc).
  { unfold sc'. simpl. unfold declare. now rewrite keys_set, Hhas. }
  assert (Hsize : JSMap.size sc' = JSMap.size sc).
  { unfold sc'. simpl. unfold declare. now rewrite size_set, Hhas. }
  assert (Hget : JSMap.get sc' x = Some (mkSymbol x (JSMap.size sc) local)).
  { unfold sc'. simpl. unfold declare. apply get_set_same. }
  pose proof (get_In_values _ _ _ Hget) as Hin.
  repeat split; try assumption.
  - pose proof (declareAll_idx_le ds) as H.
    rewrite Forall_forall in H. apply H. eapply get_In_values; eauto.
  - intros Hnd. pose proof (declareAll_idx_lt ds Hnd) as H.
    rewrite Forall_forall in H. apply H. eapply get_In_values; eauto.
  - intros ds'. apply has_hole_not_contiguous, has_hole_fold.
    unfold sc'. simpl. now apply has_hole_redeclare.
  - pose proof (countLocals_le (JSMap.values sc')) as Hc.
    pose proof (le_maxIdx sc' _ Hin) as Hm. simpl in Hm.
    assert (len (JSMap.values sc') = JSMap.size sc').
    { unfold JSMap.size, JSMap.values, len. now rewrite length_map. }
    lia.
Qed.

(** A new name declared after the redeclaration shares its index:
    after [let x = 1; let x = 2; let y = 3;] both [x] and [y] have index 1,
    and the two locals are as many as the highest index plus one. *)
Lemma redeclaration_then_new_name :
  let sc := declareAll [(local, "x"); (local, "x"); (local, "y")] in
  sc = [("x", mkSymbol "x" 1 local); ("y", mkSymbol "y" 1 local)]
  /\ countLocals (JSMap.values sc) = 2
  /\ maxIdx sc + 1 = 2.
Proof. repeat split. Qed.

(** [let x = 1; let x = 2;] in a function with no parameter. *)
Lemma C10_redeclaration_witness :
  let ds := [(local, "x")] in
  JSMap.get (declareAll ds) "x" = Some (mkSymbol "x" 0 local)
  /\ JSMap.get (bst_Statement
                  (LetStatement "x" (Expr_binary (PrimaryExpr_num 2) []))
                  (declareAll ds)) "x"
     = Some (mkSymbol "x" 1 local)
  /\ 0 < JSMap.size (declareAll ds).
Proof.
  intros ds.
  pose proof (C10_redeclaration ds "x" (Expr_binary (PrimaryExpr_num 2) [])
                (mkSymbol "x" 0 local) eq_refl)
    as (_ & _ & Hget & _ & Hlt & _).
  split; [reflexivity|]. split; [exact Hget|].
  apply Hlt. repeat constructor. simpl; tauto.
Defined.

(** [let x = 1; let x = 2; let x = 3;]: the third statement replaces the
    symbol of index 1 by a symbol of index 1. *)
Lemma C10_counterexample_third_let :
  let body := [LetStatement "x" (Expr_binary (PrimaryExpr_num 1) []);
               LetStatement "x" (Expr_binary (PrimaryExpr_num 2) [])] in
  let sc := bst_BlockStatements body JSMap.empty in
  let sc' := bst_Statement
               (LetStatement "x" (Expr_binary (PrimaryExpr_num 3) [])) sc in
  JSMap.get sc "x" = Some (mkSymbol "x" 1 local)
  /\ JSMap.get sc' "x" = Some (mkSymbol "x" 1 local)
  /\ ~ (forall old new, JSMap.get sc "x" = Some old ->
          JSMap.get sc' "x" = Some new -> idx new <> idx old).
Proof.
  intros body sc sc'. repeat split.
  intros H. exact (H _ _ eq_refl eq_refl eq_refl).
Qed.

(** ** C8: what the encoders let through *)

(** C8 (amended).  [u32 v] is [[v]] when [v <= 127] and raises otherwise;
    [i32 v] is [[v]] when [v <= 63] and raises otherwise.  The byte emitted
    is the encoding of [v] for [0 <= v <= 127], respectively
    [0 <= v <= 63]; a negative [v] passes the guard of either encoder, and
    the byte it is stored as does not denote [v]. *)
Theorem C8_encoders_guard (v : Z) :
  (v <= 127 -> u32 v = Ok [Num v])
  /\ (127 < v -> u32 v = Err NotImplemented)
  /\ (v <= 63 -> i32 v = Ok [Num v])
  /\ (63 < v -> i32 v = Err NotImplemented)
  /\ (0 <= v <= 127 -> map uleb_byte (Uint8Array_from [v]) = [Some v])
  /\ (0 <= v <= 63 -> map sleb_byte (Uint8Array_from [v]) = [Some v])
  /\ (v < 0 ->
      u32 v = Ok [Num v] /\ i32 v = Ok [Num v]
      /\ map uleb_byte (Uint8Array_from [v]) <> [Some v]
      /\ map sleb_byte (Uint8Array_from [v]) <> [Some v]).
Proof.
  destruct (u32_spec v) as [Hu1 Hu2]. destruct (i32_spec v) as [Hi1 Hi2].
  split; [exact Hu1|]. split; [exact Hu2|].
  split; [exact Hi1|]. split; [exact Hi2|].
  split; [|split].
  - intros [H0 H1]. simpl. rewrite Z.mod_small by lia.
    unfold uleb_byte.
    replace (0 <=? v) with true by (symmetry; apply Z.leb_le; lia).
    replace (v <? 128) with true by (symmetry; apply Z.ltb_lt; lia).
    reflexivity.
  - intros [H0 H1]. simpl. rewrite Z.mod_small by lia.
    unfold sleb_byte.
    replace (0 <=? v) with true by (symmetry; apply Z.leb_le; lia).
    replace (v <? 128) with true by (symmetry; apply Z.ltb_lt; lia).
    replace (v <? 64) with true by (symmetry; apply Z.ltb_lt; lia).
    reflexivity.
  - intros Hneg. split; [apply Hu1; lia|]. split; [apply Hi1; lia|].
    pose proof (Z.mod_pos_bound v 256 eq_refl) as Hb.
    pose proof (Z.div_mod v 256) as Hd.
    split.
    + simpl. unfold uleb_byte. intros E.
      destruct ((0 <=? v mod 256) && (v mod 256 <? 128)); [|discriminate].
      inversion E as [E']. lia.
    + simpl. unfold sleb_byte. intros E.
      destruct ((0 <=? v mod 256) && (v mod 256 <? 128)); [|discriminate].
      inversion E as [E']. clear E.
      destruct (v mod 256 <? 64); lia.
Qed.

Lemma C8_encoders_guard_witness :
  (100 <= 127 /\ u32 100 = Ok [Num 100])
  /\ (-1 < 0 /\ u32 (-1) = Ok [Num (-1)])
  /\ (127 < 128 /\ u32 128 = Err NotImplemented).
Proof.
  split; [|split].
  - split; [lia|]. apply (proj1 (C8_encoders_guard 100)). lia.
  - split; [lia|].
    destruct (C8_encoders_guard (-1)) as (_ & _ & _ & _ & _ & _ & H).
    apply H. lia.
  - split; [lia|].
    apply (proj1 (proj2 (C8_encoders_guard 128))). lia.
Defined.

(** The unsigned encoder does not reject the negative input -1: it returns
    [[-1]], stored as the byte 255, which is not a complete LEB128
    number. *)
Lemma C8_counterexample_negative_input :
  u32 (-1) = Ok [Num (-1)]
  /\ Uint8Array_from [-1] = [255]
  /\ uleb_byte 255 = None
  /\ ~ (forall v, v < 0 -> exists e, u32 v = Err e).
Proof.
  repeat split. intros H. destruct (H (-1)) as (e & He); [lia|].
  discriminate.
Qed.

(** ** C4: the layout of the module *)

Lemma roni_Ok {A : Type} (a : A) : raises_only_NotImplemented (Ok a).
Proof. intros e H; discriminate. Qed.

Lemma roni_u32 (v : Z) : raises_only_NotImplemented (u32 v).
Proof.
  unfold u32. intros e. destruct (v <=? 127); intros H; inversion H.
  reflexivity.
Qed.

Lemma roni_bind {A B : Type} (r : result A) (k : A -> result B) :
  raises_only_NotImplemented r ->
  (forall a, raises_only_NotImplemented (k a)) ->
  raises_only_NotImplemented (bind r k).
Proof.
  intros Hr Hk e. destruct r as [a|e']; simpl.
  - apply Hk.
  - intros H. apply Hr. congruence.
Qed.

Lemma roni_mapM {A B : Type} (f : A -> result B) (l : list A) :
  (forall a, raises_only_NotImplemented (f a)) ->
  raises_only_NotImplemented (mapM f l).
Proof.
  intros Hf. induction l as [|a l IH]; simpl.
  - apply roni_Ok.
  - apply roni_bind; [apply Hf|]. intros b.
    apply roni_bind; [apply IH|]. intros bs. apply roni_Ok.
Qed.

Lemma roni_mapi_from {A B : Type} (g : A -> Z -> result B) (l : list A)
      (i : Z) :
  (forall a j, raises_only_NotImplemented (g a j)) ->
  raises_only_NotImplemented (mapi_from g l i).
Proof.
  intros Hg. revert i. induction l as [|a l IH]; intros i; simpl.
  - apply roni_Ok.
  - apply roni_bind; [apply Hg|]. intros b.
    apply roni_bind; [apply IH|]. intros bs. apply roni_Ok.
Qed.

Lemma roni_vec (elements : bytes) : raises_only_NotImplemented (vec elements).
Proof.
  unfold vec. apply roni_bind; [apply roni_u32 | intros; apply roni_Ok].
Qed.

Lemma roni_section (id : Z) (contents : bytes) :
  raises_only_NotImplemented (section id contents).
Proof.
  unfold section. apply roni_bind; [apply roni_u32 | intros; apply roni_Ok].
Qed.

Lemma roni_buildModule (decls : list FunctionDecl) :
  raises_only_NotImplemented (buildModule decls).
Proof.
  unfold buildModule, typesec, funcsec, exportsec, codesec, mapi.
  repeat first
    [ apply roni_Ok | apply roni_u32 | apply roni_vec | apply roni_section
    | apply roni_mapM; intros ? | apply roni_mapi_from; intros ? ?
    | apply roni_bind; [|intros ?]
    | progress unfold functype, func, code, exportdesc_func, export_, name,
        typeidx, funcidx ].
Qed.

Lemma Uint8Array_from_app (a b : list Z) :
  Uint8Array_from (a ++ b) = Uint8Array_from a ++ Uint8Array_from b.
Proof. apply map_app. Qed.

Lemma len_Uint8Array_from (l : list Z) : len (Uint8Array_from l) = len l.
Proof. unfold len, Uint8Array_from. now rewrite length_map. Qed.

(** A section survives the conversion to bytes: its id and its length are
    below 128. *)
Lemma Uint8Array_from_framed (id : Z) (contents : list Z) :
  0 <= id < 256 -> len contents <= 127 ->
  Uint8Array_from (framed id contents)
  = framed id (Uint8Array_from contents).
Proof.
  intros Hid Hlen. unfold framed. simpl.
  rewrite len_Uint8Array_from.
  pose proof (len_nonneg contents).
  now rewrite !Z.mod_small by lia.
Qed.

Lemma flatten_stringToBytes (s : string) :
  flatten (stringToBytes s)
  = map (fun c => Z.of_nat (nat_of_ascii c)) (list_ascii_of_string s).
Proof.
  unfold stringToBytes, flatten.
  induction (list_ascii_of_string s) as [|c l IH]; simpl; [reflexivity|].
  now rewrite IH.
Qed.

Lemma Uint8Array_from_stringToBytes (s : string) :
  Uint8Array_from (flatten (stringToBytes s)) = flatten (stringToBytes s).
Proof.
  rewrite flatten_stringToBytes. unfold Uint8Array_from.
  induction (list_ascii_of_string s) as [|c l IH]; simpl; [reflexivity|].
  rewrite IH. f_equal. apply Z.mod_small.
  pose proof (nat_ascii_bounded c). lia.
Qed.

Lemma exports_flatten (decls : list FunctionDecl) (i : Z)
      (exports : list bytes) :
  0 <= i ->
  mapi_from (fun f j => d <- exportdesc_func j ;; export_ (fn_name f) d)
            decls i = Ok exports ->
  Uint8Array_from (flatten (map Arr exports)) = exportEntries i decls
  /\ len exports = len decls.
Proof.
  revert i exports. induction decls as [|f decls IH]; intros i exports Hi H.
  - inversion H; subst. auto.
  - simpl in H. apply bind_Ok_inv in H as (b & Hb & H).
    apply bind_Ok_inv in H as (bs & Hbs & H). inversion H; subst; clear H.
    apply bind_Ok_inv in Hb as (d & Hd & Hb).
    unfold exportdesc_func in Hd. apply bind_Ok_inv in Hd as (ix & Hix & Hd).
    apply u32_Ok_inv in Hix as [Hle ->]. inversion Hd; subst; clear Hd.
    unfold export_ in Hb. apply bind_Ok_inv in Hb as (n & Hn & Hb).
    inversion Hb; subst; clear Hb.
    apply vec_Ok_flatten in Hn as [Hn Hlen].
    destruct (IH (i + 1) bs ltac:(lia) Hbs) as [IH1 IH2].
    split.
    + cbn [map]. rewrite flatten_cons, flatten_item_Arr.
      rewrite Uint8Array_from_app, IH1.
      cbn [exportEntries].
      assert (Hl : len (flatten (stringToBytes (fn_name f)))
                   = len (stringToBytes (fn_name f))).
      { rewrite flatten_stringToBytes. unfold stringToBytes, len.
        now rewrite !length_map. }
      rewrite Hl, (app_assoc _ [0; i]). f_equal.
      change (flatten [Arr n; Arr [Num 0; Arr [Num i]]])
        with (flatten n ++ [0; i] ++ []).
      rewrite Hn, app_nil_r, Uint8Array_from_app.
      pose proof (len_nonneg (stringToBytes (fn_name f))).
      change (Uint8Array_from (len (stringToBytes (fn_name f))
                               :: flatten (stringToBytes (fn_name f))))
        with ((len (stringToBytes (fn_name f))) mod 256
              :: Uint8Array_from (flatten (stringToBytes (fn_name f)))).
      rewrite Uint8Array_from_stringToBytes.
      change (Uint8Array_from [0; i]) with [0 mod 256; i mod 256].
      rewrite !Z.mod_small by lia. reflexivity.
    + rewrite !len_cons. lia.
Qed.

Lemma sec_Ok_flatten (id : Z) (elements s : bytes) :
  0 <= id < 256 ->
  (v <- vec elements ;; section id v) = Ok s ->
  Uint8Array_from (flatten s)
  = framed id (Uint8Array_from (len elements :: flatten elements))
  /\ len elements <= 127.
Proof.
  intros Hid H. bind_inv H.
  apply vec_Ok_flatten in Hx as [Hv Hle].
  apply section_Ok_flatten in H as [Hs Hlen].
  rewrite Hs, Uint8Array_from_framed, Hv by assumption. auto.
Qed.

Lemma flatten_module (t f e c : bytes) :
  flatten (module [Arr t; Arr f; Arr e; Arr c])
  = header ++ flatten t ++ flatten f ++ flatten e ++ flatten c.
Proof.
  unfold module.
  rewrite !flatten_cons, !flatten_item_Arr, !flatten_cons, !flatten_item_Arr.
  change (flatten []) with (@nil Z). rewrite !app_nil_r.
  rewrite app_assoc. reflexivity.
Qed.

(** C4 (amended).  Whenever [buildModule] returns, its result is the 8-byte
    header, the magic [\0asm] and the version 1 in little-endian order,
    followed by the type section (id 1), the function section (id 3), the
    export section (id 7) and the code section (id 10), in this order and
    with nothing else; each section is its id, the byte length of its
    contents and its contents.  The export section holds the number of
    functions and one entry for each function of the list, in order: its
    name and its position in the list.  [buildModule] does not return only
    when an encoder raises its error. *)
Theorem C4_module_layout (decls : list FunctionDecl) :
  (forall out, buildModule decls = Ok out ->
     exists ty fn cd,
       out = header ++ framed 1 ty ++ framed 3 fn
             ++ framed 7 (len decls :: exportEntries 0 decls)
             ++ framed 10 cd)
  /\ raises_only_NotImplemented (buildModule decls).
Proof.
  split; [|apply roni_buildModule].
  intros out H. unfold buildModule in H.
  apply bind_Ok_inv in H as (types & _ & H).
  apply bind_Ok_inv in H as (funcs & _ & H).
  apply bind_Ok_inv in H as (codes & _ & H).
  apply bind_Ok_inv in H as (exports & Hexports & H).
  apply bind_Ok_inv in H as (t & Ht & H).
  apply bind_Ok_inv in H as (f & Hf & H).
  apply bind_Ok_inv in H as (e & He & H).
  apply bind_Ok_inv in H as (c & Hc & H).
  assert (Hout : out = Uint8Array_from
                         (flatten (module [Arr t; Arr f; Arr e; Arr c])))
    by (cbv zeta in H; congruence).
  clear H. subst out.
  apply sec_Ok_flatten in Ht as [Ht _]; [|unfold SECTION_ID_TYPE; lia].
  apply sec_Ok_flatten in Hf as [Hf _]; [|unfold SECTION_ID_FUNCTION; lia].
  apply sec_Ok_flatten in He as [He Hn]; [|unfold SECTION_ID_EXPORT; lia].
  apply sec_Ok_flatten in Hc as [Hc _]; [|unfold SECTION_ID_CODE; lia].
  apply exports_flatten in Hexports as [Hentries Hcount]; [|lia].
  rewrite flatten_module, !Uint8Array_from_app, Ht, Hf, He, Hc.
  do 3 eexists. f_equal. f_equal. f_equal. f_equal.
  change (Uint8Array_from (len (map Arr exports) :: flatten (map Arr exports)))
    with (len (map Arr exports) mod 256
          :: Uint8Array_from (flatten (map Arr exports))).
  rewrite Hentries.
  assert (Hl : len (map Arr exports) = len decls).
  { rewrite <- Hcount. unfold len. now rewrite length_map. }
  rewrite Hl in *. pose proof (len_nonneg decls).
  rewrite Z.mod_small by lia. reflexivity.
Qed.

Lemma C4_module_layout_witness :
  buildModule test_functionDecls
  = Ok [0; 97; 115; 109; 1; 0; 0; 0;
        1; 10; 2; 96; 0; 1; 127; 96; 1; 127; 1; 127;
        3; 3; 2; 0; 1;
        7; 17; 2; 4; 109; 97; 105; 110; 0; 0;
               6; 98; 97; 99; 107; 117; 112; 0; 1;
        10; 15; 2; 8; 1; 1; 127; 65; 42; 16; 1; 11;
                4; 0; 65; 43; 11]
  /\ exists ty fn cd,
       [0; 97; 115; 109; 1; 0; 0; 0;
        1; 10; 2; 96; 0; 1; 127; 96; 1; 127; 1; 127;
        3; 3; 2; 0; 1;
        7; 17; 2; 4; 109; 97; 105; 110; 0; 0;
               6; 98; 97; 99; 107; 117; 112; 0; 1;
        10; 15; 2; 8; 1; 1; 127; 65; 42; 16; 1; 11;
                4; 0; 65; 43; 11]
       = header ++ framed 1 ty ++ framed 3 fn
         ++ framed 7 (len test_functionDecls
                      :: exportEntries 0 test_functionDecls)
         ++ framed 10 cd.
Proof.
  split; [reflexivity|].
  exact (proj1 (C4_module_layout test_functionDecls) _ eq_refl).
Defined.

Lemma C4_counterexample_no_output :
  buildModule long_functionDecls = Err NotImplemented
  /\ ~ (exists out, buildModule long_functionDecls = Ok out).
Proof.
  assert (H : buildModule long_functionDecls = Err NotImplemented)
    by reflexivity.
  split; [exact H|]. intros (out & Hout). rewrite H in Hout. discriminate.
Qed.

(** * Further properties *)

(** ** The assembler ([chapter01.ts]) *)

Lemma land_0xff (v : Z) : Z.land v 0xff = v mod 256.
Proof. change 0xff with (Z.ones 8). now rewrite Z.land_ones by lia. Qed.

Lemma shiftr_div (v : Z) (n : Z) : 0 <= n -> Z.shiftr v n = v / 2 ^ n.
Proof. intros Hn. now apply Z.shiftr_div_pow2. Qed.

(** X1.  [int32ToBytes] writes its argument as a 32-bit two's complement
    number, least significant byte first: for every integer [v] it returns
    four bytes, each between 0 and 255, whose little-endian value is
    [v mod 2^32]. *)
Theorem int32ToBytes_little_endian (v : Z) :
  let bs := flatten (int32ToBytes v) in
  List.length bs = 4%nat
  /\ Forall (fun b => 0 <= b < 256) bs
  /\ le_value bs = v mod 2 ^ 32.
Proof.
  cbv zeta. unfold int32ToBytes. cbn [flatten flat_map flatten_item app].
  rewrite !land_0xff, !shiftr_div by lia.
  split; [reflexivity|]. split.
  - repeat constructor; apply Z.mod_pos_bound; lia.
  - cbn [le_value fold_right].
    change (2 ^ 8) with 256. change (2 ^ 16) with 65536.
    change (2 ^ 24) with 16777216. change (2 ^ 32) with 4294967296.
    Z.to_euclidean_division_equations. lia.
Qed.

Lemma app_inv_length {A : Type} (a b c d : list A) :
  List.length a = List.length b -> a ++ c = b ++ d -> a = b /\ c = d.
Proof.
  revert b. induction a as [|x a IH]; intros [|y b] Hl H; try discriminate.
  - now split.
  - cbn [app] in H. injection H as Hx H. injection Hl as Hl.
    destruct (IH b Hl H) as [-> ->]. now subst.
Qed.

Lemma name_Ok_flatten (s : string) (b : bytes) :
  name s = Ok b ->
  flatten b = len (flatten (stringToBytes s)) :: flatten (stringToBytes s).
Proof.
  intros H. apply vec_Ok_flatten in H as [H _]. rewrite H. f_equal.
  rewrite flatten_stringToBytes. unfold stringToBytes, len.
  now rewrite !length_map.
Qed.

Lemma flatten_Num (l : list Z) : flatten (map Num l) = l.
Proof.
  induction l as [|v l IH]; [reflexivity|].
  rewrite map_cons, flatten_cons, IH. reflexivity.
Qed.

(** X2.  A vector of bytes can be read back from the front of a byte
    stream: when two sequences of bytes are encoded by [vec], each
    followed by arbitrary bytes, and the streams are equal, the two
    sequences are equal and so are the bytes that follow.  For [name] this
    gives the bytes of the name as [stringToBytes] returns them, not the
    string: two strings with the same bytes have the same encoding. *)
Theorem name_decodable :
  (forall (bs1 bs2 : list Z) (v1 v2 : bytes) (r1 r2 : list Z),
      vec (map Num bs1) = Ok v1 -> vec (map Num bs2) = Ok v2 ->
      flatten v1 ++ r1 = flatten v2 ++ r2 ->
      bs1 = bs2 /\ r1 = r2)
  /\ (forall (s1 s2 : string) (b1 b2 : bytes) (r1 r2 : list Z),
        name s1 = Ok b1 -> name s2 = Ok b2 ->
        flatten b1 ++ r1 = flatten b2 ++ r2 ->
        flatten (stringToBytes s1) = flatten (stringToBytes s2) /\ r1 = r2).
Proof.
  split.
  - intros bs1 bs2 v1 v2 r1 r2 H1 H2 Heq.
    apply vec_Ok_flatten in H1 as [H1 _]. apply vec_Ok_flatten in H2 as [H2 _].
    rewrite H1, H2, !flatten_Num in Heq. cbn [app] in Heq.
    injection Heq as Hlen Happ.
    apply app_inv_length in Happ; [exact Happ|].
    unfold len in Hlen. rewrite !length_map in Hlen. lia.
  - intros s1 s2 b1 b2 r1 r2 H1 H2 Heq.
    rewrite (name_Ok_flatten _ _ H1), (name_Ok_flatten _ _ H2) in Heq.
    cbn [app] in Heq. injection Heq as Hlen Happ.
    apply app_inv_length in Happ; [exact Happ|].
    unfold len in Hlen. lia.
Qed.

Lemma name_decodable_witness :
  vec (map Num [109; 97]) = Ok (Arr [Num 2] :: map Num [109; 97])
  /\ name "main" = Ok (Arr [Num 4] :: stringToBytes "main")
  /\ ([109; 97] = [109; 97] /\ [0; 0] = [0; 0])
  /\ (flatten (stringToBytes "main") = flatten (stringToBytes "main")
      /\ [0; 0] = [0; 0]).
Proof.
  split; [reflexivity|]. split; [reflexivity|]. split.
  - apply (proj1 name_decodable [109; 97] [109; 97]
             (Arr [Num 2] :: map Num [109; 97])
             (Arr [Num 2] :: map Num [109; 97]) [0; 0] [0; 0]);
      reflexivity.
  - apply (proj2 name_decodable "main" "main"
             (Arr [Num 4] :: stringToBytes "main")
             (Arr [Num 4] :: stringToBytes "main") [0; 0] [0; 0]);
      reflexivity.
Defined.

(** ** The module builder ([buildModule], [chapter05.ts]) *)

Lemma flatten_map_Num (l : list Z) : flatten (map Num l) = l.
Proof.
  induction l as [|v l IH]; [reflexivity|].
  rewrite map_cons, flatten_cons, IH. reflexivity.
Qed.

Lemma len_map {A B : Type} (f : A -> B) (l : list A) : len (map f l) = len l.
Proof. unfold len. now rewrite length_map. Qed.

Lemma vec_eq (elements : bytes) :
  vec elements
  = if len elements <=? 127 then Ok (Arr [Num (len elements)] :: elements)
    else Err NotImplemented.
Proof. unfold vec, u32. now destruct (len elements <=? 127). Qed.

Lemma section_eq (id : Z) (contents : bytes) :
  section id contents
  = if len (flatten contents) <=? 127
    then Ok [Num id; Arr [Num (len (flatten contents))]; Arr contents]
    else Err NotImplemented.
Proof.
  unfold section, u32. cbv zeta. now destruct (len (flatten contents) <=? 127).
Qed.

(** A section built from a vector of entries. *)
Lemma sec_eq (id : Z) (elements : bytes) :
  (v <- vec elements ;; section id v)
  = if (len elements <=? 127) && (1 + len (flatten elements) <=? 127)
    then Ok [Num id; Arr [Num (1 + len (flatten elements))];
             Arr (Arr [Num (len elements)] :: elements)]
    else Err NotImplemented.
Proof.
  rewrite vec_eq. destruct (len elements <=? 127); [|reflexivity].
  cbn [bind andb]. rewrite section_eq.
  rewrite flatten_cons, flatten_item_Arr.
  cbn [flatten flat_map flatten_item app].
  fold (flatten elements). rewrite len_cons. reflexivity.
Qed.

Lemma mapM_eq {A B : Type} (f : A -> result B) (p : A -> bool) (g : A -> B)
      (l : list A) :
  (forall a, f a = if p a then Ok (g a) else Err NotImplemented) ->
  mapM f l = if forallb p l then Ok (map g l) else Err NotImplemented.
Proof.
  intros Hf. induction l as [|a l IH]; [reflexivity|].
  cbn [mapM forallb map]. change (mapM f l) with (mapM f l) in *.
  rewrite Hf. destruct (p a); [|reflexivity]. cbn [bind andb].
  fold (mapM f). rewrite IH. now destruct (forallb p l).
Qed.

Lemma mapi_from_mapM {A B : Type} (g : A -> Z -> result B) (l : list A)
      (i : nat) :
  mapi_from g l (Z.of_nat i)
  = mapM (fun aj => g (fst aj) (Z.of_nat (snd aj)))
         (combine l (seq i (List.length l))).
Proof.
  revert i. induction l as [|a l IH]; intros i; [reflexivity|].
  cbn [mapi_from List.length seq combine mapM fst snd].
  replace (Z.of_nat i + 1) with (Z.of_nat (S i)) by lia.
  now rewrite IH.
Qed.

Lemma forallb_indexed {A : Type} (p : A -> bool) (l : list A) (i : nat) :
  Z.of_nat i + len l <= 128 ->
  forallb (fun aj => (Z.of_nat (snd aj) <=? 127) && p (fst aj))
          (combine l (seq i (List.length l)))
  = forallb p l.
Proof.
  revert i. induction l as [|a l IH]; intros i Hi; [reflexivity|].
  cbn [List.length seq combine forallb fst snd].
  rewrite len_cons in Hi. pose proof (len_nonneg l).
  rewrite IH by lia.
  replace (Z.of_nat i <=? 127) with true by (symmetry; apply Z.leb_le; lia).
  reflexivity.
Qed.

Lemma forallb_weaken_false {A : Type} (p q : A -> bool) (l : list A) :
  (forall a, q a = true -> p a = true) ->
  forallb p l = false -> forallb q l = false.
Proof.
  intros Hpq H. destruct (forallb q l) eqn:Hq; [|reflexivity].
  rewrite forallb_forall in Hq.
  assert (Hp : forallb p l = true) by (apply forallb_forall; auto).
  congruence.
Qed.

Lemma len_flatten_stringToBytes (s : string) :
  len (flatten (stringToBytes s)) = len (stringToBytes s).
Proof.
  rewrite flatten_stringToBytes. unfold stringToBytes, len.
  now rewrite !length_map.
Qed.

(** What each function contributes, as the source computes it. *)
Lemma functype_eq (p : list Z) (r : Z) :
  functype (map Num p) [Num r]
  = if len p <=? 127
    then Ok [Num 0x60; Arr (Arr [Num (len p)] :: map Num p);
             Arr [Arr [Num 1]; Num r]]
    else Err NotImplemented.
Proof.
  unfold functype. rewrite !vec_eq, len_map.
  destruct (len p <=? 127); reflexivity.
Qed.

Lemma code_func_eq (locals body : bytes) :
  (fn <- func locals body ;; code fn)
  = if (len locals <=? 127)
       && (1 + len (flatten locals) + len (flatten body) <=? 127)
    then Ok [Arr [Num (1 + len (flatten locals) + len (flatten body))];
             Arr [Arr (Arr [Num (len locals)] :: locals); Arr body]]
    else Err NotImplemented.
Proof.
  unfold func, code. rewrite vec_eq.
  destruct (len locals <=? 127); [|reflexivity]. cbn [bind andb]. cbv zeta.
  assert (Hl : len (flatten [Arr (Arr [Num (len locals)] :: locals); Arr body])
               = 1 + len (flatten locals) + len (flatten body)).
  { rewrite !flatten_cons, !flatten_item_Arr, flatten_cons, flatten_item_Arr.
    change (flatten []) with (@nil Z). rewrite app_nil_r.
    cbn [flatten flat_map flatten_item app]. fold (flatten locals).
    rewrite len_cons, len_app. lia. }
  rewrite Hl. unfold u32.
  destruct (1 + len (flatten locals) + len (flatten body) <=? 127); reflexivity.
Qed.

Lemma export_eq (nm : string) (j : Z) :
  (d <- exportdesc_func j ;; export_ nm d)
  = if (j <=? 127) && (len (stringToBytes nm) <=? 127)
    then Ok [Arr (Arr [Num (len (stringToBytes nm))] :: stringToBytes nm);
             Arr [Num 0; Arr [Num j]]]
    else Err NotImplemented.
Proof.
  unfold exportdesc_func, funcidx, u32, export_, name. rewrite vec_eq.
  destruct (j <=? 127); [|reflexivity]. cbn [bind andb].
  destruct (len (stringToBytes nm) <=? 127); reflexivity.
Qed.

Lemma typeidx_eq (j : Z) :
  typeidx j = if (j <=? 127) && true then Ok [Num j] else Err NotImplemented.
Proof. unfold typeidx, u32. now destruct (j <=? 127). Qed.

Lemma flatten_map_Arr {A : Type} (g : A -> bytes) (l : list A) :
  flatten (map Arr (map g l)) = flat_map (fun a => flatten (g a)) l.
Proof.
  induction l as [|a l IH]; [reflexivity|].
  cbn [map flat_map]. now rewrite flatten_cons, flatten_item_Arr, IH.
Qed.

Lemma flat_map_ext_eq {A B : Type} (f g : A -> list B) (l : list A) :
  (forall a, f a = g a) -> flat_map f l = flat_map g l.
Proof.
  intros H. induction l as [|a l IH]; cbn; [reflexivity|]. now rewrite H, IH.
Qed.

Lemma flat_map_indices {A : Type} (l : list A) (i : nat) :
  flat_map (fun aj : A * nat => flatten [Num (Z.of_nat (snd aj))])
           (combine l (seq i (List.length l)))
  = map Z.of_nat (seq i (List.length l)).
Proof.
  revert i. induction l as [|a l IH]; intros i; [reflexivity|].
  cbn [List.length seq combine flat_map map snd]. rewrite IH. reflexivity.
Qed.

Lemma flat_map_exports (decls : list FunctionDecl) (i : nat) :
  flat_map (fun aj : FunctionDecl * nat =>
              flatten [Arr (Arr [Num (len (stringToBytes (fn_name (fst aj))))]
                            :: stringToBytes (fn_name (fst aj)));
                       Arr [Num 0; Arr [Num (Z.of_nat (snd aj))]]])
           (combine decls (seq i (List.length decls)))
  = exportEntries (Z.of_nat i) decls.
Proof.
  revert i. induction decls as [|f decls IH]; intros i; [reflexivity|].
  cbn [List.length seq combine flat_map exportEntries fst snd].
  rewrite IH. replace (Z.of_nat i + 1) with (Z.of_nat (S i)) by lia.
  rewrite len_flatten_stringToBytes.
  rewrite !flatten_cons, !flatten_item_Arr, !flatten_cons, !flatten_item_Arr.
  change (flatten []) with (@nil Z). rewrite !app_nil_r.
  cbn [flatten_item flatten flat_map app].
  fold (flatten (stringToBytes (fn_name f))).
  rewrite <- !app_assoc. reflexivity.
Qed.

Lemma mapi_mapM {A B : Type} (g : A -> Z -> result B) (l : list A) :
  mapi g l
  = mapM (fun aj => g (fst aj) (Z.of_nat (snd aj)))
         (combine l (seq 0 (List.length l))).
Proof. exact (mapi_from_mapM g l 0). Qed.

Lemma len_seq (i n : nat) : len (map Z.of_nat (seq i n)) = Z.of_nat n.
Proof. unfold len. now rewrite length_map, length_seq. Qed.

Lemma len_typeEntry (f : FunctionDecl) :
  len (typeEntry f) = 4 + len (paramTypes f).
Proof.
  unfold typeEntry, len. rewrite !length_app. cbn [List.length]. lia.
Qed.

Lemma len_flat_map_typeEntry (decls : list FunctionDecl) :
  4 * len decls <= len (flat_map typeEntry decls).
Proof.
  induction decls as [|f decls IH]; [unfold len; simpl; lia|].
  cbn [flat_map]. rewrite len_app, len_cons, len_typeEntry.
  pose proof (len_nonneg (paramTypes f)). lia.
Qed.

Lemma flatten_typeFrag (f : FunctionDecl) :
  flatten [Num 0x60;
           Arr (Arr [Num (len (paramTypes f))] :: map Num (paramTypes f));
           Arr [Arr [Num 1]; Num (resultType f)]]
  = typeEntry f.
Proof.
  rewrite !flatten_cons, !flatten_item_Arr, !flatten_cons, !flatten_item_Arr.
  rewrite flatten_map_Num. reflexivity.
Qed.

Lemma flatten_codeFrag (f : FunctionDecl) :
  flatten [Arr [Num (1 + len (flatten (fn_locals f))
                     + len (flatten (body f)))];
           Arr [Arr (Arr [Num (len (fn_locals f))] :: fn_locals f);
                Arr (body f)]]
  = codeEntry f.
Proof.
  unfold codeEntry, funcBytes.
  rewrite !flatten_cons, !flatten_item_Arr, !flatten_cons, !flatten_item_Arr.
  rewrite flatten_cons, flatten_item_Arr.
  change (flatten []) with (@nil Z). rewrite !app_nil_r.
  rewrite len_cons, len_app.
  cbn [flatten flat_map flatten_item app]. fold (flatten (fn_locals f)).
  f_equal. lia.
Qed.

Lemma flat_map_typeFrag (decls : list FunctionDecl) :
  flat_map (fun f =>
     flatten [Num 0x60;
              Arr (Arr [Num (len (paramTypes f))] :: map Num (paramTypes f));
              Arr [Arr [Num 1]; Num (resultType f)]]) decls
  = flat_map typeEntry decls.
Proof. apply flat_map_ext_eq, flatten_typeFrag. Qed.

Lemma flat_map_codeFrag (decls : list FunctionDecl) :
  flat_map (fun f =>
     flatten [Arr [Num (1 + len (flatten (fn_locals f))
                        + len (flatten (body f)))];
              Arr [Arr (Arr [Num (len (fn_locals f))] :: fn_locals f);
                   Arr (body f)]]) decls
  = flat_map codeEntry decls.
Proof. apply flat_map_ext_eq, flatten_codeFrag. Qed.

Lemma fitsFunction_iff (f : FunctionDecl) :
  fitsFunction f
  = (len (paramTypes f) <=? 127)
    && ((len (fn_locals f) <=? 127)
        && (1 + len (flatten (fn_locals f)) + len (flatten (body f)) <=? 127))
    && (len (stringToBytes (fn_name f)) <=? 127).
Proof.
  unfold fitsFunction, funcBytes. rewrite len_flatten_stringToBytes.
  rewrite len_cons, len_app.
  replace (1 + (len (flatten (fn_locals f)) + len (flatten (body f))))
    with (1 + len (flatten (fn_locals f)) + len (flatten (body f))) by lia.
  now rewrite !andb_assoc.
Qed.

Lemma forallb_fitsFunction (decls : list FunctionDecl) :
  forallb fitsFunction decls
  = forallb (fun f => len (paramTypes f) <=? 127) decls
    && forallb (fun f => (len (fn_locals f) <=? 127)
                         && (1 + len (flatten (fn_locals f))
                             + len (flatten (body f)) <=? 127)) decls
    && forallb (fun f => len (stringToBytes (fn_name f)) <=? 127) decls.
Proof.
  induction decls as [|f decls IH]; [reflexivity|].
  cbn [forallb]. rewrite IH, fitsFunction_iff.
  destruct (len (paramTypes f) <=? 127); cbn [andb]; [|reflexivity].
  destruct ((len (fn_locals f) <=? 127)
            && (1 + len (flatten (fn_locals f)) + len (flatten (body f))
                <=? 127)); cbn [andb]; [|now rewrite andb_false_r].
  destruct (len (stringToBytes (fn_name f)) <=? 127); cbn [andb];
    [reflexivity|now rewrite !andb_false_r].
Qed.

Lemma len_combine_seq {A : Type} (l : list A) (i : nat) :
  len (combine l (seq i (List.length l))) = len l.
Proof. unfold len. rewrite length_combine, length_seq. lia. Qed.

Lemma buildModule_spec (decls : list FunctionDecl) :
  buildModule decls
  = if fits decls then Ok (Uint8Array_from (moduleBytes decls))
    else Err NotImplemented.
Proof.
  unfold buildModule. rewrite !mapi_mapM.
  rewrite (mapM_eq _ (fun f => len (paramTypes f) <=? 127)
             (fun f => [Num 0x60;
                        Arr (Arr [Num (len (paramTypes f))]
                             :: map Num (paramTypes f));
                        Arr [Arr [Num 1]; Num (resultType f)]]))
    by (intros; apply functype_eq).
  rewrite (mapM_eq _ (fun aj : FunctionDecl * nat =>
                        (Z.of_nat (snd aj) <=? 127) && true)
             (fun aj => [Num (Z.of_nat (snd aj))]))
    by (intros; apply typeidx_eq).
  rewrite (mapM_eq _ (fun f => (len (fn_locals f) <=? 127)
                               && (1 + len (flatten (fn_locals f))
                                   + len (flatten (body f)) <=? 127))
             (fun f => [Arr [Num (1 + len (flatten (fn_locals f))
                                  + len (flatten (body f)))];
                        Arr [Arr (Arr [Num (len (fn_locals f))]
                                  :: fn_locals f);
                             Arr (body f)]]))
    by (intros; apply code_func_eq).
  rewrite (mapM_eq _ (fun aj : FunctionDecl * nat =>
                        (Z.of_nat (snd aj) <=? 127)
                        && (len (stringToBytes (fn_name (fst aj))) <=? 127))
             (fun aj => [Arr (Arr [Num (len (stringToBytes
                                                (fn_name (fst aj))))]
                              :: stringToBytes (fn_name (fst aj)));
                         Arr [Num 0; Arr [Num (Z.of_nat (snd aj))]]]))
    by (intros; apply export_eq).
  unfold fits. rewrite forallb_fitsFunction.
  pose proof (len_nonneg decls) as Hn0.
  destruct (1 + len decls <=? 127) eqn:Hn.
  - apply Z.leb_le in Hn.
    rewrite (forallb_indexed (fun _ => true)) by (cbn; lia).
    rewrite (forallb_indexed
               (fun f => len (stringToBytes (fn_name f)) <=? 127))
      by (cbn; lia).
    replace (forallb (fun _ : FunctionDecl => true) decls) with true
      by (symmetry; apply forallb_forall; reflexivity).
    destruct (forallb (fun f => len (paramTypes f) <=? 127) decls);
      cbn [bind andb]; [|reflexivity].
    destruct (forallb _ decls); cbn [bind andb]; [|reflexivity].
    destruct (forallb _ decls); cbn [bind andb]; [|reflexivity].
    unfold typesec, funcsec, exportsec, codesec. rewrite !sec_eq.
    rewrite !flatten_map_Arr, !len_map.
    rewrite flat_map_typeFrag, flat_map_codeFrag.
    rewrite flat_map_indices, flat_map_exports.
    rewrite len_combine_seq, len_seq. fold (len decls).
    replace (len decls <=? 127) with true by (symmetry; apply Z.leb_le; lia).
    replace (1 + len decls <=? 127) with true
      by (symmetry; apply Z.leb_le; lia).
    change (Z.of_nat 0) with 0. cbn [andb].
    destruct (1 + len (flat_map typeEntry decls) <=? 127); cbn [bind andb];
      [|reflexivity].
    destruct (1 + len (exportEntries 0 decls) <=? 127); cbn [bind andb];
      [|reflexivity].
    destruct (1 + len (flat_map codeEntry decls) <=? 127); cbn [bind andb];
      [|reflexivity].
    f_equal. f_equal. rewrite flatten_module. unfold moduleBytes, framed.
    cbv zeta.
    rewrite !flatten_cons, !flatten_item_Arr, !flatten_cons, !flatten_item_Arr.
    rewrite !flatten_cons, !flatten_map_Arr.
    rewrite flat_map_typeFrag, flat_map_codeFrag, flat_map_indices.
    rewrite (flat_map_exports decls 0).
    change (flatten []) with (@nil Z). cbn [flatten_item].
    rewrite !app_nil_r, !len_cons, len_seq. fold (len decls).
    change (Z.of_nat 0) with 0.
    unfold SECTION_ID_TYPE, SECTION_ID_FUNCTION, SECTION_ID_EXPORT,
      SECTION_ID_CODE.
    cbn [app]. reflexivity.
  - rewrite !andb_false_r. cbn [andb].
    destruct (forallb (fun f => len (paramTypes f) <=? 127) decls);
      cbn [bind andb]; [|reflexivity].
    destruct (forallb _ (combine _ _)); cbn [bind andb]; [|reflexivity].
    destruct (forallb _ decls); cbn [bind andb]; [|reflexivity].
    destruct (forallb _ (combine _ _)); cbn [bind andb]; [|reflexivity].
    unfold typesec, funcsec, exportsec, codesec. rewrite !sec_eq.
    rewrite !flatten_map_Arr, !len_map.
    rewrite flat_map_indices, len_combine_seq, len_seq. fold (len decls).
    rewrite Hn, andb_false_r.
    destruct (_ && _); reflexivity.
Qed.

(** X3.  [buildModule] returns exactly when every count and every byte
    length of the module is at most 127, and otherwise raises the error of
    the encoders.  What it returns is the header followed by the type
    section (one entry [0x60, number of parameters, parameter types, 1,
    result type] per function), the function section (the indices
    0, 1, ..., n - 1: function [i] has type [i]), the export section and
    the code section (per function: byte length, number of local groups,
    local groups, body), every number stored modulo 256. *)
Theorem buildModule_layout (decls : list FunctionDecl) :
  buildModule decls
  = if fits decls then Ok (Uint8Array_from (moduleBytes decls))
    else Err NotImplemented.
Proof. exact (buildModule_spec decls). Qed.

Lemma fits_inv (decls : list FunctionDecl) :
  fits decls = true ->
  1 + len (flat_map typeEntry decls) <= 127
  /\ 1 + len decls <= 127
  /\ 1 + len (exportEntries 0 decls) <= 127
  /\ 1 + len (flat_map codeEntry decls) <= 127.
Proof.
  unfold fits. rewrite !andb_true_iff, !Z.leb_le. tauto.
Qed.

Lemma Uint8Array_from_bounds (l : list Z) :
  Forall (fun b => 0 <= b < 256) (Uint8Array_from l).
Proof.
  unfold Uint8Array_from. apply Forall_forall. intros b Hb.
  apply in_map_iff in Hb as (v & <- & _). apply Z.mod_pos_bound. lia.
Qed.

(** X4.  A module that [buildModule] returns has at most 31 functions and
    at most 524 bytes, each between 0 and 255. *)
Theorem buildModule_bounds (decls : list FunctionDecl) (out : list Z)
        (H : buildModule decls = Ok out) :
  len decls <= 31 /\ len out <= 524 /\ Forall (fun b => 0 <= b < 256) out.
Proof.
  rewrite buildModule_spec in H. destruct (fits decls) eqn:Hfits;
    [|discriminate].
  assert (Hout : out = Uint8Array_from (moduleBytes decls)) by congruence.
  subst out. clear H.
  apply fits_inv in Hfits as (Ht & Hf & He & Hc).
  pose proof (len_flat_map_typeEntry decls) as H4.
  split; [lia|]. split; [|apply Uint8Array_from_bounds].
  rewrite len_Uint8Array_from. unfold moduleBytes, framed. cbv zeta.
  rewrite !len_app, !len_cons, len_seq. fold (len decls).
  change (len header) with 8. lia.
Qed.

Lemma buildModule_bounds_witness :
  buildModule test_functionDecls
  = Ok (Uint8Array_from (moduleBytes test_functionDecls))
  /\ len test_functionDecls <= 31
  /\ len (Uint8Array_from (moduleBytes test_functionDecls)) <= 524
  /\ Forall (fun b => 0 <= b < 256)
            (Uint8Array_from (moduleBytes test_functionDecls)).
Proof.
  split; [reflexivity|].
  apply (buildModule_bounds test_functionDecls). reflexivity.
Defined.

Lemma sameFlat_entries (ds ds' : list FunctionDecl) :
  Forall2 sameFlat ds ds' ->
  List.length ds = List.length ds'
  /\ flat_map typeEntry ds = flat_map typeEntry ds'
  /\ flat_map codeEntry ds = flat_map codeEntry ds'
  /\ (forall i, exportEntries i ds = exportEntries i ds')
  /\ forallb fitsFunction ds = forallb fitsFunction ds'.
Proof.
  induction 1 as [|f g ds ds' Hfg _ (IHn & IHt & IHc & IHe & IHf)].
  - repeat split; reflexivity.
  - destruct Hfg as (Hn & Hp & Hr & Hl & Hfl & Hb).
    assert (Hfb : funcBytes f = funcBytes g)
      by (unfold funcBytes; now rewrite Hl, Hfl, Hb).
    repeat split.
    + cbn [List.length]. now rewrite IHn.
    + cbn [flat_map]. unfold typeEntry at 1 3. now rewrite Hp, Hr, IHt.
    + cbn [flat_map]. unfold codeEntry at 1 3. now rewrite Hfb, IHc.
    + intros i. cbn [exportEntries]. now rewrite Hn, IHe.
    + cbn [forallb]. unfold fitsFunction at 1 3.
      now rewrite Hp, Hl, Hfb, Hn, IHf.
Qed.

Lemma buildModule_sameFlat (ds ds' : list FunctionDecl) :
  Forall2 sameFlat ds ds' -> buildModule ds = buildModule ds'.
Proof.
  intros H. apply sameFlat_entries in H as (Hn & Ht & Hc & He & Hf).
  rewrite !buildModule_spec. unfold fits, moduleBytes, len.
  now rewrite Hf, Ht, Hc, He, Hn.
Qed.

(** ** The symbol table ([buildSymbolTable], [chapter05.ts]) *)

Lemma keys_fold_declare (w : kind) (names : list string) (sc : FunScope)
      (x : string) :
  In x (JSMap.keys (fold_left (declare w) names sc))
  <-> In x (JSMap.keys sc) \/ In x names.
Proof.
  revert sc. induction names as [|n names IH]; intros sc; cbn [fold_left].
  - cbn [In]. tauto.
  - rewrite IH. unfold declare. cbv zeta. rewrite keys_set.
    destruct (JSMap.has sc n) eqn:Hn.
    + apply has_In_keys in Hn. cbn [In]. split; [tauto|].
      intros [H|[<-|H]]; auto.
    + rewrite in_app_iff. cbn [In]. tauto.
Qed.

Lemma get_fold_declare_other (w : kind) (names : list string) (sc : FunScope)
      (x : string) :
  ~ In x names -> JSMap.get (fold_left (declare w) names sc) x = JSMap.get sc x.
Proof.
  revert sc. induction names as [|n names IH]; intros sc Hx; [reflexivity|].
  cbn [fold_left]. rewrite IH by (cbn [In] in Hx; tauto).
  unfold declare. cbv zeta. apply get_set_other.
  intros ->. apply Hx. now left.
Qed.

Lemma get_fold_declare_In (w : kind) (names : list string) (sc : FunScope)
      (x : string) :
  In x names ->
  exists i, JSMap.get (fold_left (declare w) names sc) x
            = Some (mkSymbol x i w).
Proof.
  revert sc. induction names as [|n names IH]; intros sc Hx; [destruct Hx|].
  cbn [fold_left]. destruct (in_dec string_dec x names) as [Hin|Hnin].
  - now apply IH.
  - destruct Hx as [->|Hx]; [|contradiction].
    rewrite get_fold_declare_other by assumption.
    unfold declare. cbv zeta. rewrite get_set_same. eauto.
Qed.

(** X5.  Scoping is flat and does not depend on position: a name is in the
    scope of a function exactly when it is one of its parameters or the
    target of a let statement that the walk reaches, wherever in the body
    that statement stands. *)
Theorem functionScope_has (d : FunctionDeclNode) (x : string) :
  JSMap.has (functionScope d) x = true
  <-> In x (fd_params d) \/ In x (walked_BlockExpr (fd_body d)).
Proof.
  rewrite has_In_keys, functionScope_fold, !keys_fold_declare.
  cbn. tauto.
Qed.

(** X6.  The symbol stored under a name carries that name.  It is a local
    exactly when a let statement that the walk reaches declares the name,
    also when the name is a parameter as well; it is a parameter exactly
    when the name is a parameter that no such let statement declares. *)
Theorem functionScope_kind (d : FunctionDeclNode) (x : string) (s : Symbol)
        (H : JSMap.get (functionScope d) x = Some s) :
  sym_name s = x
  /\ (what s = local <-> In x (walked_BlockExpr (fd_body d)))
  /\ (what s = param
      <-> In x (fd_params d) /\ ~ In x (walked_BlockExpr (fd_body d))).
Proof.
  rewrite functionScope_fold in H.
  destruct (in_dec string_dec x (walked_BlockExpr (fd_body d))) as [Hw|Hw].
  - destruct (get_fold_declare_In local _
                (fold_left (declare param) (fd_params d) JSMap.empty) x Hw)
      as [i Hi].
    rewrite Hi in H. injection H as <-. cbn [sym_name what].
    repeat split; try tauto; try discriminate.
  - rewrite get_fold_declare_other in H by assumption.
    destruct (in_dec string_dec x (fd_params d)) as [Hp|Hp].
    + destruct (get_fold_declare_In param _ JSMap.empty x Hp) as [i Hi].
      rewrite Hi in H. injection H as <-. cbn [sym_name what].
      repeat split; try tauto; try discriminate.
    + rewrite get_fold_declare_other in H by assumption. discriminate.
Qed.

Lemma functionScope_kind_witness :
  JSMap.get (functionScope test_countTo) "x" = Some (mkSymbol "x" 1 local)
  /\ sym_name (mkSymbol "x" 1 local) = "x"
  /\ (what (mkSymbol "x" 1 local) = local
      <-> In "x" (walked_BlockExpr (fd_body test_countTo)))
  /\ (what (mkSymbol "x" 1 local) = param
      <-> In "x" (fd_params test_countTo)
          /\ ~ In "x" (walked_BlockExpr (fd_body test_countTo))).
Proof.
  split; [reflexivity|].
  apply (functionScope_kind test_countTo "x"). reflexivity.
Defined.

Lemma NoDup_keys_set {V : Type} (m : JSMap.t V) (k : string) (v : V) :
  NoDup (JSMap.keys m) -> NoDup (JSMap.keys (JSMap.set m k v)).
Proof.
  intros H. rewrite keys_set. destruct (JSMap.has m k) eqn:Hk; [exact H|].
  apply has_false_keys in Hk. apply NoDup_app; [exact H| |].
  - repeat constructor. intros [].
  - intros a Ha [<-|[]]. contradiction.
Qed.

Lemma NoDup_keys_fold_declare (w : kind) (names : list string)
      (sc : FunScope) :
  NoDup (JSMap.keys sc) -> NoDup (JSMap.keys (fold_left (declare w) names sc)).
Proof.
  revert sc. induction names as [|n names IH]; intros sc H; [exact H|].
  cbn [fold_left]. apply IH. now apply NoDup_keys_set.
Qed.

Lemma NoDup_keys_functionScope (d : FunctionDeclNode) :
  NoDup (JSMap.keys (functionScope d)).
Proof.
  rewrite functionScope_fold. do 2 apply NoDup_keys_fold_declare. constructor.
Qed.

Lemma In_get {V : Type} (m : JSMap.t V) (k : string) (v : V) :
  NoDup (JSMap.keys m) -> In (k, v) m -> JSMap.get m k = Some v.
Proof.
  induction m as [|[k' v'] m IH]; intros Hnd Hin; [destruct Hin|].
  cbn [JSMap.keys map fst] in Hnd. inversion Hnd as [|? ? Hk' Hnd']; subst.
  cbn [JSMap.get]. destruct Hin as [Heq|Hin].
  - injection Heq as -> ->. now rewrite String.eqb_refl.
  - destruct (String.eqb_spec k' k) as [->|Hne].
    + exfalso. apply Hk'. change (In k (map fst m)).
      apply in_map_iff. now exists (k, v).
    + now apply IH.
Qed.

Lemma length_filter_values {V : Type} (f : V -> bool) (p : string -> bool)
      (m : JSMap.t V) :
  (forall k v, In (k, v) m -> f v = p k) ->
  List.length (filter f (JSMap.values m))
  = List.length (filter p (JSMap.keys m)).
Proof.
  induction m as [|[k v] m IH]; intros H; [reflexivity|].
  cbn [JSMap.values JSMap.keys map fst snd filter].
  rewrite (H k v) by now left.
  assert (IH' := IH (fun k' v' Hin => H k' v' (or_intror Hin))).
  unfold JSMap.values, JSMap.keys in IH'.
  destruct (p k); cbn [List.length]; now rewrite IH'.
Qed.

Lemma length_same_elements {A : Type} (l1 l2 : list A) :
  NoDup l1 -> NoDup l2 -> (forall x, In x l1 <-> In x l2) ->
  List.length l1 = List.length l2.
Proof.
  intros H1 H2 H. apply Nat.le_antisymm; apply NoDup_incl_length;
    try assumption; intros x Hx; now apply H.
Qed.

(** The symbol a function's scope holds for a name. *)
Lemma functionScope_get (d : FunctionDeclNode) (x : string) (s : Symbol) :
  JSMap.get (functionScope d) x = Some s ->
  sym_name s = x
  /\ what s = (if existsb (String.eqb x) (walked_BlockExpr (fd_body d))
               then local else param)
  /\ (In x (fd_params d) \/ In x (walked_BlockExpr (fd_body d))).
Proof.
  intros H. rewrite functionScope_fold in H.
  destruct (existsb (String.eqb x) (walked_BlockExpr (fd_body d))) eqn:He.
  - apply existsb_exists in He as (y & Hy & Hxy).
    apply String.eqb_eq in Hxy. subst y.
    destruct (get_fold_declare_In local _
                (fold_left (declare param) (fd_params d) JSMap.empty) x Hy)
      as [i Hi].
    rewrite Hi in H. injection H as <-. cbn [sym_name what]. auto.
  - assert (Hw : ~ In x (walked_BlockExpr (fd_body d))).
    { intros Hin. apply not_true_iff_false in He. apply He.
      apply existsb_exists. exists x. split; [exact Hin|].
      apply String.eqb_refl. }
    rewrite get_fold_declare_other in H by assumption.
    destruct (in_dec string_dec x (fd_params d)) as [Hp|Hp].
    + destruct (get_fold_declare_In param _ JSMap.empty x Hp) as [i Hi].
      rewrite Hi in H. injection H as <-. cbn [sym_name what]. auto.
    + rewrite get_fold_declare_other in H by assumption. discriminate.
Qed.

Lemma existsb_eqb_In (x : string) (l : list string) :
  existsb (String.eqb x) l = true <-> In x l.
Proof.
  rewrite existsb_exists. split.
  - intros (y & Hy & Hxy). apply String.eqb_eq in Hxy. now subst.
  - intros H. exists x. split; [exact H | apply String.eqb_refl].
Qed.

Lemma functionScope_counts (d : FunctionDeclNode) :
  let walked := walked_BlockExpr (fd_body d) in
  let values := JSMap.values (functionScope d) in
  List.length (filter (fun info => kind_eqb (what info) local) values)
  = List.length (nodup string_dec walked)
  /\ List.length (filter (fun info => kind_eqb (what info) param) values)
     = List.length (filter (fun p => negb (existsb (String.eqb p) walked))
                           (nodup string_dec (fd_params d))).
Proof.
  cbv zeta. pose proof (NoDup_keys_functionScope d) as Hnd.
  assert (Hkeys : forall x, In x (JSMap.keys (functionScope d))
                            <-> In x (fd_params d)
                                \/ In x (walked_BlockExpr (fd_body d))).
  { intros x. rewrite functionScope_fold, !keys_fold_declare. cbn. tauto. }
  split.
  - rewrite (length_filter_values _
               (fun k => existsb (String.eqb k)
                                 (walked_BlockExpr (fd_body d)))).
    + apply length_same_elements.
      * now apply NoDup_filter.
      * apply NoDup_nodup.
      * intros x. rewrite filter_In, nodup_In, existsb_eqb_In, Hkeys. tauto.
    + intros k v Hin. apply In_get in Hin; [|exact Hnd].
      apply functionScope_get in Hin as (_ & -> & _).
      now destruct (existsb _ _).
  - rewrite (length_filter_values _
               (fun k => negb (existsb (String.eqb k)
                                       (walked_BlockExpr (fd_body d))))).
    + apply length_same_elements.
      * now apply NoDup_filter.
      * apply NoDup_filter, NoDup_nodup.
      * intros x. rewrite !filter_In, nodup_In, Hkeys.
        rewrite negb_true_iff, <- not_true_iff_false, existsb_eqb_In. tauto.
    + intros k v Hin. apply In_get in Hin; [|exact Hnd].
      apply functionScope_get in Hin as (_ & -> & _).
      now destruct (existsb _ _).
Qed.

(** ** The function records ([defineFunctionDecls], [chapter05.ts]) *)

(** X7.  The record of a function declaration, when the table holds the
    scope of that declaration: the name is the declared one, the result
    type is i32, there is one i32 parameter for each distinct parameter
    name that no walked let statement declares again, and one group of
    locals that counts the distinct names of the walked let statements; the
    body is the code of the declaration. *)
Theorem functionDecls_record (symbols : Scope) (d : FunctionDeclNode)
        (r : FunctionDecl)
        (Hsc : JSMap.get symbols (fd_ident d) = Some (functionScope d))
        (H : functionDecls_FunctionDecl symbols d = Ok r) :
  let walked := walked_BlockExpr (fd_body d) in
  fn_name r = fd_ident d
  /\ resultType r = valtype.i32
  /\ paramTypes r
     = repeat valtype.i32
         (List.length (filter (fun p => negb (existsb (String.eqb p) walked))
                              (nodup string_dec (fd_params d))))
  /\ fn_locals r
     = [Arr [Arr [Num (len (nodup string_dec walked))]; Num valtype.i32]]
  /\ toWasm_FunctionDecl symbols d = Ok (body r).
Proof.
  cbv zeta. unfold functionDecls_FunctionDecl in H. rewrite Hsc in H.
  cbv zeta in H. bind_inv H.
  assert (Hr : r = mkFunctionDecl (fd_ident d)
                 (map (fun _ => valtype.i32)
                      (filter (fun info => kind_eqb (what info) param)
                              (JSMap.values (functionScope d))))
                 valtype.i32 [Arr x] x0) by congruence.
  clear H. subst r. cbn [fn_name resultType paramTypes fn_locals body].
  destruct (functionScope_counts d) as [Hl Hp].
  unfold locals in Hx. bind_inv Hx.
  apply u32_Ok_inv in Hx1 as [_ ->].
  assert (Hx' : x = [Arr [Num (countLocals (JSMap.values (functionScope d)))];
                     Num valtype.i32]) by congruence.
  subst x. unfold countLocals, len. rewrite Hl, map_const, Hp.
  repeat split; reflexivity.
Qed.

Lemma functionDecls_record_witness :
  let symbols := buildSymbolTable [shadowed_param] in
  exists r,
    JSMap.get symbols (fd_ident shadowed_param)
    = Some (functionScope shadowed_param)
    /\ functionDecls_FunctionDecl symbols shadowed_param = Ok r
    /\ paramTypes r = []
    /\ fn_locals r = [Arr [Arr [Num 1]; Num valtype.i32]].
Proof.
  cbv zeta. eexists. split; [reflexivity|]. split; [reflexivity|].
  pose proof (functionDecls_record (buildSymbolTable [shadowed_param])
                shadowed_param _ eq_refl eq_refl) as (_ & _ & Hp & Hl & _).
  split; [exact Hp | exact Hl].
Defined.

(** X8.  When a function name is declared several times, the module scope
    holds the scope of the last declaration under that name, and the body
    of every declaration of the name is compiled in that scope. *)
Theorem buildSymbolTable_last_declaration
        (m1 m2 : ModuleNode) (d : FunctionDeclNode)
        (Hlast : ~ In (fd_ident d) (map fd_ident m2)) :
  let symbols := buildSymbolTable (m1 ++ d :: m2) in
  JSMap.get symbols (fd_ident d) = Some (functionScope d)
  /\ forall d', fd_ident d' = fd_ident d ->
       toWasm_FunctionDecl symbols d'
       = (b <- toWasm_BlockExpr symbols (functionScope d) (fd_body d') ;;
          Ok [Arr b; Num instr.end_]).
Proof.
  cbv zeta.
  assert (Hget : JSMap.get (buildSymbolTable (m1 ++ d :: m2)) (fd_ident d)
                 = Some (functionScope d)).
  { unfold buildSymbolTable. rewrite fold_left_app. cbn [fold_left].
    rewrite get_fold_bst_FunctionDecl_other by assumption.
    rewrite bst_FunctionDecl_set. apply get_set_same. }
  split; [exact Hget|].
  intros d' Hd'. unfold toWasm_FunctionDecl. now rewrite Hd', Hget.
Qed.

Lemma buildSymbolTable_last_declaration_witness :
  ~ In "f" (map fd_ident [fn_call "g" "f"])
  /\ JSMap.get (buildSymbolTable
                  ([fn_var "f" "x"] ++ shadowed_param :: [fn_call "g" "f"]))
               "f"
     = Some (functionScope shadowed_param)
  /\ toWasm_FunctionDecl
       (buildSymbolTable
          ([fn_var "f" "x"] ++ shadowed_param :: [fn_call "g" "f"]))
       (fn_var "f" "x")
     = Ok [Arr [Arr [Arr [Num 0x20; Arr [Num 1]]]]; Num 0x0b].
Proof.
  assert (H : ~ In "f" (map fd_ident [fn_call "g" "f"])).
  { intros [H|[]]. discriminate H. }
  split; [exact H|].
  destruct (buildSymbolTable_last_declaration
              [fn_var "f" "x"] [fn_call "g" "f"] shadowed_param H)
    as [Hget Hcode].
  split; [exact Hget|].
  rewrite (Hcode (fn_var "f" "x") eq_refl). reflexivity.
Defined.

(** ** The code generator and [compile] ([chapter06.ts]) *)

Lemma bind_Err_inv {A B : Type} (r : result A) (k : A -> result B) (e : error) :
  bind r k = Err e -> r = Err e \/ exists a, r = Ok a /\ k a = Err e.
Proof.
  destruct r as [a|e']; cbn [bind]; intros H; [eauto | left; congruence].
Qed.

Lemma mapM_Err_inv {A B : Type} (f : A -> result B) (l : list A) (e : error) :
  mapM f l = Err e -> exists a, In a l /\ f a = Err e.
Proof.
  induction l as [|a l IH]; cbn [mapM]; intros H; [discriminate|].
  fold (mapM f) in H.
  apply bind_Err_inv in H as [H|(b & Hb & H)].
  - exists a. split; [now left | exact H].
  - apply bind_Err_inv in H as [H|(bs & Hbs & H)]; [|discriminate].
    destruct (IH H) as (a' & Hin & Ha'). exists a'.
    split; [now right | exact Ha'].
Qed.

Lemma mapM_Ok_Forall_flat_map {A B C : Type} (f : A -> result B)
      (collect : A -> list C) (P : C -> Prop) (l : list A) (cs : list B) :
  Forall (fun a => forall c, f a = Ok c -> Forall P (collect a)) l ->
  mapM f l = Ok cs -> Forall P (flat_map collect l).
Proof.
  intros HP H%mapM_Ok_inv. apply Forall_flat_map.
  induction H as [|a c l cs' Hac _ IH]; [constructor|].
  inversion HP; subst. constructor; eauto.
Qed.

Lemma i32_Ok_inv (v : Z) (b : bytes) : i32 v = Ok b -> v <= 63 /\ b = [Num v].
Proof.
  unfold i32. destruct (v <=? 63) eqn:E; [|discriminate].
  intros H. apply Z.leb_le in E. split; [exact E | congruence].
Qed.

Section Literals.
Variable symbols : Scope.
Variable cur : FunScope.

(** Code generation encodes every number literal of the tree. *)
Lemma toWasm_Ok_small :
  (forall e c, toWasm_Expr symbols cur e = Ok c ->
               Forall (fun v => Z.of_N v <= 63) (nums_Expr e))
  /\ (forall e c, toWasm_PrimaryExpr symbols cur e = Ok c ->
                  Forall (fun v => Z.of_N v <= 63) (nums_PrimaryExpr e))
  /\ (forall e c, toWasm_IfExpr symbols cur e = Ok c ->
                  Forall (fun v => Z.of_N v <= 63) (nums_IfExpr e))
  /\ (forall b c, toWasm_BlockExpr symbols cur b = Ok c ->
                  Forall (fun v => Z.of_N v <= 63) (nums_BlockExpr b))
  /\ (forall s c, toWasm_Statement symbols cur s = Ok c ->
                  Forall (fun v => Z.of_N v <= 63) (nums_Statement s))
  /\ (forall s c, toWasm_IfStatement symbols cur s = Ok c ->
                  Forall (fun v => Z.of_N v <= 63) (nums_IfStatement s)).
Proof.
  apply syntax_mutind.
  - (* AssignmentExpr *)
    intros ident expr IH c H. simpl in H. bind_inv H. simpl. eauto.
  - (* Expr_binary *)
    intros num IHnum rest IHrest c H. simpl in H. bind_inv H.
    rewrite Expr_binary_loop_mapM in H. bind_inv H.
    simpl. apply Forall_app. split; [eauto|].
    eapply mapM_Ok_Forall_flat_map; [|exact Hx0].
    apply list_all_snd_Forall in IHrest. exact IHrest.
  - (* PrimaryExpr_num *)
    intros value c H. simpl in H. bind_inv H.
    apply i32_Ok_inv in Hx as [Hx _]. repeat constructor. exact Hx.
  - (* CallExpr *)
    intros ident args IH c H. simpl in H. bind_inv H.
    simpl. unfold toWasm_optArgs in Hx.
    destruct args as [|a args]; [constructor|].
    bind_inv Hx. eapply mapM_Ok_Forall_flat_map; [|exact Hx1].
    apply list_all_Forall in IH. exact IH.
  - (* PrimaryExpr_var *)
    intros; constructor.
  - (* PrimaryExpr_if *)
    intros e IH c H. exact (IH c H).
  - (* IfExpr_else *)
    intros cond IHc thenBlock IHt elseBlock IHe c H. simpl in H. bind_inv H.
    simpl. rewrite !Forall_app. repeat split; eauto.
  - (* IfExpr_elif *)
    intros cond IHc thenBlock IHt elseIf IHe c H. simpl in H. bind_inv H.
    simpl. rewrite !Forall_app. repeat split; eauto.
  - (* BlockExpr *)
    intros stmts IHs expr IHe c H. simpl in H. bind_inv H.
    simpl. rewrite Forall_app. split; [|eauto].
    eapply mapM_Ok_Forall_flat_map; [|exact Hx].
    apply list_all_Forall in IHs. exact IHs.
  - (* LetStatement *)
    intros ident expr IH c H. simpl in H. bind_inv H. simpl. eauto.
  - (* Statement_if *)
    intros s IH c H. exact (IH c H).
  - (* WhileStatement *)
    intros cond IHc body IHb c H. simpl in H. bind_inv H.
    simpl. rewrite Forall_app. split; [eauto|].
    eapply mapM_Ok_Forall_flat_map; [|exact Hx0].
    apply list_all_Forall in IHb. exact IHb.
  - (* ExprStatement *)
    intros expr IH c H. simpl in H. bind_inv H. simpl. eauto.
  - (* IfStatement_then *)
    intros cond IHc thenBlock IHt c H. simpl in H. bind_inv H.
    simpl. rewrite Forall_app. split; [eauto|].
    eapply mapM_Ok_Forall_flat_map; [|exact Hx0].
    apply list_all_Forall in IHt. exact IHt.
  - (* IfStatement_else *)
    intros cond IHc thenBlock IHt elseBlock IHe c H. simpl in H. bind_inv H.
    simpl. rewrite !Forall_app. split; [eauto|]. split.
    + eapply mapM_Ok_Forall_flat_map; [|exact Hx1].
      apply list_all_Forall in IHt. exact IHt.
    + eapply mapM_Ok_Forall_flat_map; [|exact Hx].
      apply list_all_Forall in IHe. exact IHe.
  - (* IfStatement_elif *)
    intros cond IHc thenBlock IHt elseIf IHe c H. simpl in H. bind_inv H.
    simpl. rewrite !Forall_app. split; [eauto|]. split; [|eauto].
    eapply mapM_Ok_Forall_flat_map; [|exact Hx1].
    apply list_all_Forall in IHt. exact IHt.
Qed.
End Literals.

(** X9.  A module that compiles has no number literal above 63: for every
    function of the module, every literal of its body is at most 63. *)
Theorem compile_Ok_literals (m : ModuleNode) (out : list Z)
        (H : compile m = Ok out) (d : FunctionDeclNode) (Hd : In d m) :
  Forall (fun v => Z.of_N v <= 63) (nums_BlockExpr (fd_body d)).
Proof.
  destruct (compile_Ok_toWasm m out d H Hd) as (cur & c & _ & Hc).
  destruct (toWasm_Ok_small (buildSymbolTable m) cur)
    as (_ & _ & _ & Hblock & _).
  exact (Hblock _ _ Hc).
Qed.

Lemma compile_Ok_literals_witness :
  exists out,
    compile test_doIt_add = Ok out
    /\ In test_doIt test_doIt_add
    /\ Forall (fun v => Z.of_N v <= 63) (nums_BlockExpr (fd_body test_doIt)).
Proof.
  eexists. split; [reflexivity|].
  assert (Hd : In test_doIt test_doIt_add) by (left; reflexivity).
  split; [exact Hd|].
  exact (compile_Ok_literals test_doIt_add _ eq_refl test_doIt Hd).
Defined.

Lemma resolveSymbol_Err (x : string) (sc : FunScope) (e : error) :
  resolveSymbol x sc = Err e ->
  JSMap.has sc x = false /\ e = UndeclaredIdentifier x.
Proof.
  unfold resolveSymbol. destruct (JSMap.has sc x) eqn:Hh.
  - destruct (JSMap.get sc x) eqn:Hg; [discriminate|].
    apply has_false_get in Hg. congruence.
  - intros H. split; [reflexivity | congruence].
Qed.

Section Errors.
Variable symbols : Scope.
Variable cur : FunScope.

Lemma explained_incl (refs refs' : list string) (e : error) :
  incl refs refs' -> explained cur refs e -> explained cur refs' e.
Proof.
  intros Hi [->|(x & Hx & Hh & ->)]; [now left|].
  right. exists x. auto.
Qed.

Lemma explained_resolve (x : string) (refs : list string) (e : error) :
  In x refs -> resolveSymbol x cur = Err e -> explained cur refs e.
Proof.
  intros Hx H. apply resolveSymbol_Err in H as [Hh ->]. right. eauto.
Qed.

Lemma explained_u32 (v : Z) (refs : list string) (e : error) :
  u32 v = Err e -> explained cur refs e.
Proof. intros H. left. exact (roni_u32 v e H). Qed.

Lemma explained_i32 (v : Z) (refs : list string) (e : error) :
  i32 v = Err e -> explained cur refs e.
Proof.
  unfold i32. destruct (v <=? 63); [discriminate|]. intros H. left. congruence.
Qed.

Lemma mapM_Err_explained {A B : Type} (f : A -> result B)
      (refs : A -> list string) (l : list A) (e : error) :
  Forall (fun a => forall e', f a = Err e' -> explained cur (refs a) e') l ->
  mapM f l = Err e -> explained cur (flat_map refs l) e.
Proof.
  intros HP H. apply mapM_Err_inv in H as (a & Ha & H).
  rewrite Forall_forall in HP.
  apply (explained_incl (refs a)); [|now apply HP].
  intros y Hy. apply in_flat_map. eauto.
Qed.

(** Code generation fails only with the error of the encoders or with the
    undeclared-identifier error for a reference of the tree that the scope
    lacks. *)
Lemma toWasm_Err_explained :
  (forall e err, toWasm_Expr symbols cur e = Err err ->
                 explained cur (refs_Expr e) err)
  /\ (forall e err, toWasm_PrimaryExpr symbols cur e = Err err ->
                    explained cur (refs_PrimaryExpr e) err)
  /\ (forall e err, toWasm_IfExpr symbols cur e = Err err ->
                    explained cur (refs_IfExpr e) err)
  /\ (forall b err, toWasm_BlockExpr symbols cur b = Err err ->
                    explained cur (refs_BlockExpr b) err)
  /\ (forall s err, toWasm_Statement symbols cur s = Err err ->
                    explained cur (refs_Statement s) err)
  /\ (forall s err, toWasm_IfStatement symbols cur s = Err err ->
                    explained cur (refs_IfStatement s) err).
Proof.
  apply syntax_mutind.
  - (* AssignmentExpr *)
    intros ident expr IH err H. simpl in H.
    apply bind_Err_inv in H as [H|(info & _ & H)].
    { eapply explained_resolve; [|exact H]. now left. }
    apply bind_Err_inv in H as [H|(c & _ & H)].
    { apply (explained_incl (refs_Expr expr)); [|now apply IH].
      intros y Hy. now right. }
    apply bind_Err_inv in H as [H|(i & _ & H)]; [|discriminate].
    exact (explained_u32 _ _ _ H).
  - (* Expr_binary *)
    intros num IHnum rest IHrest err H. simpl in H.
    apply bind_Err_inv in H as [H|(c & _ & H)].
    { apply (explained_incl (refs_PrimaryExpr num)); [|now apply IHnum].
      intros y Hy. simpl. apply in_or_app. now left. }
    rewrite Expr_binary_loop_mapM in H.
    apply bind_Err_inv in H as [H|(cs & _ & H)]; [|discriminate].
    apply (explained_incl
             (flat_map (fun r => refs_PrimaryExpr (snd r)) rest)).
    { intros y Hy. simpl. apply in_or_app. now right. }
    eapply mapM_Err_explained; [|exact H].
    apply list_all_snd_Forall in IHrest. exact IHrest.
  - (* PrimaryExpr_num *)
    intros value err H. simpl in H.
    apply bind_Err_inv in H as [H|(c & _ & H)]; [|discriminate].
    exact (explained_i32 _ _ _ H).
  - (* CallExpr *)
    intros ident args IH err H. simpl in H.
    apply bind_Err_inv in H as [H|(a & _ & H)].
    { unfold toWasm_optArgs in H. destruct args as [|a args]; [discriminate|].
      apply bind_Err_inv in H as [H|(cs & _ & H)]; [|discriminate].
      apply (mapM_Err_explained (toWasm_Expr symbols cur) refs_Expr
               (a :: args) err); [|exact H].
      apply list_all_Forall in IH. exact IH. }
    apply bind_Err_inv in H as [H|(i & _ & H)]; [|discriminate].
    exact (explained_u32 _ _ _ H).
  - (* PrimaryExpr_var *)
    intros ident err H. simpl in H.
    apply bind_Err_inv in H as [H|(info & _ & H)].
    { eapply explained_resolve; [|exact H]. now left. }
    apply bind_Err_inv in H as [H|(i & _ & H)]; [|discriminate].
    exact (explained_u32 _ _ _ H).
  - (* PrimaryExpr_if *)
    intros e IH err H. exact (IH err H).
  - (* IfExpr_else *)
    intros cond IHc thenBlock IHt elseBlock IHe err H. simpl in H.
    apply bind_Err_inv in H as [H|(c & _ & H)].
    { apply (explained_incl (refs_Expr cond)); [|now apply IHc].
      intros y Hy. simpl. rewrite !in_app_iff. tauto. }
    apply bind_Err_inv in H as [H|(t & _ & H)].
    { apply (explained_incl (refs_BlockExpr thenBlock)); [|now apply IHt].
      intros y Hy. simpl. rewrite !in_app_iff. tauto. }
    apply bind_Err_inv in H as [H|(f & _ & H)]; [|discriminate].
    apply (explained_incl (refs_BlockExpr elseBlock)); [|now apply IHe].
    intros y Hy. simpl. rewrite !in_app_iff. tauto.
  - (* IfExpr_elif *)
    intros cond IHc thenBlock IHt elseIf IHe err H. simpl in H.
    apply bind_Err_inv in H as [H|(c & _ & H)].
    { apply (explained_incl (refs_Expr cond)); [|now apply IHc].
      intros y Hy. simpl. rewrite !in_app_iff. tauto. }
    apply bind_Err_inv in H as [H|(t & _ & H)].
    { apply (explained_incl (refs_BlockExpr thenBlock)); [|now apply IHt].
      intros y Hy. simpl. rewrite !in_app_iff. tauto. }
    apply bind_Err_inv in H as [H|(f & _ & H)]; [|discriminate].
    apply (explained_incl (refs_IfExpr elseIf)); [|now apply IHe].
    intros y Hy. simpl. rewrite !in_app_iff. tauto.
  - (* BlockExpr *)
    intros stmts IHs expr IHe err H. simpl in H.
    apply bind_Err_inv in H as [H|(ss & _ & H)].
    { apply (explained_incl (flat_map refs_Statement stmts)).
      { intros y Hy. simpl. rewrite !in_app_iff. tauto. }
      eapply mapM_Err_explained; [|exact H].
      apply list_all_Forall in IHs. exact IHs. }
    apply bind_Err_inv in H as [H|(c & _ & H)]; [|discriminate].
    apply (explained_incl (refs_Expr expr)); [|now apply IHe].
    intros y Hy. simpl. rewrite !in_app_iff. tauto.
  - (* LetStatement *)
    intros ident expr IH err H. simpl in H.
    apply bind_Err_inv in H as [H|(info & _ & H)].
    { eapply explained_resolve; [|exact H]. now left. }
    apply bind_Err_inv in H as [H|(c & _ & H)].
    { apply (explained_incl (refs_Expr expr)); [|now apply IH].
      intros y Hy. now right. }
    apply bind_Err_inv in H as [H|(i & _ & H)]; [|discriminate].
    exact (explained_u32 _ _ _ H).
  - (* Statement_if *)
    intros s IH err H. exact (IH err H).
  - (* WhileStatement *)
    intros cond IHc body IHb err H. simpl in H.
    apply bind_Err_inv in H as [H|(c & _ & H)].
    { apply (explained_incl (refs_Expr cond)); [|now apply IHc].
      intros y Hy. simpl. rewrite !in_app_iff. tauto. }
    apply bind_Err_inv in H as [H|(ss & _ & H)]; [|discriminate].
    apply (explained_incl (flat_map refs_Statement body)).
    { intros y Hy. simpl. rewrite !in_app_iff. tauto. }
    eapply mapM_Err_explained; [|exact H].
    apply list_all_Forall in IHb. exact IHb.
  - (* ExprStatement *)
    intros expr IH err H. simpl in H.
    apply bind_Err_inv in H as [H|(c & _ & H)]; [|discriminate].
    now apply IH.
  - (* IfStatement_then *)
    intros cond IHc thenBlock IHt err H. simpl in H.
    apply bind_Err_inv in H as [H|(c & _ & H)].
    { apply (explained_incl (refs_Expr cond)); [|now apply IHc].
      intros y Hy. simpl. rewrite !in_app_iff. tauto. }
    apply bind_Err_inv in H as [H|(ss & _ & H)]; [|discriminate].
    apply (explained_incl (flat_map refs_Statement thenBlock)).
    { intros y Hy. simpl. rewrite !in_app_iff. tauto. }
    eapply mapM_Err_explained; [|exact H].
    apply list_all_Forall in IHt. exact IHt.
  - (* IfStatement_else *)
    intros cond IHc thenBlock IHt elseBlock IHe err H. simpl in H.
    apply bind_Err_inv in H as [H|(f & _ & H)].
    { apply (explained_incl (flat_map refs_Statement elseBlock)).
      { intros y Hy. simpl. rewrite !in_app_iff. tauto. }
      eapply mapM_Err_explained; [|exact H].
      apply list_all_Forall in IHe. exact IHe. }
    apply bind_Err_inv in H as [H|(c & _ & H)].
    { apply (explained_incl (refs_Expr cond)); [|now apply IHc].
      intros y Hy. simpl. rewrite !in_app_iff. tauto. }
    apply bind_Err_inv in H as [H|(ss & _ & H)]; [|discriminate].
    apply (explained_incl (flat_map refs_Statement thenBlock)).
    { intros y Hy. simpl. rewrite !in_app_iff. tauto. }
    eapply mapM_Err_explained; [|exact H].
    apply list_all_Forall in IHt. exact IHt.
  - (* IfStatement_elif *)
    intros cond IHc thenBlock IHt elseIf IHe err H. simpl in H.
    apply bind_Err_inv in H as [H|(f & _ & H)].
    { apply (explained_incl (refs_IfStatement elseIf)); [|now apply IHe].
      intros y Hy. simpl. rewrite !in_app_iff. tauto. }
    apply bind_Err_inv in H as [H|(c & _ & H)].
    { apply (explained_incl (refs_Expr cond)); [|now apply IHc].
      intros y Hy. simpl. rewrite !in_app_iff. tauto. }
    apply bind_Err_inv in H as [H|(ss & _ & H)]; [|discriminate].
    apply (explained_incl (flat_map refs_Statement thenBlock)).
    { intros y Hy. simpl. rewrite !in_app_iff. tauto. }
    eapply mapM_Err_explained; [|exact H].
    apply list_all_Forall in IHt. exact IHt.
Qed.
End Errors.

Lemma compile_Err_explained (m : ModuleNode) (e : error) :
  compile m = Err e ->
  e = NotImplemented
  \/ exists d cur x,
       In d m
       /\ JSMap.get (buildSymbolTable m) (fd_ident d) = Some cur
       /\ In x (refs_BlockExpr (fd_body d))
       /\ JSMap.has cur x = false
       /\ e = UndeclaredIdentifier x.
Proof.
  intros H. unfold compile in H. cbv zeta in H.
  apply bind_Err_inv in H as [H|(decls & _ & H)];
    [|left; exact (roni_buildModule decls e H)].
  apply mapM_Err_inv in H as (d & Hd & H).
  unfold functionDecls_FunctionDecl in H.
  destruct (buildSymbolTable_get m d Hd) as [cur Hcur].
  rewrite Hcur in H. cbv zeta in H.
  apply bind_Err_inv in H as [H|(l & _ & H)].
  { left. unfold locals in H.
    apply bind_Err_inv in H as [H|(c & _ & H)]; [|discriminate].
    exact (roni_u32 _ e H). }
  apply bind_Err_inv in H as [H|(b & _ & H)]; [|discriminate].
  unfold toWasm_FunctionDecl in H. rewrite Hcur in H.
  apply bind_Err_inv in H as [H|(c & _ & H)]; [|discriminate].
  destruct (toWasm_Err_explained (buildSymbolTable m) cur)
    as (_ & _ & _ & Hblock & _).
  destruct (Hblock _ _ H) as [->|(x & Hx & Hh & ->)]; [now left|].
  right. exists d, cur, x. auto.
Qed.

(** ** C6: undeclared identifiers *)




(** The error need not be the undeclared-identifier error: in
    [func f() { 100; y }] the encoder of the literal raises first. *)
Lemma compile_literal_before_undeclared :
  JSMap.has (functionScope literal_before_undeclared) "y" = false
  /\ compile [literal_before_undeclared] = Err NotImplemented.
Proof. split; reflexivity. Qed.

(** ** The errors of [compile] ([chapter06.ts]) *)

(** X10.  [compile] throws three kinds of error and no other: the message
    of the parser, when the source does not match the grammar; and, for a
    source that matches, the error of the encoders or the
    undeclared-identifier error, the latter for a plain identifier
    reference in the body of some function of the module that is absent
    from the scope the table holds under that function's name. *)
Theorem compile_errors (wafer_match : string -> MatchResult ModuleNode)
        (source : string) (t : thrown)
        (H : compileSource wafer_match source = Threw t) :
  (exists message,
      wafer_match source = failed message /\ t = SyntaxError message)
  \/ exists m,
       wafer_match source = succeeded m
       /\ (t = CompileError NotImplemented
           \/ exists d cur x,
                In d m
                /\ JSMap.get (buildSymbolTable m) (fd_ident d) = Some cur
                /\ In x (refs_BlockExpr (fd_body d))
                /\ JSMap.has cur x = false
                /\ t = CompileError (UndeclaredIdentifier x)).
Proof.
  unfold compileSource in H.
  destruct (wafer_match source) as [m|message] eqn:Hm.
  - right. exists m. split; [reflexivity|].
    destruct (compile m) as [out|e] eqn:E; [discriminate|].
    cbn [afterMatch] in H. assert (Ht : t = CompileError e) by congruence.
    subst t.
    apply compile_Err_explained in E
      as [->|(d & cur & x & Hd & Hcur & Hx & Hh & ->)]; [now left|].
    right. exists d, cur, x. auto.
  - left. exists message. split; [reflexivity | congruence].
Qed.

Lemma compile_errors_witness :
  let wafer_match := parsesOnly "func f() { y }" [fn_var "f" "y"] in
  compileSource wafer_match "func f() { y }"
  = Threw (CompileError (UndeclaredIdentifier "y"))
  /\ compileSource wafer_match "func f() { y"
     = Threw (SyntaxError "no match")
  /\ ((exists message,
          wafer_match "func f() { y }" = failed message
          /\ CompileError (UndeclaredIdentifier "y") = SyntaxError message)
      \/ exists m,
           wafer_match "func f() { y }" = succeeded m
           /\ (CompileError (UndeclaredIdentifier "y")
               = CompileError NotImplemented
               \/ exists d cur x,
                    In d m
                    /\ JSMap.get (buildSymbolTable m) (fd_ident d) = Some cur
                    /\ In x (refs_BlockExpr (fd_body d))
                    /\ JSMap.has cur x = false
                    /\ CompileError (UndeclaredIdentifier "y")
                       = CompileError (UndeclaredIdentifier x))).
Proof.
  cbv zeta. split; [reflexivity|]. split; [reflexivity|].
  apply (compile_errors (parsesOnly "func f() { y }" [fn_var "f" "y"])
           "func f() { y }").
  reflexivity.
Defined.

Section Sizes.
Variable symbols : Scope.
Variable cur : FunScope.

(** The code of an expression takes at least two bytes. *)
Lemma toWasm_Ok_min :
  (forall e c, toWasm_Expr symbols cur e = Ok c -> 2 <= len (flatten c))
  /\ (forall e c, toWasm_PrimaryExpr symbols cur e = Ok c ->
                  2 <= len (flatten c))
  /\ (forall e c, toWasm_IfExpr symbols cur e = Ok c -> 2 <= len (flatten c))
  /\ (forall b c, toWasm_BlockExpr symbols cur b = Ok c ->
                  2 <= len (flatten c))
  /\ (forall s c, toWasm_Statement symbols cur s = Ok c ->
                  0 <= len (flatten c))
  /\ (forall s c, toWasm_IfStatement symbols cur s = Ok c ->
                  0 <= len (flatten c)).
Proof.
  apply syntax_mutind; try (intros; apply len_nonneg).
  - (* AssignmentExpr *)
    intros ident expr IH c H. simpl in H. bind_inv H.
    assert (Hc : c = [Arr x0; Num instr.local_tee; Arr x1]) by congruence.
    subst c. rewrite flatten_cons, flatten_item_Arr, len_app.
    specialize (IH _ eq_refl). pose proof (len_nonneg (flatten
      [Num instr.local_tee; Arr x1])). lia.
  - (* Expr_binary *)
    intros num IHnum rest _ c H. rewrite toWasm_Expr_binary in H. bind_inv H.
    assert (Hc : c = Arr x :: flat_map
                       (fun rc => [Arr (snd rc); Num (opcode (fst (fst rc)))])
                       (combine rest x0)) by congruence.
    subst c. rewrite flatten_cons, flatten_item_Arr, len_app.
    specialize (IHnum _ eq_refl).
    match goal with |- 2 <= _ + len ?l => pose proof (len_nonneg l) end. lia.
  - (* PrimaryExpr_num *)
    intros value c H. simpl in H. bind_inv H.
    apply i32_Ok_inv in Hx as [_ ->].
    assert (Hc : c = [Num instr.i32_const; Num (Z.of_N value)]) by congruence.
    subst c. unfold len. simpl. lia.
  - (* CallExpr *)
    intros ident args _ c H. simpl in H. bind_inv H.
    apply u32_Ok_inv in Hx0 as [_ ->].
    assert (Hc : c = [Arr x; Arr [Num instr.call;
                                  Arr [Num (indexOf (JSMap.keys symbols)
                                                    ident)]]])
      by congruence.
    subst c. rewrite flatten_cons, flatten_item_Arr, len_app.
    pose proof (len_nonneg (flatten x)).
    match goal with |- 2 <= _ + len ?l => change (len l) with 2 end. lia.
  - (* PrimaryExpr_var *)
    intros ident c H. simpl in H. bind_inv H.
    apply u32_Ok_inv in Hx0 as [_ ->].
    assert (Hc : c = [Num instr.local_get; Arr [Num (idx x)]]) by congruence.
    subst c. unfold len. simpl. lia.
  - (* PrimaryExpr_if *)
    intros e IH c H. exact (IH c H).
  - (* IfExpr_else *)
    intros cond IHc thenBlock _ elseBlock _ c H. simpl in H. bind_inv H.
    assert (Hc : c = [Arr x; Arr [Num instr.if_; Num blocktype.i32]; Arr x0;
                      Num instr.else_; Arr x1; Num instr.end_])
      by congruence.
    subst c. rewrite flatten_cons, flatten_item_Arr, len_app.
    specialize (IHc _ eq_refl).
    match goal with |- 2 <= _ + len ?l => pose proof (len_nonneg l) end. lia.
  - (* IfExpr_elif *)
    intros cond IHc thenBlock _ elseIf _ c H. simpl in H. bind_inv H.
    assert (Hc : c = [Arr x; Arr [Num instr.if_; Num blocktype.i32]; Arr x0;
                      Num instr.else_; Arr x1; Num instr.end_])
      by congruence.
    subst c. rewrite flatten_cons, flatten_item_Arr, len_app.
    specialize (IHc _ eq_refl).
    match goal with |- 2 <= _ + len ?l => pose proof (len_nonneg l) end. lia.
  - (* BlockExpr *)
    intros stmts _ expr IHe c H. simpl in H. bind_inv H.
    assert (Hc : c = map Arr x ++ [Arr x0]) by congruence.
    subst c. rewrite flatten_app, len_app, flatten_cons, flatten_item_Arr.
    change (flatten []) with (@nil Z). rewrite app_nil_r.
    specialize (IHe _ eq_refl). pose proof (len_nonneg (flatten (map Arr x))).
    lia.
Qed.
End Sizes.

Lemma functionDecls_codeEntry_min (symbols : Scope) (d : FunctionDeclNode)
      (r : FunctionDecl) :
  functionDecls_FunctionDecl symbols d = Ok r -> 7 <= len (codeEntry r).
Proof.
  unfold functionDecls_FunctionDecl.
  destruct (JSMap.get symbols (fd_ident d)) as [sc|] eqn:Hsc; [|discriminate].
  cbv zeta. intros H. bind_inv H.
  unfold locals in Hx. bind_inv Hx. apply u32_Ok_inv in Hx1 as [_ ->].
  assert (Hl : x = [Arr [Num (countLocals (JSMap.values sc))];
                    Num valtype.i32]) by congruence.
  subst x. unfold toWasm_FunctionDecl in Hx0. rewrite Hsc in Hx0.
  bind_inv Hx0.
  assert (Hb : x0 = [Arr x; Num instr.end_]) by congruence. subst x0.
  destruct (toWasm_Ok_min symbols sc) as (_ & _ & _ & Hmin & _).
  specialize (Hmin _ _ Hx1).
  assert (Hr : r = mkFunctionDecl (fd_ident d)
                 (map (fun _ => valtype.i32)
                      (filter (fun info => kind_eqb (what info) param)
                              (JSMap.values sc)))
                 valtype.i32
                 [Arr [Arr [Num (countLocals (JSMap.values sc))];
                       Num valtype.i32]]
                 [Arr x; Num instr.end_]) by congruence.
  subst r. unfold codeEntry, funcBytes.
  cbn [fn_locals body]. rewrite !len_cons, len_app.
  rewrite (flatten_cons (Arr x)), flatten_item_Arr, len_app.
  match goal with
  | |- 7 <= 1 + (1 + (len ?a + (_ + len ?b))) =>
      change (len a) with 2; change (len b) with 1
  end.
  lia.
Qed.

(** X11.  A module of more than 18 functions does not compile: the code of
    a function takes at least 7 bytes of the code section, whose byte
    length has to be at most 127. *)
Theorem compile_at_most_18_functions (m : ModuleNode) (out : list Z)
        (H : compile m = Ok out) :
  len m <= 18.
Proof.
  unfold compile in H. cbv zeta in H. bind_inv H.
  rewrite buildModule_spec in H. destruct (fits x) eqn:Hfits; [|discriminate].
  apply fits_inv in Hfits as (_ & _ & _ & Hc).
  unfold functionDecls in Hx. pose proof (mapM_Ok_length _ _ _ Hx) as Hlen.
  apply mapM_Ok_inv in Hx.
  assert (Hmin : 7 * len x <= len (flat_map codeEntry x)).
  { clear Hc Hlen H. induction Hx as [|d r m' x' Hr _ IH].
    - unfold len. simpl. lia.
    - cbn [flat_map]. rewrite len_app, len_cons.
      apply functionDecls_codeEntry_min in Hr. lia. }
  unfold len in *. lia.
Qed.

Lemma compile_at_most_18_functions_witness :
  exists out, compile eighteen_functions = Ok out
              /\ len eighteen_functions <= 18.
Proof.
  eexists. split; [vm_compute; reflexivity|].
  eapply (compile_at_most_18_functions eighteen_functions).
  vm_compute. reflexivity.
Defined.

Lemma compile_nineteen_functions :
  compile nineteen_functions = Err NotImplemented.
Proof. vm_compute. reflexivity. Qed.

(** ** The earlier stages ([chapter02.ts] to [chapter04.ts]) *)

(** X12.  The compiler of [chapter02.ts] turns every number up to 63 into
    the same module of 37 bytes but for the operand of [i32.const], and
    raises the error of the encoders on every larger number. *)
Theorem chapter02_compile_bytes (v : N) :
  Chapter02.compile v
  = if Z.of_N v <=? 63
    then Ok (header
             ++ [1; 5; 1; 0x60; 0; 1; 0x7f]
             ++ [3; 2; 1; 0]
             ++ [7; 8; 1; 4; 109; 97; 105; 110; 0; 0]
             ++ [10; 6; 1; 4; 0; 0x41; Z.of_N v; 0x0b])
    else Err NotImplemented.
Proof.
  unfold Chapter02.compile, Chapter02.toWasm_Main, Chapter02.toWasm_number,
    i32.
  destruct (Z.of_N v <=? 63) eqn:E; [|reflexivity].
  apply Z.leb_le in E. cbn -[Z.modulo Z.of_N].
  rewrite (Z.mod_small (Z.of_N v) 256) by lia. reflexivity.
Qed.

Lemma toWasm_op_opcode3 (o : Chapter03.op) :
  Chapter03.toWasm_op o = [Num (opcode3 o)].
Proof. now destruct o. Qed.

Lemma chapter03_Expr_loop (rest : list (Chapter03.op * N)) (acc : bytes) :
  result_map flatten (Chapter03.Expr_loop rest acc)
  = if forallb (fun r => Z.of_N (snd r) <=? 63) rest
    then Ok (flatten acc
             ++ flat_map (fun r => [0x41; Z.of_N (snd r); opcode3 (fst r)])
                         rest)
    else Err NotImplemented.
Proof.
  revert acc. induction rest as [|[o n] rest IH]; intros acc.
  - cbn. now rewrite app_nil_r.
  - cbn [Chapter03.Expr_loop forallb flat_map fst snd].
    unfold Chapter03.toWasm_number, i32.
    destruct (Z.of_N n <=? 63); [|reflexivity]. cbn [bind andb].
    rewrite IH. destruct (forallb _ rest); [|reflexivity].
    rewrite flatten_app, toWasm_op_opcode3, <- app_assoc. reflexivity.
Qed.

(** X13.  The code generator of [chapter03.ts] returns exactly when every
    number of the expression is at most 63, and then the code is the first
    number's [i32.const] followed, for each further operand in order, by its
    [i32.const] and the opcode of the operator before it, and by [end]. *)
Theorem chapter03_toWasmFlat (e : Chapter03.Expr) :
  Chapter03.toWasmFlat e
  = if (Z.of_N (Chapter03.num e) <=? 63)
       && forallb (fun r => Z.of_N (snd r) <=? 63) (Chapter03.rest e)
    then Ok ([0x41; Z.of_N (Chapter03.num e)]
             ++ flat_map (fun r => [0x41; Z.of_N (snd r); opcode3 (fst r)])
                         (Chapter03.rest e)
             ++ [0x0b])
    else Err NotImplemented.
Proof.
  unfold Chapter03.toWasmFlat, Chapter03.toWasm_Main, Chapter03.toWasm_Expr,
    Chapter03.toWasm_number, i32.
  destruct (Z.of_N (Chapter03.num e) <=? 63); [|reflexivity].
  cbn [bind andb].
  pose proof (chapter03_Expr_loop (Chapter03.rest e)
                [Arr [Num instr.i32_const;
                      Arr [Num (Z.of_N (Chapter03.num e))]]])
    as H.
  destruct (Chapter03.Expr_loop _ _) as [c|err]; cbn [result_map bind] in *;
    destruct (forallb _ _); try discriminate; [|exact H].
  f_equal. rewrite flatten_cons, flatten_item_Arr.
  assert (Hc : flatten c = flatten [Arr [Num instr.i32_const;
                                        Arr [Num (Z.of_N (Chapter03.num e))]]]
                 ++ flat_map (fun r => [0x41; Z.of_N (snd r); opcode3 (fst r)])
                             (Chapter03.rest e)) by congruence.
  rewrite Hc. reflexivity.
Qed.

Lemma chapter04_mainScope_fold (p : Chapter04.Main) :
  Chapter04.mainScope p = fold_left (declare local) (letNames p) JSMap.empty.
Proof.
  unfold Chapter04.mainScope, letNames. rewrite fold_left_flat_map.
  apply fold_left_ext_Forall. apply Forall_forall.
  intros [ident e|e] _ sc; reflexivity.
Qed.

Lemma chapter04_get_main (p : Chapter04.Main) :
  JSMap.get (Chapter04.buildSymbolTable p) "main"
  = Some (Chapter04.mainScope p).
Proof. reflexivity. Qed.

(** X14.  In a program of [chapter04.ts] whose let statements declare
    pairwise distinct names, the names get the indices 0, 1, 2, ... in the
    order of the statements: the scope holds exactly these symbols, and the
    name of the let statement number [i] resolves to the local of index
    [i]. *)
Theorem chapter04_let_indices (p : Chapter04.Main)
        (Hnd : NoDup (letNames p)) :
  Chapter04.mainScope p = numbered local 0 (letNames p)
  /\ JSMap.size (Chapter04.mainScope p) = len (letNames p)
  /\ forall i x, nth_error (letNames p) i = Some x ->
       resolveSymbol x (Chapter04.mainScope p)
       = Ok (mkSymbol x (Z.of_nat i) local).
Proof.
  assert (Hsc : Chapter04.mainScope p = numbered local 0 (letNames p)).
  { rewrite chapter04_mainScope_fold.
    now rewrite (fold_declare_fresh local (letNames p) JSMap.empty). }
  split; [exact Hsc|]. rewrite Hsc. split.
  - unfold JSMap.size. rewrite <- (keys_numbered local 0 (letNames p)) at 2.
    unfold JSMap.keys. now rewrite len_map.
  - intros i x Hi. apply resolveSymbol_get.
    now rewrite (get_numbered local (letNames p) 0 i x Hnd Hi).
Qed.

Lemma chapter04_let_indices_witness :
  let p := Chapter04.mkMain
             [Chapter04.LetStatement "x"
                (Chapter04.Expr_arithmetic (Chapter04.PrimaryExpr_num 1) []);
              Chapter04.LetStatement "y"
                (Chapter04.Expr_arithmetic (Chapter04.PrimaryExpr_num 2) [])]
             (Chapter04.Expr_arithmetic (Chapter04.PrimaryExpr_var "y") []) in
  NoDup (letNames p)
  /\ resolveSymbol "y" (Chapter04.mainScope p) = Ok (mkSymbol "y" 1 local).
Proof.
  cbv zeta.
  match goal with |- NoDup (letNames ?p) /\ _ => set (prog := p) end.
  assert (Hnd : NoDup (letNames prog)).
  { repeat constructor; cbn; intros H; repeat destruct H as [H|H];
      try discriminate H; exact H. }
  split; [exact Hnd|].
  destruct (chapter04_let_indices prog Hnd) as (_ & _ & Hres).
  exact (Hres 1%nat "y" eq_refl).
Defined.

Lemma loops_chapter03_chapter04 (cur : FunScope)
      (rest : list (Chapter03.op * N)) (acc3 acc4 : bytes) :
  flatten acc4 = flatten acc3 ->
  result_map flatten
    (Chapter04.Expr_arithmetic_loop cur
       (map (fun r => (fst r, Chapter04.PrimaryExpr_num (snd r))) rest) acc4)
  = result_map flatten (Chapter03.Expr_loop rest acc3).
Proof.
  revert acc3 acc4. induction rest as [|[o n] rest IH]; intros acc3 acc4 Hacc.
  - cbn. now rewrite Hacc.
  - cbn [map Chapter04.Expr_arithmetic_loop Chapter03.Expr_loop fst snd
         Chapter04.toWasm_PrimaryExpr].
    unfold Chapter04.toWasm_number, Chapter03.toWasm_number, i32.
    destruct (Z.of_N n <=? 63); [|reflexivity]. cbn [bind].
    apply IH. rewrite !flatten_app, Hacc. reflexivity.
Qed.

(** X15.  The language of [chapter04.ts] extends that of [chapter03.ts]
    without changing its code: an expression of the earlier language, read
    as a program without statements, gives the same flattened code, and
    fails on the same inputs with the same error. *)
Theorem chapter04_extends_chapter03 (e : Chapter03.Expr) :
  Chapter04.toWasmFlat (embed_chapter03 e) = Chapter03.toWasmFlat e.
Proof.
  unfold Chapter04.toWasmFlat. rewrite chapter04_get_main.
  unfold Chapter04.toWasm_Main, Chapter03.toWasmFlat, Chapter03.toWasm_Main,
    Chapter03.toWasm_Expr.
  cbn [embed_chapter03 Chapter04.statements Chapter04.expr mapM bind map
       Chapter04.toWasm_Expr Chapter04.toWasm_PrimaryExpr].
  unfold Chapter04.toWasm_number, Chapter03.toWasm_number, i32.
  destruct (Z.of_N (Chapter03.num e) <=? 63); [|reflexivity]. cbn [bind].
  pose proof (loops_chapter03_chapter04
                (Chapter04.mainScope (embed_chapter03 e)) (Chapter03.rest e)
                [Arr [Num instr.i32_const;
                      Arr [Num (Z.of_N (Chapter03.num e))]]]
                [Arr [Num instr.i32_const; Num (Z.of_N (Chapter03.num e))]]
                eq_refl) as H.
  destruct (Chapter04.Expr_arithmetic_loop _ _ _) as [c4|e4];
    destruct (Chapter03.Expr_loop _ _) as [c3|e3];
    cbn [result_map bind] in *; try discriminate; [|exact H].
  f_equal. assert (Hc : flatten c4 = flatten c3) by congruence.
  rewrite !flatten_cons, !flatten_item_Arr, Hc. reflexivity.
Qed.

Lemma walked_embed_Expr (e : Chapter04.Expr) : walked_Expr (embed_Expr e) = [].
Proof.
  induction e as [ident e IH|num rest]; [exact IH|].
  cbn [embed_Expr walked_Expr].
  assert (Hnum : forall q, walked_PrimaryExpr (embed_PrimaryExpr q) = [])
    by (intros [v|x]; reflexivity).
  rewrite Hnum. cbn [app].
  induction rest as [|[o q] rest IH]; [reflexivity|].
  cbn [map flat_map snd]. now rewrite Hnum, IH.
Qed.

Lemma walked_embed_Main (p : Chapter04.Main) :
  walked_BlockExpr (fd_body (embed_Main p)) = letNames p.
Proof.
  unfold embed_Main, letNames. cbn [fd_body walked_BlockExpr].
  rewrite walked_embed_Expr, app_nil_r.
  induction (Chapter04.statements p) as [|s ss IH]; [reflexivity|].
  cbn [map flat_map]. rewrite IH. f_equal.
  destruct s as [ident e|e]; cbn [embed_Statement walked_Statement];
    [reflexivity | apply walked_embed_Expr].
Qed.

Lemma functionScope_embed_Main (p : Chapter04.Main) :
  functionScope (embed_Main p) = Chapter04.mainScope p.
Proof.
  rewrite functionScope_fold, walked_embed_Main, chapter04_mainScope_fold.
  reflexivity.
Qed.

Lemma buildSymbolTable_embed_Main (p : Chapter04.Main) :
  JSMap.get (buildSymbolTable [embed_Main p]) "main"
  = Some (Chapter04.mainScope p).
Proof.
  unfold buildSymbolTable. cbn [fold_left]. rewrite bst_FunctionDecl_set.
  cbn [embed_Main fd_ident]. rewrite get_set_same.
  now rewrite <- functionScope_embed_Main.
Qed.

Lemma result_map_bind {A B C D : Type} (f : A -> C) (g : B -> D)
      (r1 r2 : result A) (k1 k2 : A -> result B) :
  result_map f r1 = result_map f r2 ->
  (forall a1 a2, f a1 = f a2 -> result_map g (k1 a1) = result_map g (k2 a2)) ->
  result_map g (bind r1 k1) = result_map g (bind r2 k2).
Proof.
  intros Hr Hk. destruct r1 as [a1|e1], r2 as [a2|e2]; cbn in *;
    try discriminate; [apply Hk; congruence | congruence].
Qed.

Section Chapter04Code.
Variable symbols : Scope.
Variable cur : FunScope.

Lemma toWasm_embed_PrimaryExpr (q : Chapter04.PrimaryExpr) :
  toWasm_PrimaryExpr symbols cur (embed_PrimaryExpr q)
  = Chapter04.toWasm_PrimaryExpr cur q.
Proof. destruct q; reflexivity. Qed.

Lemma toWasm_embed_op (o : Chapter03.op) :
  toWasm_binaryOp (embed_op o) = Ok (opcode3 o)
  /\ Chapter04.toWasm_op o = [Num (opcode3 o)].
Proof. destruct o; split; reflexivity. Qed.

Lemma loops_chapter04_chapter06
      (rest : list (Chapter03.op * Chapter04.PrimaryExpr)) (acc6 acc4 : bytes) :
  flatten acc6 = flatten acc4 ->
  result_map flatten
    (Expr_binary_loop (toWasm_PrimaryExpr symbols cur)
       (map (fun r => (embed_op (fst r), embed_PrimaryExpr (snd r))) rest)
       acc6)
  = result_map flatten (Chapter04.Expr_arithmetic_loop cur rest acc4).
Proof.
  revert acc6 acc4. induction rest as [|[o q] rest IH]; intros acc6 acc4 Hacc.
  - cbn. now rewrite Hacc.
  - cbn [map Expr_binary_loop Chapter04.Expr_arithmetic_loop fst snd].
    rewrite toWasm_embed_PrimaryExpr.
    destruct (Chapter04.toWasm_PrimaryExpr cur q) as [a|e]; [|reflexivity].
    cbn [bind]. destruct (toWasm_embed_op o) as [-> ->]. cbn [bind].
    apply IH. rewrite !flatten_app, Hacc. reflexivity.
Qed.

Lemma toWasm_embed_Expr (e : Chapter04.Expr) :
  result_map flatten (toWasm_Expr symbols cur (embed_Expr e))
  = result_map flatten (Chapter04.toWasm_Expr cur e).
Proof.
  induction e as [ident e IH|num rest].
  - cbn [embed_Expr toWasm_Expr Chapter04.toWasm_Expr].
    destruct (resolveSymbol ident cur) as [info|err]; [|reflexivity].
    cbn [bind]. apply (result_map_bind flatten flatten); [exact IH|].
    intros c6 c4 Hc. destruct (localidx (idx info)); [|reflexivity].
    cbn [bind result_map]. f_equal.
    rewrite !flatten_cons, !flatten_item_Arr, Hc. reflexivity.
  - cbn [embed_Expr toWasm_Expr Chapter04.toWasm_Expr].
    rewrite toWasm_embed_PrimaryExpr.
    destruct (Chapter04.toWasm_PrimaryExpr cur num) as [c|err];
      [|reflexivity].
    cbn [bind]. now apply loops_chapter04_chapter06.
Qed.

Lemma toWasm_embed_Statement (s : Chapter04.Statement) :
  result_map flatten (toWasm_Statement symbols cur (embed_Statement s))
  = result_map flatten (Chapter04.toWasm_Statement cur s).
Proof.
  destruct s as [ident e|e];
    cbn [embed_Statement toWasm_Statement Chapter04.toWasm_Statement].
  - destruct (resolveSymbol ident cur) as [info|err]; [|reflexivity].
    cbn [bind].
    apply (result_map_bind flatten flatten); [apply toWasm_embed_Expr|].
    intros c6 c4 Hc. destruct (localidx (idx info)); [|reflexivity].
    cbn [bind result_map]. f_equal.
    rewrite !flatten_cons, !flatten_item_Arr, Hc. reflexivity.
  - apply (result_map_bind flatten flatten); [apply toWasm_embed_Expr|].
    intros c6 c4 Hc. cbn [result_map]. f_equal.
    rewrite !flatten_cons, !flatten_item_Arr, Hc. reflexivity.
Qed.

Lemma toWasm_embed_Statements (ss : list Chapter04.Statement) :
  result_map (fun cs => flatten (map Arr cs))
    (mapM (toWasm_Statement symbols cur) (map embed_Statement ss))
  = result_map (fun cs => flatten (map Arr cs))
      (mapM (Chapter04.toWasm_Statement cur) ss).
Proof.
  induction ss as [|s ss IH]; [reflexivity|].
  cbn [map mapM].
  fold (mapM (toWasm_Statement symbols cur)).
  fold (mapM (Chapter04.toWasm_Statement cur)).
  apply (result_map_bind flatten); [apply toWasm_embed_Statement|].
  intros c6 c4 Hc.
  apply (result_map_bind (fun cs => flatten (map Arr cs))); [exact IH|].
  intros cs6 cs4 Hcs. cbn [result_map map]. f_equal.
  rewrite !flatten_cons, !flatten_item_Arr, Hc.
  cbn beta in Hcs. now rewrite Hcs.
Qed.

Lemma toWasm_embed_Main (p : Chapter04.Main) :
  JSMap.get symbols "main" = Some cur ->
  result_map flatten (toWasm_FunctionDecl symbols (embed_Main p))
  = result_map flatten (Chapter04.toWasm_Main cur p).
Proof.
  intros Hget. unfold toWasm_FunctionDecl, Chapter04.toWasm_Main.
  cbn [embed_Main fd_ident fd_body toWasm_BlockExpr]. rewrite Hget.
  pose proof (toWasm_embed_Statements (Chapter04.statements p)) as Hs.
  pose proof (toWasm_embed_Expr (Chapter04.expr p)) as He.
  destruct (mapM (toWasm_Statement symbols cur) _) as [cs6|e6],
           (mapM (Chapter04.toWasm_Statement cur) _) as [cs4|e4];
    cbn [result_map bind] in *; try discriminate; [|exact Hs].
  destruct (toWasm_Expr symbols cur _) as [c6|e6],
           (Chapter04.toWasm_Expr cur _) as [c4|e4];
    cbn [result_map bind] in *; try discriminate; [|exact He].
  f_equal.
  assert (Hs' : flatten (map Arr cs6) = flatten (map Arr cs4)) by congruence.
  assert (He' : flatten c6 = flatten c4) by congruence.
  rewrite !flatten_cons, !flatten_item_Arr, flatten_app, flatten_cons,
    flatten_item_Arr, Hs', He'.
  change (flatten []) with (@nil Z). rewrite !app_nil_r, <- app_assoc.
  reflexivity.
Qed.
End Chapter04Code.
(** A module of the one function [main], as [chapter02.ts] and
    [chapter04.ts] assemble it, is what [buildModule] returns for the one
    record of that function. *)
Lemma main_module (ls bd : bytes) :
  (mainFn <- func ls bd ;;
   ft <- functype [] [Num valtype.i32] ;;
   t <- typesec [Arr ft] ;;
   ti <- typeidx 0 ;;
   f <- funcsec [Arr ti] ;;
   d <- exportdesc_func 0 ;;
   ex <- export_ "main" d ;;
   e <- exportsec [Arr ex] ;;
   cd <- code mainFn ;;
   c <- codesec [Arr cd] ;;
   Ok (Uint8Array_from (flatten (module [Arr t; Arr f; Arr e; Arr c]))))
  = buildModule [mkFunctionDecl "main" [] valtype.i32 ls bd].
Proof.
  unfold buildModule, mapi.
  cbn [mapM mapi_from fn_name paramTypes resultType fn_locals
       body map].
  destruct (func ls bd) as [fn|e]; [|reflexivity]. cbn [bind].
  change (functype [] [Num valtype.i32])
    with (Ok [Num TYPE_FUNCTION; Arr [Arr [Num 0]];
              Arr [Arr [Num 1]; Num valtype.i32]]).
  cbn [bind].
  destruct (code fn) as [cd|e]; [|reflexivity].
  cbn -[Z.modulo codesec Uint8Array_from flatten module].
  destruct (codesec [Arr cd]) as [c|e]; reflexivity.
Qed.
Lemma fold_declare_local_kinds (names : list string) (sc : FunScope) :
  Forall (fun s => what s = local) (JSMap.values sc) ->
  Forall (fun s => what s = local)
         (JSMap.values (fold_left (declare local) names sc)).
Proof.
  revert sc. induction names as [|n names IH]; intros sc H; [exact H|].
  cbn [fold_left]. apply IH. apply Forall_forall. intros s Hs.
  unfold declare in Hs. cbv zeta in Hs.
  apply In_values_set in Hs as [->|Hs]; [reflexivity|].
  rewrite Forall_forall in H. now apply H.
Qed.

Lemma chapter04_mainScope_kinds (p : Chapter04.Main) :
  countLocals (JSMap.values (Chapter04.mainScope p))
  = JSMap.size (Chapter04.mainScope p)
  /\ filter (fun info => kind_eqb (what info) param)
            (JSMap.values (Chapter04.mainScope p)) = [].
Proof.
  pose proof (fold_declare_local_kinds (letNames p) JSMap.empty
                (Forall_nil _)) as H.
  rewrite <- chapter04_mainScope_fold in H.
  unfold countLocals, JSMap.size, JSMap.values in *.
  induction (Chapter04.mainScope p) as [|[k s] sc IH]; [split; reflexivity|].
  cbn [map snd] in H. inversion H as [|? ? Hs Hsc]; subst.
  destruct (IH Hsc) as [IH1 IH2].
  cbn [map snd filter]. rewrite Hs. cbn [kind_eqb]. split; [|exact IH2].
  rewrite !len_cons, IH1. reflexivity.
Qed.

Lemma compile_embed_Main (p : Chapter04.Main) :
  compile [embed_Main p] = Chapter04.compile p.
Proof.
  unfold compile, functionDecls, Chapter04.compile. cbv zeta.
  cbn [mapM]. unfold functionDecls_FunctionDecl.
  change (fd_ident (embed_Main p)) with "main".
  rewrite buildSymbolTable_embed_Main, chapter04_get_main. cbv zeta.
  destruct (chapter04_mainScope_kinds p) as [-> ->]. cbn [map].
  destruct (locals (JSMap.size (Chapter04.mainScope p)) valtype.i32)
    as [l|e]; [|reflexivity].
  cbn [bind].
  pose proof (toWasm_embed_Main (buildSymbolTable [embed_Main p])
                (Chapter04.mainScope p) p (buildSymbolTable_embed_Main p))
    as Hc.
  destruct (toWasm_FunctionDecl _ _) as [b6|e6],
           (Chapter04.toWasm_Main _ _) as [b4|e4];
    cbn [result_map bind] in *; try discriminate; [|congruence].
  rewrite main_module. apply buildModule_sameFlat.
  repeat constructor. cbn [body]. congruence.
Qed.

Lemma parsesOnly_reservesKeywords (source : string) (m : ModuleNode) :
  Forall (fun x => isKeyword x = false)
         (flat_map (fun d => refs_BlockExpr (fd_body d)) m) ->
  reservesKeywords (parsesOnly source m).
Proof.
  intros H s m' Hm d x Hd Hx. unfold parsesOnly in Hm.
  destruct (String.eqb s source); [|discriminate].
  assert (Heq : m' = m) by congruence. subst m'.
  rewrite Forall_forall in H. apply H.
  apply in_flat_map. exists d. auto.
Qed.

Lemma afterMatch_not_SyntaxError (r : result (list Z)) (message : string) :
  afterMatch r <> Threw (SyntaxError message).
Proof. destruct r; discriminate. Qed.

(** X16.  The compiler of [chapter06.ts] extends that of [chapter04.ts] on
    the programs that both grammars accept: when the source of a program
    of the earlier language is read by the earlier parser as a tree, and a
    source is read by the parser of [chapter06.ts] as that tree in the body
    of [func main() { ... }], both [compile] functions return the same
    bytes or throw the same error.  Not every program of the earlier
    language is one of the later: where the later parser fails, [compile]
    throws its message, which the earlier [compile] does not; and since the
    later grammar reserves [if], [else], [func], [let], [and], [or] and
    [while], a program with one of these words as the name of a variable is
    not read as that tree. *)
Theorem chapter06_extends_chapter04
        (wafer4 : string -> MatchResult Chapter04.Main)
        (wafer6 : string -> MatchResult ModuleNode)
        (Hkw : reservesKeywords wafer6)
        (source4 source6 : string) (p : Chapter04.Main)
        (H4 : wafer4 source4 = succeeded p) :
  (wafer6 source6 = succeeded [embed_Main p] ->
   compileSource wafer6 source6 = Chapter04.compileSource wafer4 source4)
  /\ (forall message,
        wafer6 source6 = failed message ->
        compileSource wafer6 source6 = Threw (SyntaxError message)
        /\ compileSource wafer6 source6
           <> Chapter04.compileSource wafer4 source4)
  /\ (forall x,
        In x (refs_BlockExpr (fd_body (embed_Main p))) ->
        isKeyword x = true ->
        wafer6 source6 <> succeeded [embed_Main p]).
Proof.
  unfold compileSource, Chapter04.compileSource. rewrite H4.
  split; [|split].
  - intros H6. rewrite H6, compile_embed_Main. reflexivity.
  - intros message H6. rewrite H6. split; [reflexivity|].
    intros H. symmetry in H.
    exact (afterMatch_not_SyntaxError _ _ H).
  - intros x Hx Hk H6.
    pose proof (Hkw source6 _ H6 (embed_Main p) x (or_introl eq_refl) Hx).
    congruence.
Qed.

Lemma chapter06_extends_chapter04_witness :
  let wafer4 := parsesOnly "let x = 10; x" let_x_10 in
  let wafer4' := parsesOnly "let if = 1; if" let_if_1 in
  let wafer6 :=
    parsesOnly "func main() { let x = 10; x }" [embed_Main let_x_10] in
  reservesKeywords wafer6
  /\ compileSource wafer6 "func main() { let x = 10; x }"
     = Chapter04.compileSource wafer4 "let x = 10; x"
  /\ Chapter04.compileSource wafer4 "let x = 10; x"
     = Returned [0; 97; 115; 109; 1; 0; 0; 0;
                 1; 5; 1; 96; 0; 1; 127;
                 3; 2; 1; 0;
                 7; 8; 1; 4; 109; 97; 105; 110; 0; 0;
                 10; 12; 1; 10; 1; 1; 127; 65; 10; 33; 0; 32; 0; 11]
  /\ compileSource wafer6 "func main() { let if = 1; if }"
     = Threw (SyntaxError "no match")
  /\ Chapter04.compileSource wafer4' "let if = 1; if"
     = Returned [0; 97; 115; 109; 1; 0; 0; 0;
                 1; 5; 1; 96; 0; 1; 127;
                 3; 2; 1; 0;
                 7; 8; 1; 4; 109; 97; 105; 110; 0; 0;
                 10; 12; 1; 10; 1; 1; 127; 65; 1; 33; 0; 32; 0; 11]
  /\ wafer6 "func main() { let if = 1; if }"
     <> succeeded [embed_Main let_if_1].
Proof.
  cbv zeta.
  assert (Hkw : reservesKeywords
                  (parsesOnly "func main() { let x = 10; x }"
                     [embed_Main let_x_10])).
  { apply parsesOnly_reservesKeywords. vm_compute. repeat constructor. }
  split; [exact Hkw|].
  split.
  { apply (chapter06_extends_chapter04
             (parsesOnly "let x = 10; x" let_x_10) _ Hkw
             "let x = 10; x" "func main() { let x = 10; x }" let_x_10);
      reflexivity. }
  split; [vm_compute; reflexivity|].
  destruct (chapter06_extends_chapter04
              (parsesOnly "let if = 1; if" let_if_1) _ Hkw
              "let if = 1; if" "func main() { let if = 1; if }" let_if_1
              eq_refl) as (_ & Hfail & Hword).
  split; [exact (proj1 (Hfail "no match" eq_refl))|].
  split; [vm_compute; reflexivity|].
  apply (Hword "if"); [left; reflexivity | reflexivity].
Defined.

(** ** Nesting of fragments ([chapter01.ts], [chapter05.ts]) *)

(** X17.  How a fragment is nested does not matter where byte lengths are
    taken: [section] and [code] applied to two fragments with the same
    numbers in the same order return the same bytes or fail alike.
    [buildModule] returns the same module, or fails alike, for records
    with the same names and types, the same numbers in the same order in
    the bodies and in the locals, and the same number of elements in the
    outermost array of the locals.  The last condition is needed: nesting
    matters to [vec], which counts the elements of the outermost array,
    and [func] applies [vec] to the locals, so that two records that
    differ only in the locals [[1, 127]] and [1, 127] give different
    modules. *)
Theorem nesting_of_fragments :
  (forall id c1 c2, flatten c1 = flatten c2 ->
     result_map flatten (section id c1) = result_map flatten (section id c2))
  /\ (forall f1 f2, flatten f1 = flatten f2 ->
        result_map flatten (code f1) = result_map flatten (code f2))
  /\ (forall ds ds', Forall2 sameFlat ds ds' ->
        buildModule ds = buildModule ds')
  /\ flatten [Arr [Num 1; Num 2]] = flatten [Num 1; Num 2]
  /\ result_map flatten (vec [Arr [Num 1; Num 2]]) = Ok [1; 1; 2]
  /\ result_map flatten (vec [Num 1; Num 2]) = Ok [2; 1; 2]
  /\ fn_name locals_grouped = fn_name locals_ungrouped
  /\ paramTypes locals_grouped = paramTypes locals_ungrouped
  /\ resultType locals_grouped = resultType locals_ungrouped
  /\ flatten (fn_locals locals_grouped) = flatten (fn_locals locals_ungrouped)
  /\ body locals_grouped = body locals_ungrouped
  /\ buildModule [locals_grouped]
     = Ok [0; 97; 115; 109; 1; 0; 0; 0;
           1; 5; 1; 96; 0; 1; 127;
           3; 2; 1; 0;
           7; 5; 1; 1; 102; 0; 0;
           10; 8; 1; 6; 1; 1; 127; 65; 0; 11]
  /\ buildModule [locals_ungrouped]
     = Ok [0; 97; 115; 109; 1; 0; 0; 0;
           1; 5; 1; 96; 0; 1; 127;
           3; 2; 1; 0;
           7; 5; 1; 1; 102; 0; 0;
           10; 8; 1; 6; 2; 1; 127; 65; 0; 11].
Proof.
  split; [|split; [|split; [|repeat split]]].
  - intros id c1 c2 H. rewrite !section_eq, H.
    destruct (len (flatten c2) <=? 127); [|reflexivity].
    cbn [result_map]. f_equal.
    rewrite !flatten_cons, !flatten_item_Arr, H. reflexivity.
  - intros f1 f2 H. unfold code, u32. cbv zeta. rewrite H.
    destruct (len (flatten f2) <=? 127); [|reflexivity].
    cbn [bind result_map]. f_equal.
    rewrite !flatten_cons, !flatten_item_Arr, H. reflexivity.
  - exact buildModule_sameFlat.
Qed.

(** [section] and [code] on two nestings of [1, 2]; [buildModule] on two
    records of [func f() { 0 }] with one local variable, whose locals and
    bodies are nested in two ways below the outermost array. *)
Lemma nesting_of_fragments_witness :
  let r1 := mkFunctionDecl "f" [] valtype.i32
              [Arr [Num 1; Num valtype.i32]]
              [Arr [Num instr.i32_const; Num 0]; Num instr.end_] in
  let r2 := mkFunctionDecl "f" [] valtype.i32
              [Arr [Arr [Num 1]; Num valtype.i32]]
              [Num instr.i32_const; Arr [Num 0; Num instr.end_]] in
  flatten [Arr [Num 1]; Num 2] = flatten [Num 1; Arr [Num 2]]
  /\ result_map flatten (section 10 [Arr [Num 1]; Num 2])
     = result_map flatten (section 10 [Num 1; Arr [Num 2]])
  /\ result_map flatten (code [Arr [Num 1]; Num 2])
     = result_map flatten (code [Num 1; Arr [Num 2]])
  /\ Forall2 sameFlat [r1] [r2]
  /\ buildModule [r1] = buildModule [r2].
Proof.
  cbv zeta.
  destruct nesting_of_fragments as (Hsection & Hcode & Hmodule & _).
  split; [reflexivity|].
  split; [apply Hsection; reflexivity|].
  split; [apply Hcode; reflexivity|].
  assert (Hsame : Forall2 sameFlat
            [mkFunctionDecl "f" [] valtype.i32
               [Arr [Num 1; Num valtype.i32]]
               [Arr [Num instr.i32_const; Num 0]; Num instr.end_]]
            [mkFunctionDecl "f" [] valtype.i32
               [Arr [Arr [Num 1]; Num valtype.i32]]
               [Num instr.i32_const; Arr [Num 0; Num instr.end_]]]).
  { constructor; [|constructor]. repeat split. }
  split; [exact Hsame|].
  apply Hmodule. exact Hsame.
Defined.

(** ** One function from source to bytes ([toWasmFlat], [compile]) *)

Lemma moduleBytes_single (r : FunctionDecl) :
  exists prefix, moduleBytes [r] = prefix ++ flatten (body r).
Proof.
  unfold moduleBytes, framed. cbv zeta. cbn [flat_map].
  rewrite !app_nil_r. unfold codeEntry, funcBytes.
  rewrite !app_comm_cons, !app_assoc. eexists. reflexivity.
Qed.

(** X18.  In [chapter05.ts], the module compiled from a single function
    declaration ends with that function's flattened code as [toWasmFlat]
    returns it, each number stored modulo 256. *)
Theorem compile_single_function_code (d : Chapter05.FunctionDeclNode)
        (out : list Z) (H : Chapter05.compile [d] = Ok out) :
  exists code prefix,
    Chapter05.toWasmFlat d = Ok code
    /\ out = prefix ++ Uint8Array_from code.
Proof.
  unfold Chapter05.compile, Chapter05.functionDecls in H. cbv zeta in H.
  cbn [mapM] in H.
  destruct (Chapter05.functionDecls_FunctionDecl
              (Chapter05.buildSymbolTable [d]) d) as [r|] eqn:Hx;
    [|discriminate].
  cbn [bind] in H. rewrite buildModule_spec in H.
  destruct (fits [r]) eqn:Hfits; [|discriminate].
  assert (Hout : out = Uint8Array_from (moduleBytes [r])) by congruence.
  clear H. subst out.
  unfold Chapter05.functionDecls_FunctionDecl in Hx.
  destruct (JSMap.get (Chapter05.buildSymbolTable [d]) (Chapter05.fd_ident d))
    as [sc|] eqn:Hsc; [|discriminate].
  cbv zeta in Hx. bind_inv Hx.
  assert (Hr : body r = x0) by (injection Hx as <-; reflexivity).
  unfold Chapter05.toWasmFlat. cbv zeta. rewrite Hx1. cbn [bind].
  destruct (moduleBytes_single r) as [prefix Hp].
  exists (flatten x0), (Uint8Array_from prefix). split; [reflexivity|].
  now rewrite Hp, Hr, Uint8Array_from_app.
Qed.

Lemma compile_single_function_code_witness :
  exists out code prefix,
    Chapter05.compile [test5_f2] = Ok out
    /\ Chapter05.toWasmFlat test5_f2 = Ok code
    /\ out = prefix ++ Uint8Array_from code.
Proof.
  edestruct (compile_single_function_code test5_f2)
    as (code & prefix & Hcode & Hout); [reflexivity|].
  eexists. exists code, prefix.
  split; [reflexivity | split; [exact Hcode | exact Hout]].
Defined.

Example chapter05_toWasmFlat_f2 :
  Chapter05.toWasmFlat test5_f2 = Ok [0x41; 12; 0x21; 2; 0x20; 1; 0x0b].
Proof. reflexivity. Qed.

(** ** [chapter05.ts] and [chapter06.ts] *)

Lemma walked_embed5 :
  (forall e, walked_Expr (embed5_Expr e) = [])
  /\ (forall q, walked_PrimaryExpr (embed5_PrimaryExpr q) = []).
Proof.
  apply Chapter05.syntax5_mutind.
  - intros ident e IH. exact IH.
  - intros num Hnum rest Hrest. cbn [embed5_Expr walked_Expr].
    rewrite Hnum. cbn [app]. apply list_all_snd_Forall in Hrest.
    induction Hrest as [|r rest Hr _ IH]; [reflexivity|].
    cbn [map flat_map snd]. now rewrite Hr, IH.
  - reflexivity.
  - intros ident args Hargs. cbn [embed5_PrimaryExpr walked_PrimaryExpr].
    apply list_all_Forall in Hargs.
    induction Hargs as [|a args Ha _ IH]; [reflexivity|].
    cbn [map flat_map]. now rewrite Ha, IH.
  - reflexivity.
Qed.

Lemma functionScope_embed5 (d : Chapter05.FunctionDeclNode) :
  functionScope (embed5_FunctionDecl d) = Chapter05.functionScope d.
Proof.
  rewrite functionScope_fold. unfold Chapter05.functionScope, bst_Params.
  cbn [embed5_FunctionDecl fd_params fd_body walked_BlockExpr].
  rewrite (proj1 walked_embed5), app_nil_r.
  unfold Chapter05.bst_BlockExpr.
  generalize (fold_left (declare param) (Chapter05.fd_params d) JSMap.empty).
  induction (Chapter05.statements (Chapter05.fd_body d)) as [|s ss IH];
    intros sc; [reflexivity|].
  cbn [map flat_map]. rewrite fold_left_app, IH. cbn [fold_left]. f_equal.
  destruct s as [ident e|e]; cbn [embed5_Statement walked_Statement];
    [reflexivity|].
  now rewrite (proj1 walked_embed5).
Qed.

Lemma buildSymbolTable_embed5 (m : Chapter05.ModuleNode) :
  buildSymbolTable (map embed5_FunctionDecl m) = Chapter05.buildSymbolTable m.
Proof.
  unfold buildSymbolTable, Chapter05.buildSymbolTable.
  generalize (@JSMap.empty FunScope).
  induction m as [|d m IH]; intros top; [reflexivity|].
  cbn [map fold_left]. rewrite IH. f_equal.
  unfold bst_FunctionDecl, Chapter05.bst_FunctionDecl. cbv zeta.
  now rewrite functionScope_embed5.
Qed.

Lemma mapM_result_map {A A' B C : Type} (h : B -> C) (f : A -> result B)
      (f' : A' -> result B) (g : A' -> A) (l : list A') :
  Forall (fun a' => result_map h (f (g a')) = result_map h (f' a')) l ->
  result_map (map h) (mapM f (map g l)) = result_map (map h) (mapM f' l).
Proof.
  induction 1 as [|a l Ha _ IH]; [reflexivity|].
  cbn [map mapM]. fold (mapM f). fold (mapM f').
  apply (result_map_bind h); [exact Ha|].
  intros b1 b2 Hb. apply (result_map_bind (map h)); [exact IH|].
  intros bs1 bs2 Hbs. cbn [result_map map]. now rewrite Hb, Hbs.
Qed.

Lemma flatten_map_Arr_flat_map (cs : list bytes) :
  flatten (map Arr cs) = flat_map (fun x => x) (map flatten cs).
Proof.
  induction cs as [|c cs IH]; [reflexivity|].
  cbn [map flat_map]. now rewrite flatten_cons, flatten_item_Arr, IH.
Qed.

Lemma mapM_result_flatten {A A' : Type} (f : A -> result bytes)
      (f' : A' -> result bytes) (g : A' -> A) (l : list A') :
  Forall (fun a' => result_map flatten (f (g a'))
                    = result_map flatten (f' a')) l ->
  result_map (fun cs => flatten (map Arr cs)) (mapM f (map g l))
  = result_map (fun cs => flatten (map Arr cs)) (mapM f' l).
Proof.
  intros H. apply (mapM_result_map flatten) in H.
  destruct (mapM f (map g l)) as [cs|e], (mapM f' l) as [cs'|e'];
    cbn [result_map] in *; try discriminate; [|congruence].
  f_equal. rewrite !flatten_map_Arr_flat_map. congruence.
Qed.

Section Chapter05Code.
Variable symbols : Scope.
Variable cur : FunScope.

Lemma toWasm_op5 (o : Chapter03.op) :
  toWasm_binaryOp (embed_op o) = Ok (opcode3 o)
  /\ Chapter05.toWasm_op o = [Num (opcode3 o)].
Proof. destruct o; split; reflexivity. Qed.

Lemma loops_chapter05_chapter06
      (rest : list (Chapter03.op * Chapter05.PrimaryExpr)) :
  Forall (fun r => result_map flatten
                     (toWasm_PrimaryExpr symbols cur
                        (embed5_PrimaryExpr (snd r)))
                   = result_map flatten
                       (Chapter05.toWasm_PrimaryExpr symbols cur (snd r)))
         rest ->
  forall acc6 acc5, flatten acc6 = flatten acc5 ->
  result_map flatten
    (Expr_binary_loop (toWasm_PrimaryExpr symbols cur)
       (map (fun r => (embed_op (fst r), embed5_PrimaryExpr (snd r))) rest)
       acc6)
  = result_map flatten
      (Chapter05.Expr_arithmetic_loop
         (Chapter05.toWasm_PrimaryExpr symbols cur) rest acc5).
Proof.
  induction 1 as [|[o q] rest Hq _ IH]; intros acc6 acc5 Hacc.
  - cbn. now rewrite Hacc.
  - cbn [map Expr_binary_loop Chapter05.Expr_arithmetic_loop fst snd] in *.
    apply (result_map_bind flatten flatten); [exact Hq|].
    intros a6 a5 Ha. destruct (toWasm_op5 o) as [-> ->]. cbn [bind].
    apply IH. rewrite !flatten_app, Hacc, !flatten_cons, !flatten_item_Arr, Ha.
    reflexivity.
Qed.

Lemma toWasm_embed5 :
  (forall e, result_map flatten (toWasm_Expr symbols cur (embed5_Expr e))
             = result_map flatten (Chapter05.toWasm_Expr symbols cur e))
  /\ (forall q, result_map flatten
                  (toWasm_PrimaryExpr symbols cur (embed5_PrimaryExpr q))
                = result_map flatten
                    (Chapter05.toWasm_PrimaryExpr symbols cur q)).
Proof.
  apply Chapter05.syntax5_mutind.
  - intros ident e IH.
    cbn [embed5_Expr toWasm_Expr Chapter05.toWasm_Expr].
    destruct (resolveSymbol ident cur) as [info|err]; [|reflexivity].
    cbn [bind]. apply (result_map_bind flatten flatten); [exact IH|].
    intros c6 c5 Hc. destruct (localidx (idx info)); [|reflexivity].
    cbn [bind result_map]. f_equal.
    rewrite !flatten_cons, !flatten_item_Arr, Hc. reflexivity.
  - intros num Hnum rest Hrest.
    cbn [embed5_Expr toWasm_Expr Chapter05.toWasm_Expr].
    apply (result_map_bind flatten flatten); [exact Hnum|].
    intros c6 c5 Hc. apply loops_chapter05_chapter06.
    + apply list_all_snd_Forall in Hrest. exact Hrest.
    + rewrite !flatten_cons, !flatten_item_Arr, Hc. reflexivity.
  - reflexivity.
  - intros ident args Hargs.
    cbn [embed5_PrimaryExpr toWasm_PrimaryExpr Chapter05.toWasm_PrimaryExpr].
    cbv zeta. apply (result_map_bind flatten flatten).
    + destruct args as [|a args]; [reflexivity|].
      apply list_all_Forall in Hargs.
      apply (mapM_result_flatten (toWasm_Expr symbols cur)
               (Chapter05.toWasm_Expr symbols cur) embed5_Expr) in Hargs.
      unfold toWasm_optArgs, Chapter05.toWasm_optArgs.
      change (map embed5_Expr (a :: args))
        with (embed5_Expr a :: map embed5_Expr args) in *.
      destruct (mapM (toWasm_Expr symbols cur) _) as [cs6|e6],
               (mapM (Chapter05.toWasm_Expr symbols cur) _) as [cs5|e5];
        cbn [result_map bind] in *; try discriminate; [|exact Hargs].
      f_equal. rewrite !flatten_cons, !flatten_item_Arr. congruence.
    + intros a6 a5 Ha. destruct (funcidx _); [|reflexivity].
      cbn [bind result_map]. f_equal.
      rewrite !flatten_cons, !flatten_item_Arr, Ha. reflexivity.
  - reflexivity.
Qed.

Lemma toWasm_embed5_Statement (s : Chapter05.Statement) :
  result_map flatten (toWasm_Statement symbols cur (embed5_Statement s))
  = result_map flatten (Chapter05.toWasm_Statement symbols cur s).
Proof.
  destruct s as [ident e|e];
    cbn [embed5_Statement toWasm_Statement Chapter05.toWasm_Statement].
  - destruct (resolveSymbol ident cur) as [info|err]; [|reflexivity].
    cbn [bind].
    apply (result_map_bind flatten flatten); [apply toWasm_embed5|].
    intros c6 c5 Hc. destruct (localidx (idx info)); [|reflexivity].
    cbn [bind result_map]. f_equal.
    rewrite !flatten_cons, !flatten_item_Arr, Hc. reflexivity.
  - apply (result_map_bind flatten flatten); [apply toWasm_embed5|].
    intros c6 c5 Hc. cbn [result_map]. f_equal.
    rewrite !flatten_cons, !flatten_item_Arr, Hc. reflexivity.
Qed.

Lemma toWasm_embed5_BlockExpr (b : Chapter05.BlockExpr) :
  result_map flatten
    (toWasm_BlockExpr symbols cur
       (BlockExpr_ (map embed5_Statement (Chapter05.statements b))
                   (embed5_Expr (Chapter05.expr b))))
  = result_map flatten (Chapter05.toWasm_BlockExpr symbols cur b).
Proof.
  unfold Chapter05.toWasm_BlockExpr. cbn [toWasm_BlockExpr].
  apply (result_map_bind (fun cs => flatten (map Arr cs))).
  - apply mapM_result_flatten. apply Forall_forall. intros s _.
    apply toWasm_embed5_Statement.
  - intros cs6 cs5 Hcs.
    apply (result_map_bind flatten flatten); [apply toWasm_embed5|].
    intros c6 c5 Hc. cbn [result_map]. f_equal.
    rewrite !flatten_app, !flatten_cons, !flatten_item_Arr, Hc.
    cbn beta in Hcs. now rewrite Hcs.
Qed.
End Chapter05Code.

Lemma toWasm_embed5_FunctionDecl (symbols : Scope)
      (d : Chapter05.FunctionDeclNode) :
  result_map flatten (toWasm_FunctionDecl symbols (embed5_FunctionDecl d))
  = result_map flatten (Chapter05.toWasm_FunctionDecl symbols d).
Proof.
  unfold toWasm_FunctionDecl, Chapter05.toWasm_FunctionDecl.
  cbn [embed5_FunctionDecl fd_ident fd_body].
  destruct (JSMap.get symbols (Chapter05.fd_ident d)) as [cur|];
    [|reflexivity].
  apply (result_map_bind flatten flatten); [apply toWasm_embed5_BlockExpr|].
  intros b6 b5 Hb. cbn [result_map]. f_equal.
  rewrite !flatten_cons, !flatten_item_Arr, Hb. reflexivity.
Qed.

Lemma functionDecls_embed5 (symbols : Scope) (d : Chapter05.FunctionDeclNode) :
  result_map flatRecord
    (functionDecls_FunctionDecl symbols (embed5_FunctionDecl d))
  = result_map flatRecord (Chapter05.functionDecls_FunctionDecl symbols d).
Proof.
  unfold functionDecls_FunctionDecl, Chapter05.functionDecls_FunctionDecl.
  change (fd_ident (embed5_FunctionDecl d)) with (Chapter05.fd_ident d).
  destruct (JSMap.get symbols (Chapter05.fd_ident d)) as [sc|];
    [|reflexivity].
  cbv zeta. destruct (locals _ _) as [l|e]; [|reflexivity]. cbn [bind].
  apply (result_map_bind flatten);
    [apply toWasm_embed5_FunctionDecl|].
  intros b6 b5 Hb. cbn [result_map]. unfold flatRecord.
  cbn [fn_name paramTypes resultType fn_locals body]. now rewrite Hb.
Qed.

Lemma flatRecord_sameFlat (ds ds' : list FunctionDecl) :
  map flatRecord ds = map flatRecord ds' -> Forall2 sameFlat ds ds'.
Proof.
  revert ds'. induction ds as [|f ds IH]; intros [|g ds'] H;
    try discriminate; constructor.
  - cbn [map] in H. injection H as Hn Hp Hr Hl Hfl Hb _.
    unfold sameFlat. auto 10.
  - apply IH. cbn [map] in H. now injection H.
Qed.

Lemma compile_embed5 (m : Chapter05.ModuleNode) :
  compile (map embed5_FunctionDecl m) = Chapter05.compile m.
Proof.
  unfold compile, Chapter05.compile, functionDecls, Chapter05.functionDecls.
  cbv zeta. rewrite buildSymbolTable_embed5.
  pose proof (mapM_result_map flatRecord
                (functionDecls_FunctionDecl (Chapter05.buildSymbolTable m))
                (Chapter05.functionDecls_FunctionDecl
                   (Chapter05.buildSymbolTable m))
                embed5_FunctionDecl m) as H.
  assert (Hall : Forall (fun d => result_map flatRecord
                    (functionDecls_FunctionDecl (Chapter05.buildSymbolTable m)
                       (embed5_FunctionDecl d))
                  = result_map flatRecord
                      (Chapter05.functionDecls_FunctionDecl
                         (Chapter05.buildSymbolTable m) d)) m).
  { apply Forall_forall. intros d _. apply functionDecls_embed5. }
  specialize (H Hall).
  destruct (mapM (functionDecls_FunctionDecl _) _) as [ds6|e6],
           (mapM (Chapter05.functionDecls_FunctionDecl _) _) as [ds5|e5];
    cbn [result_map bind] in *; try discriminate; [|congruence].
  apply buildModule_sameFlat, flatRecord_sameFlat. congruence.
Qed.

(** X19.  The compiler of [chapter06.ts] extends that of [chapter05.ts] on
    the modules that both grammars accept: when a source is read by the
    earlier parser as a module and by the parser of [chapter06.ts] as the
    same module, both [compile] functions return the same bytes or throw
    the same error.  Not every module of the earlier language is one of
    the later: where the later parser fails, [compile] throws its message,
    which the earlier [compile] does not; and since the later grammar
    reserves [if], [else], [func], [let], [and], [or] and [while], a
    module with one of these words as the name of a variable is not read
    as the same module. *)
Theorem chapter06_extends_chapter05
        (wafer5 : string -> MatchResult Chapter05.ModuleNode)
        (wafer6 : string -> MatchResult ModuleNode)
        (Hkw : reservesKeywords wafer6)
        (source : string) (m : Chapter05.ModuleNode)
        (H5 : wafer5 source = succeeded m) :
  (wafer6 source = succeeded (map embed5_FunctionDecl m) ->
   compileSource wafer6 source = Chapter05.compileSource wafer5 source)
  /\ (forall message,
        wafer6 source = failed message ->
        compileSource wafer6 source = Threw (SyntaxError message)
        /\ compileSource wafer6 source
           <> Chapter05.compileSource wafer5 source)
  /\ (forall d x,
        In d m ->
        In x (refs_BlockExpr (fd_body (embed5_FunctionDecl d))) ->
        isKeyword x = true ->
        wafer6 source <> succeeded (map embed5_FunctionDecl m)).
Proof.
  unfold compileSource, Chapter05.compileSource. rewrite H5.
  split; [|split].
  - intros H6. rewrite H6, compile_embed5. reflexivity.
  - intros message H6. rewrite H6. split; [reflexivity|].
    intros H. symmetry in H.
    exact (afterMatch_not_SyntaxError _ _ H).
  - intros d x Hd Hx Hk H6.
    pose proof (Hkw source _ H6 (embed5_FunctionDecl d) x
                  (in_map embed5_FunctionDecl m d Hd) Hx).
    congruence.
Qed.

Lemma chapter06_extends_chapter05_witness :
  let f2 := "func f2(a, b) { let x = 12; b }" in
  let f := "func f(a) { let while = 1; a }" in
  let wafer5 := parsesOnly f2 [test5_f2] in
  let wafer5' := parsesOnly f [let_while_1] in
  let wafer6 := parsesOnly f2 [embed5_FunctionDecl test5_f2] in
  reservesKeywords wafer6
  /\ compileSource wafer6 f2 = Chapter05.compileSource wafer5 f2
  /\ Chapter05.compileSource wafer5 f2
     = Returned [0; 97; 115; 109; 1; 0; 0; 0;
                 1; 7; 1; 96; 2; 127; 127; 1; 127;
                 3; 2; 1; 0;
                 7; 6; 1; 2; 102; 50; 0; 0;
                 10; 12; 1; 10; 1; 1; 127; 65; 12; 33; 2; 32; 1; 11]
  /\ compileSource wafer6 f = Threw (SyntaxError "no match")
  /\ Chapter05.compileSource wafer5' f
     = Returned [0; 97; 115; 109; 1; 0; 0; 0;
                 1; 6; 1; 96; 1; 127; 1; 127;
                 3; 2; 1; 0;
                 7; 5; 1; 1; 102; 0; 0;
                 10; 12; 1; 10; 1; 1; 127; 65; 1; 33; 1; 32; 0; 11]
  /\ wafer6 f <> succeeded (map embed5_FunctionDecl [let_while_1]).
Proof.
  cbv zeta.
  assert (Hkw : reservesKeywords
                  (parsesOnly "func f2(a, b) { let x = 12; b }"
                     [embed5_FunctionDecl test5_f2])).
  { apply parsesOnly_reservesKeywords. vm_compute. repeat constructor. }
  split; [exact Hkw|].
  split.
  { apply (chapter06_extends_chapter05
             (parsesOnly "func f2(a, b) { let x = 12; b }" [test5_f2]) _ Hkw
             "func f2(a, b) { let x = 12; b }" [test5_f2]);
      reflexivity. }
  split; [vm_compute; reflexivity|].
  destruct (chapter06_extends_chapter05
              (parsesOnly "func f(a) { let while = 1; a }" [let_while_1])
              _ Hkw "func f(a) { let while = 1; a }" [let_while_1] eq_refl)
    as (_ & Hfail & Hword).
  split; [exact (proj1 (Hfail "no match" eq_refl))|].
  split; [vm_compute; reflexivity|].
  apply (Hword let_while_1 "while");
    [left; reflexivity | left; reflexivity | reflexivity].
Defined.


(** ** Calls and local indices ([chapter06.ts]) *)

(** X20.  The code of a call is the code of its arguments, from left to
    right, followed by the opcode [call] and the position of the callee's
    name among the keys of the module scope. *)
Theorem call_lowering (symbols : Scope) (cur : FunScope) (ident : string)
        (args : list Expr) (c : bytes)
        (H : toWasm_PrimaryExpr symbols cur (CallExpr ident args) = Ok c) :
  exists cs,
    Forall2 (fun a ca => toWasm_Expr symbols cur a = Ok ca) args cs
    /\ flatten c
       = flat_map flatten cs
         ++ [instr.call; indexOf (JSMap.keys symbols) ident].
Proof.
  simpl in H. bind_inv H. apply u32_Ok_inv in Hx0 as [_ ->].
  assert (Hc : c = [Arr x; Arr [Num instr.call;
                                Arr [Num (indexOf (JSMap.keys symbols)
                                                  ident)]]])
    by congruence.
  subst c. unfold toWasm_optArgs in Hx. destruct args as [|a args].
  - exists []. split; [constructor|].
    assert (x = []) by congruence. subst x. reflexivity.
  - bind_inv Hx. exists x0. split; [now apply mapM_Ok_inv|].
    assert (Hx' : x = [Arr (map Arr x0)]) by congruence. subst x.
    rewrite !flatten_cons, !flatten_item_Arr, flatten_cons, flatten_item_Arr.
    change (flatten []) with (@nil Z). rewrite !app_nil_r.
    rewrite flatten_map_Arr_flat_map, flat_map_concat_map, map_id.
    rewrite <- flat_map_concat_map. reflexivity.
Qed.

Lemma call_lowering_witness :
  exists c cs,
    toWasm_PrimaryExpr (buildSymbolTable test_doIt_add) []
      (CallExpr "add" [Expr_binary (PrimaryExpr_num 1) [];
                       Expr_binary (PrimaryExpr_num 2) []]) = Ok c
    /\ Forall2 (fun a ca => toWasm_Expr (buildSymbolTable test_doIt_add) [] a
                            = Ok ca)
               [Expr_binary (PrimaryExpr_num 1) [];
                Expr_binary (PrimaryExpr_num 2) []] cs
    /\ flatten c = flat_map flatten cs ++ [0x10; 1].
Proof.
  edestruct (call_lowering (buildSymbolTable test_doIt_add) [] "add"
               [Expr_binary (PrimaryExpr_num 1) [];
                Expr_binary (PrimaryExpr_num 2) []])
    as (cs & Hcs & Hflat); [reflexivity|].
  eexists. exists cs. split; [reflexivity|]. split; [exact Hcs|exact Hflat].
Defined.






(** ** Storage indices in [chapter05.ts] *)

Lemma walked_embed5_FunctionDecl (d : Chapter05.FunctionDeclNode) :
  walked_BlockExpr (fd_body (embed5_FunctionDecl d)) = letNames5 d.
Proof.
  unfold letNames5. cbn [embed5_FunctionDecl fd_body walked_BlockExpr].
  rewrite (proj1 walked_embed5), app_nil_r.
  induction (Chapter05.statements (Chapter05.fd_body d)) as [|s ss IH];
    [reflexivity|].
  cbn [map flat_map]. rewrite IH. f_equal.
  destruct s as [ident e|e]; cbn [embed5_Statement walked_Statement];
    [reflexivity | apply (proj1 walked_embed5)].
Qed.

(** X22.  In [chapter05.ts], where a statement stands nowhere but directly
    in the block of a function, every let statement gets an index: when the
    parameters and the let statements of a function have pairwise distinct
    names, parameter number [i] resolves to index [i] and the let statement
    number [j] to index [p + j], [p] being the number of parameters. *)
Theorem chapter05_sequential_indices (d : Chapter05.FunctionDeclNode)
        (Hnd : NoDup (Chapter05.fd_params d ++ letNames5 d)) :
  Chapter05.functionScope d
  = numbered param 0 (Chapter05.fd_params d)
    ++ numbered local (len (Chapter05.fd_params d)) (letNames5 d)
  /\ (forall i x, nth_error (Chapter05.fd_params d) i = Some x ->
        resolveSymbol x (Chapter05.functionScope d)
        = Ok (mkSymbol x (Z.of_nat i) param))
  /\ (forall j x, nth_error (letNames5 d) j = Some x ->
        resolveSymbol x (Chapter05.functionScope d)
        = Ok (mkSymbol x (len (Chapter05.fd_params d) + Z.of_nat j) local)).
Proof.
  rewrite <- functionScope_embed5.
  pose proof (walked_embed5_FunctionDecl d) as Hw.
  assert (Hnd' : NoDup (fd_params (embed5_FunctionDecl d)
                        ++ walked_BlockExpr (fd_body (embed5_FunctionDecl d))))
    by (rewrite Hw; exact Hnd).
  pose proof (functionScope_numbered _ Hnd') as Hsc.
  rewrite Hw in Hsc. change (fd_params (embed5_FunctionDecl d))
    with (Chapter05.fd_params d) in Hsc.
  split; [exact Hsc|]. rewrite Hsc.
  pose proof (NoDup_app_remove_l _ _ Hnd) as Hndw.
  pose proof (NoDup_app_remove_r _ _ Hnd) as Hndp.
  split.
  - intros i x Hi. apply resolveSymbol_get. rewrite get_app.
    now rewrite (get_numbered param _ 0 i x Hndp Hi).
  - intros j x Hj. apply resolveSymbol_get. rewrite get_app.
    assert (Hnone : JSMap.get (numbered param 0 (Chapter05.fd_params d)) x
                    = None).
    { apply has_false_get, has_false_keys. rewrite keys_numbered.
      intros Hin. apply nth_error_In in Hj.
      exact (NoDup_app_disjoint _ _ x Hnd Hin Hj). }
    rewrite Hnone. exact (get_numbered local _ _ j x Hndw Hj).
Qed.

Lemma chapter05_sequential_indices_witness :
  NoDup (Chapter05.fd_params test5_f2 ++ letNames5 test5_f2)
  /\ resolveSymbol "x" (Chapter05.functionScope test5_f2)
     = Ok (mkSymbol "x" 2 local).
Proof.
  assert (Hnd : NoDup (Chapter05.fd_params test5_f2 ++ letNames5 test5_f2)).
  { repeat constructor; cbn; intros H; repeat destruct H as [H|H];
      try discriminate H; exact H. }
  split; [exact Hnd|].
  destruct (chapter05_sequential_indices test5_f2 Hnd) as (_ & _ & Hlets).
  exact (Hlets 0%nat "x" eq_refl).
Defined.

(** ** Conditionals ([chapter06.ts]) *)

Lemma repeat_S_snoc {A : Type} (a : A) (n : nat) :
  repeat a (S n) = repeat a n ++ [a].
Proof. induction n as [|n IH]; [reflexivity|]. cbn in *. now rewrite <- IH. Qed.

Lemma nested_ends (bt : Z) (links : list (list Z * list Z))
      (final : option (list Z)) :
  links <> [] ->
  exists pre,
    nested bt links final = pre ++ repeat instr.end_ (List.length links).
Proof.
  induction links as [|[c t] rest IH]; [congruence|]. intros _.
  destruct rest as [|l rest].
  - cbn [nested List.length repeat]. eexists.
    rewrite !app_assoc. reflexivity.
  - destruct IH as [pre Hpre]; [discriminate|].
    change (nested bt ((c, t) :: l :: rest) final)
      with (c ++ [instr.if_; bt] ++ t
            ++ (instr.else_ :: nested bt (l :: rest) final)
            ++ [instr.end_]).
    rewrite Hpre.
    change (List.length ((c, t) :: l :: rest))
      with (S (List.length (l :: rest))).
    rewrite (repeat_S_snoc instr.end_ (List.length (l :: rest))).
    eexists. rewrite app_comm_cons, !app_assoc. reflexivity.
Qed.

Lemma flatten_conditional (c t f : bytes) (bt : Z) :
  flatten [Arr c; Arr [Num instr.if_; Num bt]; Arr t; Arr f; Num instr.end_]
  = flatten c ++ [instr.if_; bt] ++ flatten t ++ flatten f ++ [instr.end_].
Proof.
  rewrite !flatten_cons, !flatten_item_Arr.
  rewrite (flatten_cons (Num instr.if_)), (flatten_cons (Num bt)).
  reflexivity.
Qed.

Lemma flatten_conditional_else (c t f : bytes) (bt : Z) :
  flatten [Arr c; Arr [Num instr.if_; Num bt]; Arr t; Num instr.else_;
           Arr f; Num instr.end_]
  = flatten c ++ [instr.if_; bt] ++ flatten t
    ++ (instr.else_ :: flatten f) ++ [instr.end_].
Proof.
  rewrite !flatten_cons, !flatten_item_Arr.
  rewrite (flatten_cons (Num instr.if_)), (flatten_cons (Num bt)).
  reflexivity.
Qed.

Lemma links_IfStatement_cons (s : IfStatement) :
  exists l rest, links_IfStatement s = l :: rest.
Proof. destruct s; cbn; eauto. Qed.

Lemma links_IfExpr_cons (e : IfExpr) :
  exists l rest, links_IfExpr e = l :: rest.
Proof. destruct e; cbn; eauto. Qed.

Lemma IfStatement_layout (symbols : Scope) (cur : FunScope)
      (s : IfStatement) (c : bytes) :
  toWasm_IfStatement symbols cur s = Ok c ->
  exists links final,
    Forall2 (codeOf_link_IfStatement symbols cur)
            (links_IfStatement s) links
    /\ codeOf_final_IfStatement symbols cur (final_IfStatement s) final
    /\ flatten c = nested blocktype.empty links final.
Proof.
  revert c.
  induction s as [cond thenBlock|cond thenBlock elseBlock
                  |cond thenBlock elseIf IH]; intros c H; simpl in H.
  - destruct (toWasm_Expr symbols cur cond) as [cc|] eqn:Hcc;
      [|discriminate].
    destruct (mapM (toWasm_Statement symbols cur) thenBlock) as [tc|] eqn:Htc;
      [|discriminate].
    cbn [bind] in H.
    assert (Hc : c = [Arr cc; Arr [Num instr.if_; Num blocktype.empty];
                      Arr (map Arr tc); Arr []; Num instr.end_])
      by congruence.
    subst c.
    exists [(flatten cc, flatten (map Arr tc))], None.
    split; [|split].
    + constructor; [|constructor]. split; cbn [fst snd].
      * rewrite Hcc. reflexivity.
      * unfold toWasm_BlockStatements. rewrite Htc. reflexivity.
    + exact I.
    + rewrite flatten_conditional. reflexivity.
  - destruct (mapM (toWasm_Statement symbols cur) elseBlock) as [fc|] eqn:Hfc;
      [|discriminate].
    destruct (toWasm_Expr symbols cur cond) as [cc|] eqn:Hcc;
      [|discriminate].
    destruct (mapM (toWasm_Statement symbols cur) thenBlock) as [tc|] eqn:Htc;
      [|discriminate].
    cbn [bind] in H.
    assert (Hc : c = [Arr cc; Arr [Num instr.if_; Num blocktype.empty];
                      Arr (map Arr tc);
                      Arr [Num instr.else_; Arr (map Arr fc)];
                      Num instr.end_])
      by congruence.
    subst c.
    exists [(flatten cc, flatten (map Arr tc))], (Some (flatten (map Arr fc))).
    split; [|split].
    + constructor; [|constructor]. split; cbn [fst snd].
      * rewrite Hcc. reflexivity.
      * unfold toWasm_BlockStatements. rewrite Htc. reflexivity.
    + cbn [final_IfStatement codeOf_final_IfStatement].
      unfold toWasm_BlockStatements. rewrite Hfc. reflexivity.
    + rewrite flatten_conditional.
      rewrite (flatten_cons (Num instr.else_)), (flatten_cons (Arr _)),
        flatten_item_Arr.
      change (flatten []) with (@nil Z). rewrite app_nil_r. reflexivity.
  - destruct (toWasm_IfStatement symbols cur elseIf) as [fc|] eqn:Hfc;
      [|discriminate].
    destruct (toWasm_Expr symbols cur cond) as [cc|] eqn:Hcc;
      [|discriminate].
    destruct (mapM (toWasm_Statement symbols cur) thenBlock) as [tc|] eqn:Htc;
      [|discriminate].
    cbn [bind] in H.
    assert (Hc : c = [Arr cc; Arr [Num instr.if_; Num blocktype.empty];
                      Arr (map Arr tc); Arr [Num instr.else_; Arr fc];
                      Num instr.end_])
      by congruence.
    subst c.
    destruct (IH fc eq_refl) as (links & final & Hlinks & Hfinal & Hflat).
    exists ((flatten cc, flatten (map Arr tc)) :: links), final.
    split; [|split].
    + cbn [links_IfStatement]. constructor; [|exact Hlinks].
      split; cbn [fst snd].
      * rewrite Hcc. reflexivity.
      * unfold toWasm_BlockStatements. rewrite Htc. reflexivity.
    + exact Hfinal.
    + rewrite flatten_conditional.
      rewrite (flatten_cons (Num instr.else_)), (flatten_cons (Arr _)),
        flatten_item_Arr.
      change (flatten []) with (@nil Z). rewrite app_nil_r, Hflat.
      destruct (links_IfStatement_cons elseIf) as (l & rest & Hl).
      rewrite Hl in Hlinks. inversion Hlinks; subst. reflexivity.
Qed.

Lemma IfExpr_layout (symbols : Scope) (cur : FunScope)
      (e : IfExpr) (c : bytes) :
  toWasm_IfExpr symbols cur e = Ok c ->
  exists links final,
    Forall2 (codeOf_link_IfExpr symbols cur) (links_IfExpr e) links
    /\ result_map flatten (toWasm_BlockExpr symbols cur (final_IfExpr e))
       = Ok final
    /\ flatten c = nested blocktype.i32 links (Some final).
Proof.
  revert c.
  induction e as [cond thenBlock elseBlock|cond thenBlock elseIf IH];
    intros c H; simpl in H.
  - destruct (toWasm_Expr symbols cur cond) as [cc|] eqn:Hcc;
      [|discriminate].
    destruct (toWasm_BlockExpr symbols cur thenBlock) as [tc|] eqn:Htc;
      [|discriminate].
    destruct (toWasm_BlockExpr symbols cur elseBlock) as [fc|] eqn:Hfc;
      [|discriminate].
    cbn [bind] in H.
    assert (Hc : c = [Arr cc; Arr [Num instr.if_; Num blocktype.i32]; Arr tc;
                      Num instr.else_; Arr fc; Num instr.end_])
      by congruence.
    subst c.
    exists [(flatten cc, flatten tc)], (flatten fc).
    split; [|split].
    + constructor; [|constructor]. split; cbn [fst snd].
      * rewrite Hcc. reflexivity.
      * rewrite Htc. reflexivity.
    + cbn [final_IfExpr]. rewrite Hfc. reflexivity.
    + rewrite flatten_conditional_else. reflexivity.
  - destruct (toWasm_Expr symbols cur cond) as [cc|] eqn:Hcc;
      [|discriminate].
    destruct (toWasm_BlockExpr symbols cur thenBlock) as [tc|] eqn:Htc;
      [|discriminate].
    destruct (toWasm_IfExpr symbols cur elseIf) as [fc|] eqn:Hfc;
      [|discriminate].
    cbn [bind] in H.
    assert (Hc : c = [Arr cc; Arr [Num instr.if_; Num blocktype.i32]; Arr tc;
                      Num instr.else_; Arr fc; Num instr.end_])
      by congruence.
    subst c.
    destruct (IH fc eq_refl) as (links & final & Hlinks & Hfinal & Hflat).
    exists ((flatten cc, flatten tc) :: links), final.
    split; [|split].
    + cbn [links_IfExpr]. constructor; [|exact Hlinks].
      split; cbn [fst snd].
      * rewrite Hcc. reflexivity.
      * rewrite Htc. reflexivity.
    + exact Hfinal.
    + rewrite flatten_conditional_else, Hflat.
      destruct (links_IfExpr_cons elseIf) as (l & rest & Hl).
      rewrite Hl in Hlinks. inversion Hlinks; subst. reflexivity.
Qed.

(** X23.  An [else if] is lowered to a conditional nested in the else
    branch of the enclosing one, never to a flat sequence.  The
    instructions of a conditional are those of its first condition, the
    opcode [if] with the block type (empty for a statement, [i32] for an
    expression), the instructions of its first block, then, if an
    [else if] or an [else] follows, the opcode [else] and after it the
    whole code of the [else if], laid out in the same way, or the
    instructions of the [else] block, and last the opcode [end].  So the
    code of a conditional with [n] [else if] links ends with [n + 1] [end]
    opcodes, one for each block opened. *)
Theorem else_if_nesting (symbols : Scope) (cur : FunScope) :
  (forall s c,
      toWasm_IfStatement symbols cur s = Ok c ->
      exists links final,
        Forall2 (codeOf_link_IfStatement symbols cur)
                (links_IfStatement s) links
        /\ codeOf_final_IfStatement symbols cur (final_IfStatement s) final
        /\ flatten c = nested blocktype.empty links final
        /\ exists pre,
             flatten c
             = pre ++ repeat instr.end_ (List.length (links_IfStatement s)))
  /\ (forall e c,
        toWasm_IfExpr symbols cur e = Ok c ->
        exists links final,
          Forall2 (codeOf_link_IfExpr symbols cur) (links_IfExpr e) links
          /\ result_map flatten
               (toWasm_BlockExpr symbols cur (final_IfExpr e))
             = Ok final
          /\ flatten c = nested blocktype.i32 links (Some final)
          /\ exists pre,
               flatten c
               = pre ++ repeat instr.end_ (List.length (links_IfExpr e))).
Proof.
  split.
  - intros s c H.
    destruct (IfStatement_layout symbols cur s c H)
      as (links & final & Hlinks & Hfinal & Hflat).
    exists links, final. repeat (split; [assumption|]).
    rewrite Hflat, (Forall2_length Hlinks).
    apply nested_ends. intros ->.
    destruct (links_IfStatement_cons s) as (l & rest & Hl).
    rewrite Hl in Hlinks. inversion Hlinks.
  - intros e c H.
    destruct (IfExpr_layout symbols cur e c H)
      as (links & final & Hlinks & Hfinal & Hflat).
    exists links, final. repeat (split; [assumption|]).
    rewrite Hflat, (Forall2_length Hlinks).
    apply nested_ends. intros ->.
    destruct (links_IfExpr_cons e) as (l & rest & Hl).
    rewrite Hl in Hlinks. inversion Hlinks.
Qed.

(** [if 1 { } else if 0 { } else { 7; }] *)
Lemma else_if_nesting_witness :
  let s := IfStatement_elif (Expr_binary (PrimaryExpr_num 1) []) []
             (IfStatement_else (Expr_binary (PrimaryExpr_num 0) []) []
                [ExprStatement (Expr_binary (PrimaryExpr_num 7) [])]) in
  exists c,
    toWasm_IfStatement [] [] s = Ok c
    /\ flatten c
       = nested blocktype.empty [([instr.i32_const; 1], []);
                                 ([instr.i32_const; 0], [])]
           (Some [instr.i32_const; 7; instr.drop])
    /\ flatten c
       = [instr.i32_const; 1; instr.if_; blocktype.empty;
          instr.else_;
            instr.i32_const; 0; instr.if_; blocktype.empty;
            instr.else_;
              instr.i32_const; 7; instr.drop;
            instr.end_;
          instr.end_].
Proof.
  cbv zeta.
  edestruct (proj1 (else_if_nesting [] [])
               (IfStatement_elif (Expr_binary (PrimaryExpr_num 1) []) []
                  (IfStatement_else (Expr_binary (PrimaryExpr_num 0) []) []
                     [ExprStatement (Expr_binary (PrimaryExpr_num 7) [])])))
    as (links & final & Hlinks & Hfinal & Hflat & _); [reflexivity|].
  eexists. split; [reflexivity|]. split; [|reflexivity].
  rewrite Hflat. clear Hflat.
  inversion Hlinks as [|l1 k1 ls ks [Hc1 Ht1] Hrest]; subst.
  inversion Hrest as [|l2 k2 ls' ks' [Hc2 Ht2] Hnil]; subst.
  inversion Hnil; subst.
  destruct k1 as [c1 t1], k2 as [c2 t2], final as [f|]; [|contradiction].
  cbn in Hc1, Ht1, Hc2, Ht2, Hfinal.
  congruence.
Defined.


(** ** Renaming of variables ([chapter05.ts], [chapter06.ts]) *)

Lemma flat_map_map_Forall {A B C : Type} (f : A -> list C) (g : B -> A)
      (h : B -> list C) (l : list B) :
  Forall (fun b => f (g b) = h b) l -> flat_map f (map g l) = flat_map h l.
Proof.
  induction 1 as [|b l Hb _ IH]; [reflexivity|].
  cbn [map flat_map]. now rewrite Hb, IH.
Qed.

Lemma map_flat_map {A B C : Type} (f : B -> C) (h : A -> list B)
      (l : list A) :
  map f (flat_map h l) = flat_map (fun a => map f (h a)) l.
Proof.
  induction l as [|a l IH]; [reflexivity|].
  cbn [flat_map]. now rewrite map_app, IH.
Qed.

Section RenamingFacts.
Variable rho : string -> string.
Hypothesis rho_inj : forall x y, rho x = rho y -> x = y.

Lemma eqb_rho (x y : string) : String.eqb (rho x) (rho y) = String.eqb x y.
Proof.
  destruct (String.eqb_spec x y) as [->|Hne]; [apply String.eqb_refl|].
  apply String.eqb_neq. intros H. apply Hne, rho_inj, H.
Qed.

Lemma walked_rename_list {A : Type} (walked : A -> list string)
      (rename : A -> A) (l : list A) :
  Forall (fun a => walked (rename a) = map rho (walked a)) l ->
  flat_map walked (map rename l) = map rho (flat_map walked l).
Proof.
  intros H. rewrite map_flat_map. now apply flat_map_map_Forall.
Qed.

Lemma walked_rename :
  (forall e, walked_Expr (rename_Expr rho e) = map rho (walked_Expr e))
  /\ (forall e, walked_PrimaryExpr (rename_PrimaryExpr rho e)
                = map rho (walked_PrimaryExpr e))
  /\ (forall e, walked_IfExpr (rename_IfExpr rho e)
                = map rho (walked_IfExpr e))
  /\ (forall b, walked_BlockExpr (rename_BlockExpr rho b)
                = map rho (walked_BlockExpr b))
  /\ (forall s, walked_Statement (rename_Statement rho s)
                = map rho (walked_Statement s))
  /\ (forall s, walked_IfStatement (rename_IfStatement rho s)
                = map rho (walked_IfStatement s)).
Proof.
  apply syntax_mutind.
  - intros ident e IH. exact IH.
  - intros num IHnum rest IHrest. cbn [rename_Expr walked_Expr].
    rewrite map_app, IHnum. f_equal.
    apply list_all_snd_Forall in IHrest.
    rewrite map_flat_map. apply flat_map_map_Forall.
    eapply Forall_impl; [|exact IHrest]. intros r Hr. exact Hr.
  - reflexivity.
  - intros ident args IH. cbn [rename_PrimaryExpr walked_PrimaryExpr].
    apply walked_rename_list. now apply list_all_Forall.
  - reflexivity.
  - intros e IH. exact IH.
  - intros cond IHc thenBlock IHt elseBlock IHe.
    cbn [rename_IfExpr walked_IfExpr]. now rewrite !map_app, IHc, IHt, IHe.
  - intros cond IHc thenBlock IHt elseIf IHe.
    cbn [rename_IfExpr walked_IfExpr]. now rewrite !map_app, IHc, IHt, IHe.
  - intros stmts IHs e IHe. cbn [rename_BlockExpr walked_BlockExpr].
    rewrite map_app, IHe. f_equal.
    apply walked_rename_list. now apply list_all_Forall.
  - reflexivity.
  - intros s IH. exact IH.
  - intros cond IHc body IHb. cbn [rename_Statement walked_Statement].
    rewrite map_app, IHc. f_equal.
    apply walked_rename_list. now apply list_all_Forall.
  - intros e IH. exact IH.
  - intros cond IHc thenBlock IHt.
    cbn [rename_IfStatement walked_IfStatement].
    rewrite map_app, IHc. f_equal.
    apply walked_rename_list. now apply list_all_Forall.
  - intros cond IHc thenBlock IHt elseBlock IHe.
    cbn [rename_IfStatement walked_IfStatement].
    rewrite !map_app, IHc. f_equal. f_equal.
    + apply walked_rename_list. now apply list_all_Forall.
    + apply walked_rename_list. now apply list_all_Forall.
  - intros cond IHc thenBlock IHt elseIf IHe.
    cbn [rename_IfStatement walked_IfStatement].
    rewrite !map_app, IHc, IHe. f_equal. f_equal.
    apply walked_rename_list. now apply list_all_Forall.
Qed.

Lemma set_rename_scope (sc : FunScope) (n : string) (s : Symbol) :
  JSMap.set (rename_scope rho sc) (rho n) (rename_Symbol rho s)
  = rename_scope rho (JSMap.set sc n s).
Proof.
  induction sc as [|[k v] sc IH]; [reflexivity|].
  cbn [rename_scope map JSMap.set fst snd]. rewrite eqb_rho.
  destruct (String.eqb k n); [reflexivity|].
  cbn [map fst snd]. f_equal. exact IH.
Qed.

Lemma get_rename_scope (sc : FunScope) (x : string) :
  JSMap.get (rename_scope rho sc) (rho x)
  = option_map (rename_Symbol rho) (JSMap.get sc x).
Proof.
  induction sc as [|[k v] sc IH]; [reflexivity|].
  cbn [rename_scope map JSMap.get fst snd]. rewrite eqb_rho.
  destruct (String.eqb k x); [reflexivity | exact IH].
Qed.

Lemma size_rename_scope (sc : FunScope) :
  JSMap.size (rename_scope rho sc) = JSMap.size sc.
Proof. unfold JSMap.size, rename_scope. apply len_map. Qed.

Lemma declare_rename_scope (w : kind) (sc : FunScope) (n : string) :
  declare w (rename_scope rho sc) (rho n) = rename_scope rho (declare w sc n).
Proof.
  unfold declare. cbv zeta. rewrite size_rename_scope.
  exact (set_rename_scope sc n (mkSymbol n (JSMap.size sc) w)).
Qed.

Lemma fold_declare_rename_scope (w : kind) (names : list string)
      (sc : FunScope) :
  fold_left (declare w) (map rho names) (rename_scope rho sc)
  = rename_scope rho (fold_left (declare w) names sc).
Proof.
  revert sc. induction names as [|n names IH]; intros sc; [reflexivity|].
  cbn [map fold_left]. now rewrite declare_rename_scope, IH.
Qed.

Lemma functionScope_rename (d : FunctionDeclNode) :
  functionScope (rename_FunctionDecl rho d)
  = rename_scope rho (functionScope d).
Proof.
  rewrite !functionScope_fold. cbn [rename_FunctionDecl fd_params fd_body].
  rewrite (proj1 (proj2 (proj2 (proj2 walked_rename)))).
  change (@JSMap.empty Symbol) with (rename_scope rho JSMap.empty) at 1.
  now rewrite !fold_declare_rename_scope.
Qed.

Lemma set_rename_table (t : Scope) (k : string) (sc : FunScope) :
  JSMap.set (rename_table rho t) k (rename_scope rho sc)
  = rename_table rho (JSMap.set t k sc).
Proof.
  induction t as [|[k' v] t IH]; [reflexivity|].
  cbn [rename_table map JSMap.set fst snd].
  destruct (String.eqb k' k); [reflexivity|].
  cbn [map fst snd]. f_equal. exact IH.
Qed.

Lemma get_rename_table (t : Scope) (k : string) :
  JSMap.get (rename_table rho t) k
  = option_map (rename_scope rho) (JSMap.get t k).
Proof.
  induction t as [|[k' v] t IH]; [reflexivity|].
  cbn [rename_table map JSMap.get fst snd].
  destruct (String.eqb k' k); [reflexivity | exact IH].
Qed.

Lemma keys_rename_table (t : Scope) :
  JSMap.keys (rename_table rho t) = JSMap.keys t.
Proof.
  unfold JSMap.keys, rename_table. rewrite map_map. reflexivity.
Qed.

Lemma buildSymbolTable_rename (m : ModuleNode) :
  buildSymbolTable (map (rename_FunctionDecl rho) m)
  = rename_table rho (buildSymbolTable m).
Proof.
  unfold buildSymbolTable.
  change (@JSMap.empty FunScope) with (rename_table rho JSMap.empty) at 1.
  generalize (@JSMap.empty FunScope).
  induction m as [|d m IH]; intros top; [reflexivity|].
  cbn [map fold_left]. rewrite <- IH. f_equal.
  rewrite !bst_FunctionDecl_set, functionScope_rename.
  apply set_rename_table.
Qed.

Lemma resolveSymbol_rename (x : string) (sc : FunScope) :
  resolveSymbol (rho x) (rename_scope rho sc)
  = match resolveSymbol x sc with
    | Ok s => Ok (rename_Symbol rho s)
    | Err e => Err (rename_error rho e)
    end.
Proof.
  unfold resolveSymbol, JSMap.has. rewrite get_rename_scope.
  destruct (JSMap.get sc x); reflexivity.
Qed.

Lemma rename_result_NotImplemented {A : Type} (r : result A) :
  raises_only_NotImplemented r -> rename_result rho r = r.
Proof.
  intros H. destruct r as [a|e]; [reflexivity|].
  rewrite (H e eq_refl). reflexivity.
Qed.

Lemma rename_result_u32 (v : Z) : rename_result rho (u32 v) = u32 v.
Proof. apply rename_result_NotImplemented, roni_u32. Qed.

Lemma mapM_rename {A : Type} (f f' : A -> result bytes) (g : A -> A)
      (l : list A) :
  Forall (fun a => f' (g a) = rename_result rho (f a)) l ->
  mapM f' (map g l) = rename_result rho (mapM f l).
Proof.
  induction 1 as [|a l Ha _ IH]; [reflexivity|].
  cbn [map mapM]. fold (mapM f). fold (mapM f').
  rewrite Ha, IH. destruct (f a); [|reflexivity].
  cbn [rename_result bind]. destruct (mapM f l); reflexivity.
Qed.

Section RenamedCode.
Variable symbols : Scope.
Variable cur : FunScope.

Lemma loop_rename (rest : list (binaryOp * PrimaryExpr)) :
  Forall (fun r => toWasm_PrimaryExpr (rename_table rho symbols)
                     (rename_scope rho cur) (rename_PrimaryExpr rho (snd r))
                   = rename_result rho
                       (toWasm_PrimaryExpr symbols cur (snd r))) rest ->
  forall acc,
    Expr_binary_loop
      (toWasm_PrimaryExpr (rename_table rho symbols) (rename_scope rho cur))
      (map (fun r => (fst r, rename_PrimaryExpr rho (snd r))) rest) acc
    = rename_result rho
        (Expr_binary_loop (toWasm_PrimaryExpr symbols cur) rest acc).
Proof.
  induction 1 as [|[o q] rest Hq _ IH]; intros acc; [reflexivity|].
  cbn [map Expr_binary_loop fst snd] in *. rewrite Hq.
  destruct (toWasm_PrimaryExpr symbols cur q); [|reflexivity].
  cbn [rename_result bind]. rewrite toWasm_binaryOp_total. cbn [bind].
  apply IH.
Qed.

Lemma toWasm_rename :
  (forall e, toWasm_Expr (rename_table rho symbols) (rename_scope rho cur)
               (rename_Expr rho e)
             = rename_result rho (toWasm_Expr symbols cur e))
  /\ (forall e, toWasm_PrimaryExpr (rename_table rho symbols)
                  (rename_scope rho cur) (rename_PrimaryExpr rho e)
                = rename_result rho (toWasm_PrimaryExpr symbols cur e))
  /\ (forall e, toWasm_IfExpr (rename_table rho symbols)
                  (rename_scope rho cur) (rename_IfExpr rho e)
                = rename_result rho (toWasm_IfExpr symbols cur e))
  /\ (forall b, toWasm_BlockExpr (rename_table rho symbols)
                  (rename_scope rho cur) (rename_BlockExpr rho b)
                = rename_result rho (toWasm_BlockExpr symbols cur b))
  /\ (forall s, toWasm_Statement (rename_table rho symbols)
                  (rename_scope rho cur) (rename_Statement rho s)
                = rename_result rho (toWasm_Statement symbols cur s))
  /\ (forall s, toWasm_IfStatement (rename_table rho symbols)
                  (rename_scope rho cur) (rename_IfStatement rho s)
                = rename_result rho (toWasm_IfStatement symbols cur s)).
Proof.
  apply syntax_mutind.
  - (* AssignmentExpr *)
    intros ident e IH. cbn [rename_Expr toWasm_Expr].
    rewrite resolveSymbol_rename, IH.
    destruct (resolveSymbol ident cur) as [info|]; [|reflexivity].
    cbn [bind rename_Symbol idx].
    destruct (toWasm_Expr symbols cur e); [|reflexivity].
    cbn [bind rename_result]. unfold localidx.
    destruct (u32 (idx info)) eqn:Hu; cbn [bind rename_result];
      [reflexivity|]. now rewrite (roni_u32 _ _ Hu).
  - (* Expr_binary *)
    intros num IHnum rest IHrest. cbn [rename_Expr toWasm_Expr].
    rewrite IHnum.
    destruct (toWasm_PrimaryExpr symbols cur num); [|reflexivity].
    cbn [bind rename_result]. apply loop_rename.
    apply list_all_snd_Forall in IHrest. exact IHrest.
  - (* PrimaryExpr_num *)
    intros value. cbn [rename_PrimaryExpr toWasm_PrimaryExpr]. unfold i32.
    destruct (Z.of_N value <=? 63); reflexivity.
  - (* CallExpr *)
    intros ident args IH. cbn [rename_PrimaryExpr toWasm_PrimaryExpr].
    cbv zeta. rewrite keys_rename_table.
    assert (Hargs : toWasm_optArgs
                      (toWasm_Expr (rename_table rho symbols)
                                   (rename_scope rho cur))
                      (map (rename_Expr rho) args)
                    = rename_result rho
                        (toWasm_optArgs (toWasm_Expr symbols cur) args)).
    { destruct args as [|a args]; [reflexivity|].
      apply list_all_Forall in IH.
      apply (mapM_rename (toWasm_Expr symbols cur)
               (toWasm_Expr (rename_table rho symbols) (rename_scope rho cur))
               (rename_Expr rho)) in IH.
      unfold toWasm_optArgs.
      change (map (rename_Expr rho) (a :: args))
        with (rename_Expr rho a :: map (rename_Expr rho) args) in *.
      rewrite IH. destruct (mapM (toWasm_Expr symbols cur) (a :: args));
        reflexivity. }
    rewrite Hargs.
    destruct (toWasm_optArgs (toWasm_Expr symbols cur) args); [|reflexivity].
    cbn [bind rename_result]. unfold funcidx.
    destruct (u32 _) eqn:Hu; cbn [bind rename_result]; [reflexivity|].
    now rewrite (roni_u32 _ _ Hu).
  - (* PrimaryExpr_var *)
    intros ident. cbn [rename_PrimaryExpr toWasm_PrimaryExpr].
    rewrite resolveSymbol_rename.
    destruct (resolveSymbol ident cur) as [info|]; [|reflexivity].
    cbn [bind rename_Symbol idx]. unfold localidx.
    destruct (u32 (idx info)) eqn:Hu; cbn [bind rename_result];
      [reflexivity|]. now rewrite (roni_u32 _ _ Hu).
  - (* PrimaryExpr_if *)
    intros e IH. exact IH.
  - (* IfExpr_else *)
    intros cond IHc thenBlock IHt elseBlock IHe.
    cbn [rename_IfExpr toWasm_IfExpr]. rewrite IHc, IHt, IHe.
    destruct (toWasm_Expr symbols cur cond); [|reflexivity].
    cbn [bind rename_result].
    destruct (toWasm_BlockExpr symbols cur thenBlock); [|reflexivity].
    cbn [bind rename_result].
    destruct (toWasm_BlockExpr symbols cur elseBlock); reflexivity.
  - (* IfExpr_elif *)
    intros cond IHc thenBlock IHt elseIf IHe.
    cbn [rename_IfExpr toWasm_IfExpr]. rewrite IHc, IHt, IHe.
    destruct (toWasm_Expr symbols cur cond); [|reflexivity].
    cbn [bind rename_result].
    destruct (toWasm_BlockExpr symbols cur thenBlock); [|reflexivity].
    cbn [bind rename_result].
    destruct (toWasm_IfExpr symbols cur elseIf); reflexivity.
  - (* BlockExpr *)
    intros stmts IHs e IHe. cbn [rename_BlockExpr toWasm_BlockExpr].
    apply list_all_Forall in IHs.
    rewrite (mapM_rename (toWasm_Statement symbols cur) _ _ _ IHs), IHe.
    destruct (mapM (toWasm_Statement symbols cur) stmts); [|reflexivity].
    cbn [bind rename_result].
    destruct (toWasm_Expr symbols cur e); reflexivity.
  - (* LetStatement *)
    intros ident e IH. cbn [rename_Statement toWasm_Statement].
    rewrite resolveSymbol_rename, IH.
    destruct (resolveSymbol ident cur) as [info|]; [|reflexivity].
    cbn [bind rename_Symbol idx].
    destruct (toWasm_Expr symbols cur e); [|reflexivity].
    cbn [bind rename_result]. unfold localidx.
    destruct (u32 (idx info)) eqn:Hu; cbn [bind rename_result];
      [reflexivity|]. now rewrite (roni_u32 _ _ Hu).
  - (* Statement_if *)
    intros s IH. exact IH.
  - (* WhileStatement *)
    intros cond IHc body IHb. cbn [rename_Statement toWasm_Statement].
    apply list_all_Forall in IHb.
    rewrite (mapM_rename (toWasm_Statement symbols cur) _ _ _ IHb), IHc.
    destruct (toWasm_Expr symbols cur cond); [|reflexivity].
    cbn [bind rename_result].
    destruct (mapM (toWasm_Statement symbols cur) body); reflexivity.
  - (* ExprStatement *)
    intros e IH. cbn [rename_Statement toWasm_Statement]. rewrite IH.
    destruct (toWasm_Expr symbols cur e); reflexivity.
  - (* IfStatement_then *)
    intros cond IHc thenBlock IHt.
    cbn [rename_IfStatement toWasm_IfStatement]. cbv zeta.
    apply list_all_Forall in IHt.
    rewrite (mapM_rename (toWasm_Statement symbols cur) _ _ _ IHt), IHc.
    destruct (toWasm_Expr symbols cur cond); [|reflexivity].
    cbn [bind rename_result].
    destruct (mapM (toWasm_Statement symbols cur) thenBlock); reflexivity.
  - (* IfStatement_else *)
    intros cond IHc thenBlock IHt elseBlock IHe.
    cbn [rename_IfStatement toWasm_IfStatement]. cbv zeta.
    apply list_all_Forall in IHt. apply list_all_Forall in IHe.
    rewrite (mapM_rename (toWasm_Statement symbols cur) _ _ _ IHt),
      (mapM_rename (toWasm_Statement symbols cur) _ _ _ IHe), IHc.
    destruct (mapM (toWasm_Statement symbols cur) elseBlock); [|reflexivity].
    cbn [bind rename_result].
    destruct (toWasm_Expr symbols cur cond); [|reflexivity].
    cbn [bind rename_result].
    destruct (mapM (toWasm_Statement symbols cur) thenBlock); reflexivity.
  - (* IfStatement_elif *)
    intros cond IHc thenBlock IHt elseIf IHe.
    cbn [rename_IfStatement toWasm_IfStatement]. cbv zeta.
    apply list_all_Forall in IHt.
    rewrite (mapM_rename (toWasm_Statement symbols cur) _ _ _ IHt), IHc, IHe.
    destruct (toWasm_IfStatement symbols cur elseIf); [|reflexivity].
    cbn [bind rename_result].
    destruct (toWasm_Expr symbols cur cond); [|reflexivity].
    cbn [bind rename_result].
    destruct (mapM (toWasm_Statement symbols cur) thenBlock); reflexivity.
Qed.
End RenamedCode.

Lemma values_rename_scope (sc : FunScope) :
  JSMap.values (rename_scope rho sc)
  = map (rename_Symbol rho) (JSMap.values sc).
Proof.
  unfold JSMap.values, rename_scope. rewrite !map_map. reflexivity.
Qed.

Lemma filter_kind_rename (w : kind) (l : list Symbol) :
  filter (fun info => kind_eqb (what info) w) (map (rename_Symbol rho) l)
  = map (rename_Symbol rho) (filter (fun info => kind_eqb (what info) w) l).
Proof.
  induction l as [|s l IH]; [reflexivity|].
  cbn [map filter rename_Symbol what]. rewrite IH.
  destruct (kind_eqb (what s) w); reflexivity.
Qed.

Lemma functionDecls_rename (symbols : Scope) (d : FunctionDeclNode) :
  functionDecls_FunctionDecl (rename_table rho symbols)
    (rename_FunctionDecl rho d)
  = rename_result rho (functionDecls_FunctionDecl symbols d).
Proof.
  unfold functionDecls_FunctionDecl, toWasm_FunctionDecl.
  cbn [rename_FunctionDecl fd_ident fd_body]. rewrite get_rename_table.
  destruct (JSMap.get symbols (fd_ident d)) as [sc|]; [|reflexivity].
  cbn [option_map]. cbv zeta.
  rewrite values_rename_scope. unfold countLocals.
  rewrite !filter_kind_rename, !map_map, !len_map.
  unfold locals.
  destruct (u32 _) eqn:Hu; cbn [bind rename_result];
    [|now rewrite (roni_u32 _ _ Hu)].
  rewrite (proj1 (proj2 (proj2 (proj2 (toWasm_rename symbols sc))))).
  destruct (toWasm_BlockExpr symbols sc (fd_body d)); reflexivity.
Qed.

Lemma compile_rename (m : ModuleNode) :
  compile (map (rename_FunctionDecl rho) m) = rename_result rho (compile m).
Proof.
  unfold compile, functionDecls. cbv zeta. rewrite buildSymbolTable_rename.
  assert (H : mapM (functionDecls_FunctionDecl
                      (rename_table rho (buildSymbolTable m)))
                   (map (rename_FunctionDecl rho) m)
              = rename_result rho
                  (mapM (functionDecls_FunctionDecl (buildSymbolTable m)) m)).
  { generalize (buildSymbolTable m) as symbols. intros symbols.
    induction m as [|d m IH]; [reflexivity|].
    cbn [map mapM].
    fold (mapM (functionDecls_FunctionDecl symbols)).
    fold (mapM (functionDecls_FunctionDecl (rename_table rho symbols))).
    rewrite functionDecls_rename, IH.
    destruct (functionDecls_FunctionDecl symbols d); [|reflexivity].
    cbn [bind rename_result].
    destruct (mapM (functionDecls_FunctionDecl symbols) m); reflexivity. }
  rewrite H.
  destruct (mapM (functionDecls_FunctionDecl (buildSymbolTable m)) m)
    as [decls|e]; [|reflexivity].
  cbn [bind rename_result]. symmetry.
  apply rename_result_NotImplemented, roni_buildModule.
Qed.
End RenamingFacts.

(** X24.  The names of parameters and variables do not reach the module:
    renaming them by an injective map leaves the result of [compile]
    unchanged, bytes and all, except that the error for an undeclared
    identifier names the renamed identifier. *)
Theorem compile_ignores_variable_names
        (rho : string -> string)
        (rho_inj : forall x y, rho x = rho y -> x = y) (m : ModuleNode) :
  compile (map (rename_FunctionDecl rho) m) = rename_result rho (compile m)
  /\ forall out, compile m = Ok out ->
       compile (map (rename_FunctionDecl rho) m) = Ok out.
Proof.
  split; [now apply compile_rename|].
  intros out H. rewrite compile_rename by assumption. now rewrite H.
Qed.

Lemma compile_ignores_variable_names_witness :
  let rho := String "v"%char in
  (forall x y, rho x = rho y -> x = y)
  /\ compile (map (rename_FunctionDecl rho) [test_countTo])
     = compile [test_countTo].
Proof.
  cbv zeta.
  assert (Hinj : forall x y, String "v"%char x = String "v"%char y -> x = y)
    by (intros x y H; now injection H).
  split; [exact Hinj|].
  destruct (compile_ignores_variable_names _ Hinj [test_countTo])
    as [Heq _].
  rewrite Heq. reflexivity.
Defined.

(** ** One function among the others ([chapter06.ts]) *)

Lemma mapM_ext_Forall {A B : Type} (f g : A -> result B) (l : list A) :
  Forall (fun a => f a = g a) l -> mapM f l = mapM g l.
Proof.
  induction 1 as [|a l Ha _ IH]; [reflexivity|].
  cbn [mapM]. fold (mapM f). fold (mapM g). now rewrite Ha, IH.
Qed.

Lemma Expr_binary_loop_ext (f g : PrimaryExpr -> result bytes)
      (rest : list (binaryOp * PrimaryExpr)) :
  Forall (fun r => f (snd r) = g (snd r)) rest ->
  forall acc, Expr_binary_loop f rest acc = Expr_binary_loop g rest acc.
Proof.
  induction 1 as [|r rest Hr _ IH]; intros acc; [reflexivity|].
  cbn [Expr_binary_loop]. rewrite Hr. destruct (g (snd r)); [|reflexivity].
  cbn [bind]. destruct (toWasm_binaryOp (fst r)); [|reflexivity].
  cbn [bind]. apply IH.
Qed.

Section SameNames.
Variable symbols : Scope.
Variable symbols' : Scope.
Hypothesis Hkeys : JSMap.keys symbols = JSMap.keys symbols'.
Variable cur : FunScope.

(** Code generation reads the module scope through its keys only. *)
Lemma toWasm_same_keys :
  (forall e, toWasm_Expr symbols cur e = toWasm_Expr symbols' cur e)
  /\ (forall e, toWasm_PrimaryExpr symbols cur e
                = toWasm_PrimaryExpr symbols' cur e)
  /\ (forall e, toWasm_IfExpr symbols cur e = toWasm_IfExpr symbols' cur e)
  /\ (forall b, toWasm_BlockExpr symbols cur b
                = toWasm_BlockExpr symbols' cur b)
  /\ (forall s, toWasm_Statement symbols cur s
                = toWasm_Statement symbols' cur s)
  /\ (forall s, toWasm_IfStatement symbols cur s
                = toWasm_IfStatement symbols' cur s).
Proof.
  apply syntax_mutind.
  - intros ident e IH. cbn [toWasm_Expr]. now rewrite IH.
  - intros num IHnum rest IHrest. cbn [toWasm_Expr]. rewrite IHnum.
    destruct (toWasm_PrimaryExpr symbols' cur num); [|reflexivity].
    cbn [bind]. apply Expr_binary_loop_ext.
    apply list_all_snd_Forall in IHrest. exact IHrest.
  - reflexivity.
  - intros ident args IH. cbn [toWasm_PrimaryExpr]. cbv zeta.
    rewrite Hkeys. apply list_all_Forall in IH.
    assert (Hargs : toWasm_optArgs (toWasm_Expr symbols cur) args
                    = toWasm_optArgs (toWasm_Expr symbols' cur) args).
    { unfold toWasm_optArgs. destruct args as [|a args]; [reflexivity|].
      now rewrite (mapM_ext_Forall _ _ _ IH). }
    now rewrite Hargs.
  - reflexivity.
  - intros e IH. exact IH.
  - intros cond IHc thenBlock IHt elseBlock IHe. cbn [toWasm_IfExpr].
    now rewrite IHc, IHt, IHe.
  - intros cond IHc thenBlock IHt elseIf IHe. cbn [toWasm_IfExpr].
    now rewrite IHc, IHt, IHe.
  - intros stmts IHs e IHe. cbn [toWasm_BlockExpr].
    apply list_all_Forall in IHs.
    now rewrite (mapM_ext_Forall _ _ _ IHs), IHe.
  - intros ident e IH. cbn [toWasm_Statement]. now rewrite IH.
  - intros s IH. exact IH.
  - intros cond IHc body IHb. cbn [toWasm_Statement].
    apply list_all_Forall in IHb.
    now rewrite (mapM_ext_Forall _ _ _ IHb), IHc.
  - intros e IH. cbn [toWasm_Statement]. now rewrite IH.
  - intros cond IHc thenBlock IHt. cbn [toWasm_IfStatement].
    apply list_all_Forall in IHt.
    now rewrite (mapM_ext_Forall _ _ _ IHt), IHc.
  - intros cond IHc thenBlock IHt elseBlock IHe. cbn [toWasm_IfStatement].
    apply list_all_Forall in IHt. apply list_all_Forall in IHe.
    now rewrite (mapM_ext_Forall _ _ _ IHt), (mapM_ext_Forall _ _ _ IHe), IHc.
  - intros cond IHc thenBlock IHt elseIf IHe. cbn [toWasm_IfStatement].
    apply list_all_Forall in IHt.
    now rewrite (mapM_ext_Forall _ _ _ IHt), IHc, IHe.
Qed.
End SameNames.

(** X25.  The record of a function depends on the other functions of the
    module through their names only: in two modules that declare the same
    function names in the same order, all distinct, a function declaration
    that occurs in both gets the same record, whatever the parameters and
    the bodies of the other functions are. *)
Theorem function_record_depends_on_names_only
        (m m' : ModuleNode) (d : FunctionDeclNode)
        (Hnames : map fd_ident m = map fd_ident m')
        (Hnd : NoDup (map fd_ident m))
        (Hd : In d m) (Hd' : In d m') :
  functionDecls_FunctionDecl (buildSymbolTable m) d
  = functionDecls_FunctionDecl (buildSymbolTable m') d.
Proof.
  assert (Hnd' : NoDup (map fd_ident m')) by (rewrite <- Hnames; exact Hnd).
  assert (Hkeys : JSMap.keys (buildSymbolTable m)
                  = JSMap.keys (buildSymbolTable m'))
    by (rewrite !keys_buildSymbolTable; now rewrite Hnames).
  unfold functionDecls_FunctionDecl, toWasm_FunctionDecl.
  rewrite (buildSymbolTable_get_NoDup m d Hnd Hd),
    (buildSymbolTable_get_NoDup m' d Hnd' Hd').
  cbv zeta.
  now rewrite (proj1 (proj2 (proj2 (proj2
                 (toWasm_same_keys _ _ Hkeys (functionScope d)))))).
Qed.

Lemma function_record_depends_on_names_only_witness :
  map fd_ident test_doIt_add = map fd_ident [test_doIt; fn_const "add" 7]
  /\ NoDup (map fd_ident test_doIt_add)
  /\ functionDecls_FunctionDecl (buildSymbolTable test_doIt_add) test_doIt
     = functionDecls_FunctionDecl
         (buildSymbolTable [test_doIt; fn_const "add" 7]) test_doIt.
Proof.
  assert (Hnd : NoDup (map fd_ident test_doIt_add)).
  { repeat constructor; cbn; intros H; repeat destruct H as [H|H];
      try discriminate H; exact H. }
  split; [reflexivity|]. split; [exact Hnd|].
  apply (function_record_depends_on_names_only test_doIt_add
           [test_doIt; fn_const "add" 7] test_doIt eq_refl Hnd);
    left; reflexivity.
Defined.

